(** * Ardubot R4 BLE controller: a shallow embedding of [main.py]

    The development follows the Python source top-down: the module
    constants, the data exchanged with the [bleak] transport, the
    [BLEController] coroutines and the [App] glue that drives them.

    Conventions.
    - A Python [str] is a Rocq [string] (its UTF-8 bytes).  [str.lower] is
      the Unicode lowercase mapping of the Python runtime; the model does
      not fix it (a [Runtime] supplies it), so every statement holds
      whatever that mapping does.
    - A coroutine is a finite tree of operations ([Prog]): field accesses on
      the controller, calls to the transport, and the two operations of the
      [asyncio.Lock].  One interpreter ([run]) executes a coroutine to
      completion on its own; a second one ([step]) interleaves several
      coroutines on the event loop.
    - The transport is an [Adapter]: for every call it answers as a function
      of the history of calls made so far, so a statement quantified over all
      adapters covers every behaviour of the radio stack.
    - A write of [main_error.log] is recorded by the heading line of the
      entry; the traceback text that follows it is not modelled.
    - The [print] calls to stderr are diagnostics and are not modelled. *)

From Stdlib Require Import String Ascii List Bool Arith NArith QArith Lia Permutation.
From Stdlib Require Strings.Byte.
Import ListNotations.
Local Close Scope Q_scope.
Local Open Scope nat_scope.
Local Open Scope list_scope.
Local Open Scope string_scope.

(** ** Strings, bytes and truthiness *)

Definition bytes := list Byte.byte.

(** [str.encode("utf-8")]: the string already holds its UTF-8 bytes. *)
Definition encode_utf8 (s : string) : bytes := list_byte_of_string s.

(** [s.lower()]: the lowercase mapping of the Python runtime.  It is left
    open, and the statements are proved for every runtime. *)
Class Runtime := {
  lower : string -> string
}.

(** Truth value of a [str]: the empty string is falsy. *)
Definition truthy_str (s : string) : bool := negb (s =? "").

(** Truth value of an [Optional[str]]: [None] and [""] are falsy. *)
Definition truthy_ostr (o : option string) : bool :=
  match o with
  | None => false
  | Some s => truthy_str s
  end.

(** ** Module constants *)

Definition DEVICE_NAME : string := "ardubotr4".
Definition ROBOT_SERVICE_UUID : string := "19B10000-E8F2-537E-4F6C-D104768A1214".
Definition COMMAND_CHAR_UUID : string := "19B10001-E8F2-537E-4F6C-D104768A1214".
Definition REQUIRE_RESPONSE_ON_WRITE : bool := true.

(** The [COMMANDS] dict, in insertion order. *)
Definition COMMANDS : list (string * string) :=
  [ ("forward", "forward");
    ("back", "back");
    ("left", "left");
    ("right", "right");
    ("switch", "switch") ].

(** [dict.get(key)] *)
Fixpoint dict_get (d : list (string * string)) (key : string) : option string :=
  match d with
  | [] => None
  | (k, v) :: d' => if k =? key then Some v else dict_get d' key
  end.

(** ** Transport data *)

(** A scanned device ([bleak]'s [BLEDevice]): its name may be [None]. *)
Record BLEDevice := mkDevice {
  d_name : option string;
  d_address : string
}.

(** A GATT characteristic: UUID string and the list of its properties. *)
Record Characteristic := mkChar {
  uuid : string;
  properties : list string
}.

Record Service := mkService {
  characteristics : list Characteristic
}.

(** [BleakClient(address, loop=...)]: the connection handle. *)
Inductive Client := BleakClient (addr : string).

Inductive ExnKind := RuntimeError | RecursionError | BleakError | OtherError.

(** A raised exception; [str(e)] is its message. *)
Record Exn := mkExn {
  exn_kind : ExnKind;
  exn_msg : string
}.

Definition is_RecursionError (e : Exn) : bool :=
  match exn_kind e with
  | RecursionError => true
  | _ => false
  end.

(** ** Controller state *)

Record BLEController := mkBLE {
  client : option Client;
  char_uuid : option string;
  address : option string;
  connected : bool
}.

(** [BLEController.__init__] *)
Definition BLEController_init : BLEController :=
  {| client := None; char_uuid := None; address := None; connected := false |}.

Definition set_client (v : option Client) (b : BLEController) : BLEController :=
  {| client := v; char_uuid := char_uuid b; address := address b; connected := connected b |}.
Definition set_char_uuid (v : option string) (b : BLEController) : BLEController :=
  {| client := client b; char_uuid := v; address := address b; connected := connected b |}.
Definition set_address (v : option string) (b : BLEController) : BLEController :=
  {| client := client b; char_uuid := char_uuid b; address := v; connected := connected b |}.
Definition set_connected (v : bool) (b : BLEController) : BLEController :=
  {| client := client b; char_uuid := char_uuid b; address := address b; connected := v |}.

(** ** Device and characteristic selection (the pure parts of
       [scan_and_connect]) *)

(** The test of the scan loop: [d.name and d.name.lower() == name.lower()]. *)
Definition name_matches {rt : Runtime} (name : string) (d : BLEDevice) : bool :=
  match d_name d with
  | None => false
  | Some n => truthy_str n && (lower n =? lower name)
  end.

(** [for d in devices: if ...: target = d; break] *)
Fixpoint find_target {rt : Runtime} (name : string) (devices : list BLEDevice) : option BLEDevice :=
  match devices with
  | [] => None
  | d :: rest => if name_matches name d then Some d else find_target name rest
  end.

(** Truth value of [client.services]: [None] and an empty collection are falsy. *)
Definition truthy_services (s : option (list Service)) : bool :=
  match s with
  | None => false
  | Some [] => false
  | Some (_ :: _) => true
  end.

Definition services_list (s : option (list Service)) : list Service :=
  match s with
  | None => []
  | Some l => l
  end.

(** Inner loop of the first search: stop at the first characteristic whose
    lowered UUID is [uuid_target]; otherwise [chosen] keeps its value. *)
Fixpoint exact_inner {rt : Runtime} (uuid_target : string) (chs : list Characteristic)
    (chosen : option string) : option string :=
  match chs with
  | [] => chosen
  | ch :: rest =>
      if lower (uuid ch) =? uuid_target then Some (uuid ch)
      else exact_inner uuid_target rest chosen
  end.

(** Outer loop of the first search: [if chosen_char_uuid: break]. *)
Fixpoint exact_outer {rt : Runtime} (uuid_target : string) (svcs : list Service)
    (chosen : option string) : option string :=
  match svcs with
  | [] => chosen
  | svc :: rest =>
      let chosen' := exact_inner uuid_target (characteristics svc) chosen in
      if truthy_ostr chosen' then chosen' else exact_outer uuid_target rest chosen'
  end.

(** ['write' in props or 'write-without-response' in props] *)
Definition str_in (x : string) (l : list string) : bool := existsb (String.eqb x) l.

Definition is_writable (ch : Characteristic) : bool :=
  str_in "write" (properties ch) || str_in "write-without-response" (properties ch).

(** Inner loop of the fallback search. *)
Fixpoint writable_inner (chs : list Characteristic) (chosen : option string)
    : option string :=
  match chs with
  | [] => chosen
  | ch :: rest =>
      if is_writable ch then Some (uuid ch) else writable_inner rest chosen
  end.

(** Outer loop of the fallback search. *)
Fixpoint writable_outer (svcs : list Service) (chosen : option string)
    : option string :=
  match svcs with
  | [] => chosen
  | svc :: rest =>
      let chosen' := writable_inner (characteristics svc) chosen in
      if truthy_ostr chosen' then chosen' else writable_outer rest chosen'
  end.

(** Lines 94-114: [chosen_char_uuid] after both searches. *)
Definition choose_char {rt : Runtime} (services : option (list Service)) : option string :=
  let chosen_char_uuid : option string := None in
  if truthy_services services then
    let uuid_target := lower COMMAND_CHAR_UUID in
    let chosen_char_uuid := exact_outer uuid_target (services_list services) chosen_char_uuid in
    if negb (truthy_ostr chosen_char_uuid) then
      writable_outer (services_list services) chosen_char_uuid
    else chosen_char_uuid
  else chosen_char_uuid.

(** [chosen_char_uuid or COMMAND_CHAR_UUID] *)
Definition or_default (chosen : option string) (dflt : string) : string :=
  match chosen with
  | Some s => if truthy_str s then s else dflt
  | None => dflt
  end.

(** ** Operations of a coroutine *)

Inductive Op : Type :=
| GetBle                                   (* read the fields of [self.ble] *)
| ModifyBle (f : BLEController -> BLEController)   (* assign a field *)
| BleakAvailable                           (* [BleakScanner is not None] *)
| SetStatus (txt : string)                 (* [App._set_status] *)
| ShowError (title msg : string)           (* [messagebox.showerror] *)
| WriteLog (text : string)                 (* write of [main_error.log] *)
| Discover (timeout : Q)                   (* [await BleakScanner.discover] *)
| Connect (c : Client)                     (* [await client.connect()] *)
| GetServices (c : Client)                 (* [getattr(client, "services", None)] *)
| Sleep (secs : Q)                         (* [await asyncio.sleep] *)
| Disconnect (c : Client)                  (* [await client.disconnect()] *)
| WriteGattChar (c : Client) (char : string) (payload : bytes) (response : bool)
| LockAcquire                              (* entering [async with self._lock] *)
| LockRelease.                             (* leaving it *)

(** What an operation hands back; a transport call may raise. *)
Definition Res (o : Op) : Type :=
  match o with
  | GetBle => BLEController
  | BleakAvailable => bool
  | Discover _ => (Exn + list BLEDevice)%type
  | Connect _ => (Exn + unit)%type
  | GetServices _ => (Exn + option (list Service))%type
  | Disconnect _ => (Exn + unit)%type
  | WriteGattChar _ _ _ _ => (Exn + unit)%type
  | _ => unit
  end.

Inductive Prog (A : Type) : Type :=
| Ret (a : A)
| Raise (e : Exn)
| Vis (o : Op) (k : Res o -> Prog A).

Arguments Ret {A} a.
Arguments Raise {A} e.
Arguments Vis {A} o k.

Fixpoint bind {A B} (p : Prog A) (f : A -> Prog B) : Prog B :=
  match p with
  | Ret a => f a
  | Raise e => Raise e
  | Vis o k => Vis o (fun r => bind (k r) f)
  end.

(** [try: p except Exception as e: h e] *)
Fixpoint try_except {A} (p : Prog A) (h : Exn -> Prog A) : Prog A :=
  match p with
  | Ret a => Ret a
  | Raise e => h e
  | Vis o k => Vis o (fun r => try_except (k r) h)
  end.

Declare Scope prog_scope.
Delimit Scope prog_scope with prog.
Bind Scope prog_scope with Prog.

Notation "x <- p ;; q" := (bind p (fun x => q))
  (at level 61, p at next level, right associativity) : prog_scope.
Notation "p ;; q" := (bind p (fun _ => q))
  (at level 61, right associativity) : prog_scope.

Local Open Scope prog_scope.

Definition perform_op (o : Op) : Prog (Res o) := Vis o (fun r => Ret r).

(** A transport call: its exception, if any, is raised in the caller. *)
Definition lift_result {A} (r : Exn + A) : Prog A :=
  match r with
  | inl e => Raise e
  | inr a => Ret a
  end.

Definition get_ble : Prog BLEController := perform_op GetBle.
Definition modify_ble (f : BLEController -> BLEController) : Prog unit :=
  perform_op (ModifyBle f).
Definition bleak_available : Prog bool := perform_op BleakAvailable.
Definition set_status (txt : string) : Prog unit := perform_op (SetStatus txt).
Definition showerror (title msg : string) : Prog unit := perform_op (ShowError title msg).
Definition write_log (text : string) : Prog unit := perform_op (WriteLog text).
Definition sleep (secs : Q) : Prog unit := perform_op (Sleep secs).

Definition BleakScanner_discover (timeout : Q) : Prog (list BLEDevice) :=
  r <- perform_op (Discover timeout) ;; lift_result r.
Definition client_connect (c : Client) : Prog unit :=
  r <- perform_op (Connect c) ;; lift_result r.
Definition client_services (c : Client) : Prog (option (list Service)) :=
  r <- perform_op (GetServices c) ;; lift_result r.
Definition client_disconnect (c : Client) : Prog unit :=
  r <- perform_op (Disconnect c) ;; lift_result r.
Definition client_write_gatt_char (c : Client) (char : string) (payload : bytes)
    (response : bool) : Prog unit :=
  r <- perform_op (WriteGattChar c char payload response) ;; lift_result r.

(** [async with self._lock: body]: the lock is released on every exit. *)
Definition with_lock {A} (body : Prog A) : Prog A :=
  perform_op LockAcquire ;;
  r <- try_except body (fun e => perform_op LockRelease ;; Raise e) ;;
  perform_op LockRelease ;;
  Ret r.

(** ** [BLEController] *)

Definition runtime_error (msg : string) : Exn := mkExn RuntimeError msg.

(** Lines 84-88: the polling loop,
    [while not services and retries < 10: ...; retries += 1].
    The loop is defined by recursion on its variant [10 - retries]: each
    turn is entered under the loop's own test [retries < 10] and counts
    [retries] up, and that is what makes the variant decrease. *)
Definition poll_variant retries : retries < 10 -> 10 - (retries + 1) < 10 - retries.
Proof. lia. Qed.

Fixpoint poll_loop (c : Client) (services : option (list Service)) (retries : nat)
    (variant : Acc lt (10 - retries)) {struct variant}
    : Prog (option (list Service) * nat) :=
  if negb (truthy_services services) then
    match lt_dec retries 10 with
    | left Hlt =>
        sleep 0.1%Q ;;
        services <- client_services c ;;
        poll_loop c services (retries + 1) (Acc_inv variant (poll_variant retries Hlt))
    | right _ => Ret (services, retries)
    end
  else Ret (services, retries).

Definition poll_services (c : Client) (services : option (list Service)) (retries : nat)
    : Prog (option (list Service) * nat) :=
  poll_loop c services retries (lt_wf (10 - retries)).

Definition recursion_log_header : string :=
  "RecursionError during client.connect():" ++ String (ascii_of_nat 10) "".

Definition scan_and_connect {rt : Runtime} (name : string) (timeout : Q) : Prog bool :=
  ok <- bleak_available ;;
  if negb ok then Raise (runtime_error "bleak is not installed") else
  with_lock (
    self <- get_ble ;;
    if connected self then Ret true else
    devices <- BleakScanner_discover timeout ;;
    match find_target name devices with
    | None => Ret false
    | Some target =>
        modify_ble (set_address (Some (d_address target))) ;;
        let client := BleakClient (d_address target) in
        try_except (
          try_except (client_connect client)
            (fun re =>
               if is_RecursionError re
               then write_log recursion_log_header ;; Raise re
               else Raise re) ;;
          services <- client_services client ;;
          polled <- poll_services client services 0 ;;
          let services := fst polled in
          let chosen_char_uuid := choose_char services in
          modify_ble (set_client (Some client)) ;;
          modify_ble (set_char_uuid (Some (or_default chosen_char_uuid COMMAND_CHAR_UUID))) ;;
          modify_ble (set_connected true) ;;
          Ret true)
        (fun e =>
           try_except (client_disconnect client) (fun _ => Ret tt) ;;
           Raise e)
    end).

Definition disconnect : Prog unit :=
  with_lock (
    self <- get_ble ;;
    match client self with
    | Some c =>
        if connected self
        then try_except (client_disconnect c) (fun _ => Ret tt)
        else Ret tt
    | None => Ret tt
    end ;;
    modify_ble (set_client None) ;;
    modify_ble (set_char_uuid None) ;;
    modify_ble (set_connected false)).

(** The guard of [send]: [self.client and self.connected and self.char_uuid]. *)
Definition send_guard (self : BLEController) : bool :=
  match client self with
  | Some _ => connected self && truthy_ostr (char_uuid self)
  | None => false
  end.

Definition send (payload : bytes) (require_response : bool) : Prog unit :=
  with_lock (
    self <- get_ble ;;
    if negb (send_guard self) then Raise (runtime_error "Not connected") else
    match client self, char_uuid self with
    | Some c, Some u => client_write_gatt_char c u payload require_response
    | _, _ => Raise (runtime_error "Not connected")   (* excluded by the guard *)
    end).

(** ** [bytes.decode('utf-8', errors='replace')]

    A byte-at-a-time decoder over the table of well-formed UTF-8 sequences.
    Each maximal ill-formed prefix is replaced by U+FFFD (bytes EF BF BD);
    well-formed sequences are copied. *)

Definition byte_in (lo hi : N) (b : Byte.byte) : bool :=
  (lo <=? Byte.to_N b)%N && (Byte.to_N b <=? hi)%N.

(** For a lead byte: how many continuation bytes follow and the range allowed
    for the first of them; [None] for a byte that cannot start a sequence. *)
Definition lead_class (b : Byte.byte) : option (nat * (N * N)) :=
  let n := Byte.to_N b in
  if (n <=? 127)%N then Some (0, (0, 0)%N)
  else if (n <? 194)%N then None
  else if (n <=? 223)%N then Some (1, (128, 191)%N)
  else if (n =? 224)%N then Some (2, (160, 191)%N)
  else if (n =? 237)%N then Some (2, (128, 159)%N)
  else if (n <=? 239)%N then Some (2, (128, 191)%N)
  else if (n =? 240)%N then Some (3, (144, 191)%N)
  else if (n <=? 243)%N then Some (3, (128, 191)%N)
  else if (n =? 244)%N then Some (3, (128, 143)%N)
  else None.

Record DecodeState := mkDecode {
  dec_out : list Byte.byte;       (* decoded so far, most recent first *)
  dec_pending : list Byte.byte;   (* bytes of the sequence being read, most recent first *)
  dec_need : nat;                 (* continuation bytes still expected *)
  dec_range : N * N               (* range allowed for the next byte *)
}.

Definition replacement_rev : list Byte.byte := [Byte.xbd; Byte.xbf; Byte.xef].

Definition decode_start (out : list Byte.byte) (b : Byte.byte) : DecodeState :=
  match lead_class b with
  | None => mkDecode (replacement_rev ++ out) [] 0 (0, 0)%N
  | Some (0, _) => mkDecode (b :: out) [] 0 (0, 0)%N
  | Some (n, range) => mkDecode out [b] n range
  end.

Definition decode_feed (st : DecodeState) (b : Byte.byte) : DecodeState :=
  match dec_need st with
  | 0 => decode_start (dec_out st) b
  | S n =>
      if byte_in (fst (dec_range st)) (snd (dec_range st)) b then
        match n with
        | 0 => mkDecode (b :: dec_pending st ++ dec_out st) [] 0 (0, 0)%N
        | S _ => mkDecode (dec_out st) (b :: dec_pending st) n (128, 191)%N
        end
      else decode_start (replacement_rev ++ dec_out st) b
  end.

Definition decode_finish (st : DecodeState) : list Byte.byte :=
  match dec_need st with
  | 0 => rev (dec_out st)
  | S _ => rev (replacement_rev ++ dec_out st)
  end.

Definition decode_utf8_replace (payload : bytes) : string :=
  string_of_list_byte
    (decode_finish (fold_left decode_feed payload (mkDecode [] [] 0 (0, 0)%N))).

(** ** [App] *)

Definition _connect_and_update {rt : Runtime} : Prog unit :=
  set_status ("Scanning for " ++ DEVICE_NAME ++ "...") ;;
  try_except (
    ok <- scan_and_connect DEVICE_NAME 5.0%Q ;;
    if (ok : bool) then set_status ("Connected to " ++ DEVICE_NAME)
    else set_status ("Device '" ++ DEVICE_NAME ++ "' not found or no writable char"))
  (fun e => set_status ("Connection error: " ++ exn_msg e)).

Definition _send_command {rt : Runtime} (payload : bytes) : Prog unit :=
  self <- get_ble ;;
  (if negb (connected self) then
     ok <- try_except (scan_and_connect DEVICE_NAME 5.0%Q)
             (fun e => set_status ("Connection error: " ++ exn_msg e) ;; Raise e) ;;
     if negb ok then
       set_status ("Device '" ++ DEVICE_NAME ++ "' not found") ;;
       Raise (runtime_error "Device not connected")
     else Ret tt
   else Ret tt) ;;
  try_except (
    send payload REQUIRE_RESPONSE_ON_WRITE ;;
    let shown := decode_utf8_replace payload in
    set_status ("Sent: " ++ shown))
  (fun e => set_status ("Send failed: " ++ exn_msg e) ;; Raise e).

Definition task_log_header : string := "Task exception:" ++ String (ascii_of_nat 10) "".

(** [_schedule_coroutine]: the coroutine runs on the loop and its outcome
    stays in the future; the done callback attached here appends to the log
    when the outcome is an exception. *)
Definition _schedule_coroutine {A} (coro : Prog A) : Prog A :=
  try_except coro (fun exc => write_log task_log_header ;; Raise exc).

(** [on_button] together with the done callback it attaches to the future
    (it runs after the one of [_schedule_coroutine]). *)
Definition on_button {rt : Runtime} (name : string) : Prog unit :=
  let base := dict_get COMMANDS name in
  match base with
  | Some b =>
      if negb (truthy_str b)
      then showerror "Error" ("Unknown command: " ++ name)
      else
        let payload := encode_utf8 b in
        let future := _schedule_coroutine (_send_command payload) in
        try_except future
          (fun e => set_status ("Send error: " ++ exn_msg e))
  | None => showerror "Error" ("Unknown command: " ++ name)
  end.

(** ** The transport and the sequential interpreter *)

(** Calls that reached the outside world, oldest first. *)
Inductive Event :=
| EDiscover (timeout : Q)
| EConnect (c : Client)
| ESleep (secs : Q)
| EDisconnect (c : Client)
| EWrite (c : Client) (char : string) (payload : bytes) (response : bool)
| EShowError (title msg : string)
| ELog (text : string).

Record Adapter := mkAdapter {
  bleak_installed : bool;
  ad_discover : list Event -> Q -> Exn + list BLEDevice;
  ad_connect : list Event -> Client -> Exn + unit;
  ad_services : list Event -> Client -> Exn + option (list Service);
  ad_disconnect : list Event -> Client -> Exn + unit;
  ad_write : list Event -> Client -> string -> bytes -> bool -> Exn + unit
}.

Record Sys := mkSys {
  ble : BLEController;
  status_var : string;
  history : list Event
}.

Definition emit (e : Event) (s : Sys) : Sys :=
  mkSys (ble s) (status_var s) (history s ++ [e]).

(** One operation, as the program sees it when nothing else runs. *)
Definition exec_op (ad : Adapter) (o : Op) (s : Sys) : Res o * Sys :=
  match o as o' return Res o' * Sys with
  | GetBle => (ble s, s)
  | ModifyBle f => (tt, mkSys (f (ble s)) (status_var s) (history s))
  | BleakAvailable => (bleak_installed ad, s)
  | SetStatus txt => (tt, mkSys (ble s) txt (history s))
  | ShowError title msg => (tt, emit (EShowError title msg) s)
  | WriteLog text => (tt, emit (ELog text) s)
  | Discover timeout => (ad_discover ad (history s) timeout, emit (EDiscover timeout) s)
  | Connect c => (ad_connect ad (history s) c, emit (EConnect c) s)
  | GetServices c => (ad_services ad (history s) c, s)
  | Sleep secs => (tt, emit (ESleep secs) s)
  | Disconnect c => (ad_disconnect ad (history s) c, emit (EDisconnect c) s)
  | WriteGattChar c char payload response =>
      (ad_write ad (history s) c char payload response,
       emit (EWrite c char payload response) s)
  | LockAcquire => (tt, s)
  | LockRelease => (tt, s)
  end.

(** A coroutine run to completion with no other coroutine in flight (the
    lock is free when it starts, so acquiring it never waits). *)
Fixpoint run {A} (ad : Adapter) (p : Prog A) (s : Sys) : (Exn + A) * Sys :=
  match p with
  | Ret a => (inr a, s)
  | Raise e => (inl e, s)
  | Vis o k => let '(r, s') := exec_op ad o s in run ad (k r) s'
  end.

(** [App.__init__] before the automatic connect is scheduled. *)
Definition App_init : Sys := mkSys BLEController_init "Not connected" [].

(** ** Predicates used by the statements *)

(** The connection invariant: a handle is held exactly when the connected
    flag is set, and a connected controller has a usable write target. *)
Definition Inv (b : BLEController) : Prop :=
  (client b <> None <-> connected b = true) /\
  (connected b = true -> truthy_ostr (char_uuid b) = true).

(** Case-insensitive exact equality of a device name with the target name. *)
Definition same_name {rt : Runtime} (name : string) (d : BLEDevice) : bool :=
  match d_name d with
  | None => false
  | Some n => lower n =? lower name
  end.

(** Case-insensitive equality of a characteristic UUID with the well-known one. *)
Definition is_command_char {rt : Runtime} (ch : Characteristic) : bool :=
  lower (uuid ch) =? lower COMMAND_CHAR_UUID.

(** All characteristics, in service order then characteristic order. *)
Definition all_characteristics (svcs : list Service) : list Characteristic :=
  flat_map characteristics svcs.

(** Services as a GATT stack reports them: every characteristic carries
    its UUID (a 128-bit identifier written out, never an empty string). *)
Definition gatt_uuids (svcs : list Service) : Prop :=
  Forall (fun ch => uuid ch <> "") (all_characteristics svcs).

Definition is_write (e : Event) : bool :=
  match e with
  | EWrite _ _ _ _ => true
  | _ => false
  end.

Definition is_sleep (e : Event) : bool :=
  match e with
  | ESleep _ => true
  | _ => false
  end.

(** [n] polls of the service list: [n] sleeps of 0.1 s. *)
Definition sleeps (n : nat) : list Event := repeat (ESleep 0.1%Q) n.

(** The shapes the controller can take after a public operation started in
    [b]: untouched; only the address changed; freshly connected (which needs
    the transport library); or cleared by [disconnect]. *)
Definition shape_after (ad : Adapter) (b b' : BLEController) : Prop :=
  b' = b \/
  (exists a, b' = set_address (Some a) b) \/
  (bleak_installed ad = true /\
   exists c u a, b' = mkBLE (Some c) (Some u) (Some a) true /\ u <> "") \/
  b' = mkBLE None None (address b) false.

(** The public operations, for reachability. *)
Inductive Operation :=
| DoScanAndConnect (name : string) (timeout : Q)
| DoDisconnect
| DoSend (payload : bytes) (require_response : bool)
| DoConnectAndUpdate
| DoSendCommand (payload : bytes)
| DoButton (name : string).

Definition program {rt : Runtime} (op : Operation) : Prog unit :=
  match op with
  | DoScanAndConnect name timeout => scan_and_connect name timeout ;; Ret tt
  | DoDisconnect => disconnect
  | DoSend payload rr => send payload rr
  | DoConnectAndUpdate => _connect_and_update
  | DoSendCommand payload => _send_command payload
  | DoButton name => on_button name
  end.

(** The state after a sequence of operations run one after the other. *)
Definition run_all {rt : Runtime} (ad : Adapter) (ops : list Operation) (s : Sys) : Sys :=
  fold_left (fun s op => snd (run ad (program op) s)) ops s.

Definition reachable {rt : Runtime} (ad : Adapter) (s : Sys) : Prop :=
  exists ops, s = run_all ad ops App_init.

(** ** A sample runtime and sample transports, to exercise the statements
       on concrete runs *)

Definition lower_ascii (c : ascii) : ascii :=
  let n := nat_of_ascii c in
  if ((65 <=? n)%nat && (n <=? 90)%nat)%bool then ascii_of_nat (n + 32) else c.

(** A runtime that folds the ASCII letters, as [str.lower] does on ASCII
    text (the sample names and UUIDs are ASCII). *)
Fixpoint ascii_lower (s : string) : string :=
  match s with
  | EmptyString => EmptyString
  | String c s' => String (lower_ascii c) (ascii_lower s')
  end.

Definition ascii_runtime : Runtime := {| lower := ascii_lower |}.

Definition robot : BLEDevice := mkDevice (Some "ArduBotR4") "AA:BB:CC:DD:EE:FF".
Definition robot_twin : BLEDevice := mkDevice (Some "ARDUBOTR4") "AA:BB:CC:DD:EE:00".
Definition thermostat : BLEDevice := mkDevice (Some "thermostat") "11:22:33:44:55:66".
Definition nameless : BLEDevice := mkDevice None "00:00:00:00:00:00".

(** Two devices that advertise an empty name. *)
Definition blank_name : BLEDevice := mkDevice (Some "") "22:22:22:22:22:22".
Definition blank_twin : BLEDevice := mkDevice (Some "") "33:33:33:33:33:33".

Definition command_char : Characteristic :=
  mkChar "19b10001-e8f2-537e-4f6c-d104768a1214" ["read"; "write"].
Definition serial_char : Characteristic :=
  mkChar "0000ffe1-0000-1000-8000-00805f9b34fb" ["write-without-response"].
Definition name_char : Characteristic :=
  mkChar "00002a00-0000-1000-8000-00805f9b34fb" ["read"].

(** A transport whose answers do not depend on the history. *)
Definition const_adapter (devices : list BLEDevice) (conn : Exn + unit)
    (sv : option (list Service)) (wr : Exn + unit) : Adapter :=
  mkAdapter true
    (fun _ _ => inr devices)
    (fun _ _ => conn)
    (fun _ _ => inr sv)
    (fun _ _ => inr tt)
    (fun _ _ _ _ _ => wr).

Definition boom : Exn := mkExn BleakError "boom".

(** The robot is in range and exposes its command characteristic. *)
Definition ad_robot : Adapter :=
  const_adapter [nameless; thermostat; robot; robot_twin] (inr tt)
    (Some [mkService [name_char]; mkService [serial_char; command_char]]) (inr tt).

(** Services show up only after two polls. *)
Definition ad_late : Adapter :=
  mkAdapter true
    (fun _ _ => inr [robot])
    (fun _ _ => inr tt)
    (fun h _ => inr (if (length h <? 4)%nat then None
                     else Some [mkService [name_char; serial_char]]))
    (fun _ _ => inr tt)
    (fun _ _ _ _ _ => inr tt).

(** Only the two devices with an empty name in range. *)
Definition ad_blank_names : Adapter :=
  const_adapter [blank_name; blank_twin] (inr tt) None (inr tt).

(** Nothing but a thermostat in range. *)
Definition ad_absent : Adapter :=
  const_adapter [nameless; thermostat] (inr tt) None (inr tt).

(** The robot is found but opening the connection fails. *)
Definition ad_refused : Adapter :=
  const_adapter [robot] (inl boom) None (inr tt).

(** The robot never reports its services. *)
Definition ad_silent : Adapter :=
  const_adapter [robot] (inr tt) (Some []) (inr tt).

(** Connected, but every write is rejected. *)
Definition ad_write_fails : Adapter :=
  const_adapter [robot] (inr tt) (Some [mkService [command_char]]) (inl boom).

(** The controller once [ad_robot] has been connected. *)
Definition sys_connected : Sys :=
  mkSys (mkBLE (Some (BleakClient "AA:BB:CC:DD:EE:FF"))
               (Some "19b10001-e8f2-537e-4f6c-d104768a1214")
               (Some "AA:BB:CC:DD:EE:FF") true)
        "Connected to ardubotr4"
        [EDiscover 5.0%Q; EConnect (BleakClient "AA:BB:CC:DD:EE:FF")].

(** ** The event loop: coroutines interleaved

    All coroutines run on one event loop.  A coroutine is suspended while a
    call it awaits is in flight, and while it waits for the lock; any other
    coroutine may run in the meantime.  The model lets the loop switch
    coroutines after every single operation, which includes every switch
    the real loop can make (it only switches at an [await]). *)

(** The operations that suspend the coroutine until the transport answers. *)
Definition is_await (o : Op) : bool :=
  match o with
  | Discover _ | Connect _ | Sleep _ | Disconnect _ | WriteGattChar _ _ _ _ => true
  | _ => false
  end.

Inductive LockEffect := Acquires | Releases | NoLock.

Definition lock_effect (o : Op) : LockEffect :=
  match o with
  | LockAcquire => Acquires
  | LockRelease => Releases
  | _ => NoLock
  end.

Inductive Task :=
| Ready (p : Prog unit)       (* can perform the next operation of [p]; finished if there is none *)
| InFlight (p : Prog unit).   (* an awaited call is in flight; resumes as [p] *)

(** [lock]: the task inside [async with self._lock], if any. *)
Record Loop := mkLoop {
  sys : Sys;
  lock : option nat;
  tasks : list Task
}.

(** The list [l] with its [i]-th element replaced by [x]. *)
Fixpoint update {A} (i : nat) (x : A) (l : list A) : list A :=
  match l, i with
  | [], _ => []
  | _ :: l', 0 => x :: l'
  | y :: l', S i' => y :: update i' x l'
  end.

Definition set_task (i : nat) (t : Task) (ts : list Task) : list Task := update i t ts.

(** Task [i] takes one step; [None] when it cannot (finished, or waiting
    for a lock that is held). *)
Definition step (ad : Adapter) (i : nat) (L : Loop) : option Loop :=
  match nth_error (tasks L) i with
  | None => None
  | Some (InFlight p) => Some (mkLoop (sys L) (lock L) (set_task i (Ready p) (tasks L)))
  | Some (Ready (Ret _)) => None
  | Some (Ready (Raise _)) => None
  | Some (Ready (Vis o k)) =>
      let '(r, s') := exec_op ad o (sys L) in
      match lock_effect o with
      | Acquires =>
          match lock L with
          | Some _ => None
          | None => Some (mkLoop s' (Some i) (set_task i (Ready (k r)) (tasks L)))
          end
      | Releases => Some (mkLoop s' None (set_task i (Ready (k r)) (tasks L)))
      | NoLock =>
          Some (mkLoop s' (lock L)
                  (set_task i (if is_await o then InFlight (k r) else Ready (k r)) (tasks L)))
      end
  end.

(** The loop follows a schedule: the list of the tasks that step, in order. *)
Fixpoint exec (ad : Adapter) (sched : list nat) (L : Loop) : option Loop :=
  match sched with
  | [] => Some L
  | i :: sched' =>
      match step ad i L with
      | Some L' => exec ad sched' L'
      | None => None
      end
  end.

(** Submitting coroutines to an idle loop. *)
Definition submit (s : Sys) (ps : list (Prog unit)) : Loop :=
  mkLoop s None (map Ready ps).

Definition finished (t : Task) : bool :=
  match t with
  | Ready (Ret _) => true
  | Ready (Raise _) => true
  | _ => false
  end.

Definition in_flight (t : Task) : bool :=
  match t with
  | InFlight _ => true
  | Ready _ => false
  end.

(** Events of the transport proper (everything but the message box and the
    log file). *)
Definition is_transport (e : Event) : bool :=
  match e with
  | EShowError _ _ | ELog _ => false
  | _ => true
  end.

(** *** Lock discipline of a coroutine

    [Outside p]: [p] does not hold the lock; until it acquires it, it only
    reads the controller, sets the status, shows a message box or writes
    the log.  [Inside p]: [p] holds the lock and gives it back before it
    ends or acquires it again. *)

Definition is_local (o : Op) : bool :=
  match o with
  | GetBle | BleakAvailable | SetStatus _ | ShowError _ _ | WriteLog _ => true
  | _ => false
  end.

Inductive Locking {A : Type} : bool -> Prog A -> Prop :=
| L_ret a : Locking false (Ret a)
| L_raise e : Locking false (Raise e)
| L_local o k :
    is_local o = true -> (forall r, Locking false (k r)) -> Locking false (Vis o k)
| L_acquire k : Locking true (k tt) -> Locking false (Vis LockAcquire k)
| L_op o k :
    lock_effect o = NoLock -> (forall r, Locking true (k r)) -> Locking true (Vis o k)
| L_release k : Locking false (k tt) -> Locking true (Vis LockRelease k).

Definition Outside {A} (p : Prog A) : Prop := Locking false p.
Definition Inside {A} (p : Prog A) : Prop := Locking true p.

(** A block that never touches the lock (the body of an [async with]). *)
Inductive LockFree {A : Type} : Prog A -> Prop :=
| LF_ret a : LockFree (Ret a)
| LF_raise e : LockFree (Raise e)
| LF_op o k : lock_effect o = NoLock -> (forall r, LockFree (k r)) -> LockFree (Vis o k).

Definition task_prog (t : Task) : Prog unit :=
  match t with
  | Ready p => p
  | InFlight p => p
  end.

(** What a step may do when its task does not hold the lock: the controller
    is untouched and no transport call is added to the history. *)
Definition lock_free_step (L L' : Loop) : Prop :=
  ble (sys L') = ble (sys L) /\
  filter is_transport (history (sys L')) = filter is_transport (history (sys L)).

(** Whether task [i] is the lock holder. *)
Definition holder (lk : option nat) (i : nat) : bool :=
  match lk with
  | Some h => Nat.eqb h i
  | None => false
  end.

Definition holds (L : Loop) (i : nat) : bool := holder (lock L) i.

(** The lock discipline of a whole loop: the holder is inside, every other
    task is outside and has no call in flight. *)
Definition disciplined (L : Loop) : Prop :=
  forall i t, nth_error (tasks L) i = Some t ->
    if holds L i
    then Inside (task_prog t)
    else Outside (task_prog t) /\ in_flight t = false.

(** The outcome of a coroutine, as the finished program it leaves behind. *)
Definition outcome (r : Exn + unit) : Prog unit :=
  match r with
  | inl e => Raise e
  | inr a => Ret a
  end.

(** Coroutines run one after the other, each to completion. *)
Definition run_each (ad : Adapter) (ps : list (Prog unit)) (s : Sys) : Sys :=
  fold_left (fun s p => snd (run ad p s)) ps s.

(** The lock is held by one of the tasks of the loop. *)
Definition lock_valid (L : Loop) : Prop :=
  forall h, lock L = Some h -> h < length (tasks L).

(** *** Concurrent sends: where a [_send_command] coroutine stands

    The protocol a [_send_command pl] coroutine follows when the robot is
    in range and accepts the connection.  Each phase names the operation
    the coroutine performs next. *)

Inductive Phase :=
| PStart (pl : bytes)                           (* not yet in its connect section *)
| PEnter (pl : bytes)                           (* in [scan_and_connect], lock just taken *)
| PScan (pl : bytes)                            (* about to scan *)
| PAddr (c : Client) (pl : bytes)               (* scanned; about to store the address *)
| POpen (c : Client) (pl : bytes)               (* about to open the connection *)
| PServ (c : Client) (n : nat) (pl : bytes)     (* about to read the services, [n] sleeps done *)
| PPoll (c : Client) (n : nat) (pl : bytes)     (* about to sleep again or to finalize *)
| PChar (c : Client) (n : nat) (pl : bytes)     (* handle stored; about to store the write target *)
| PFlag (c : Client) (u : string) (n : nat) (pl : bytes)  (* about to set the connected flag *)
| PLeave (pl : bytes)                           (* about to leave the connect section *)
| PSend (pl : bytes)                            (* about to enter [send] *)
| PGuard (pl : bytes)                           (* in [send], lock just taken *)
| PWrite (c : Client) (u : string) (pl : bytes) (* about to write *)
| PWritten (pl : bytes)                         (* written; about to leave [send] *)
| PDone (pl : bytes).                           (* only the status report is left *)

Inductive Follows {rt : Runtime} : Phase -> Prog unit -> Prop :=
| F_start_read pl k :
    (forall self, Follows (if connected self then PSend pl else PStart pl) (k self)) ->
    Follows (PStart pl) (Vis GetBle k)
| F_start_bleak pl k :
    Follows (PStart pl) (k true) -> Follows (PStart pl) (Vis BleakAvailable k)
| F_start_acquire pl k :
    Follows (PEnter pl) (k tt) -> Follows (PStart pl) (Vis LockAcquire k)
| F_enter pl k :
    (forall self, Follows (if connected self then PLeave pl else PScan pl) (k self)) ->
    Follows (PEnter pl) (Vis GetBle k)
| F_scan pl k :
    (forall devices target,
       find_target DEVICE_NAME devices = Some target ->
       Follows (PAddr (BleakClient (d_address target)) pl) (k (inr devices))) ->
    Follows (PScan pl) (Vis (Discover 5.0%Q) k)
| F_addr c a pl k :
    Follows (POpen c pl) (k tt) ->
    Follows (PAddr c pl) (Vis (ModifyBle (set_address a)) k)
| F_open c pl k :
    Follows (PServ c 0 pl) (k (inr tt)) -> Follows (POpen c pl) (Vis (Connect c) k)
| F_serv c n pl k :
    (forall sv, Follows (PPoll c n pl) (k (inr sv))) ->
    Follows (PServ c n pl) (Vis (GetServices c) k)
| F_poll_sleep c n pl k :
    n < 10 ->
    Follows (PServ c (S n) pl) (k tt) ->
    Follows (PPoll c n pl) (Vis (Sleep 0.1%Q) k)
| F_poll_done c n pl k :
    Follows (PChar c n pl) (k tt) ->
    Follows (PPoll c n pl) (Vis (ModifyBle (set_client (Some c))) k)
| F_char c u n pl k :
    u <> "" ->
    Follows (PFlag c u n pl) (k tt) ->
    Follows (PChar c n pl) (Vis (ModifyBle (set_char_uuid (Some u))) k)
| F_flag c u n pl k :
    Follows (PLeave pl) (k tt) ->
    Follows (PFlag c u n pl) (Vis (ModifyBle (set_connected true)) k)
| F_leave pl k :
    Follows (PSend pl) (k tt) -> Follows (PLeave pl) (Vis LockRelease k)
| F_send pl k :
    Follows (PGuard pl) (k tt) -> Follows (PSend pl) (Vis LockAcquire k)
| F_guard pl k :
    (forall self c u,
       connected self = true -> client self = Some c -> char_uuid self = Some u ->
       u <> "" ->
       Follows (PWrite c u pl) (k self)) ->
    Follows (PGuard pl) (Vis GetBle k)
| F_write c u pl k :
    (forall r, Follows (PWritten pl) (k r)) ->
    Follows (PWrite c u pl) (Vis (WriteGattChar c u pl true) k)
| F_written pl k :
    Follows (PDone pl) (k tt) -> Follows (PWritten pl) (Vis LockRelease k)
| F_done_status pl txt k :
    Follows (PDone pl) (k tt) -> Follows (PDone pl) (Vis (SetStatus txt) k)
| F_done_ret pl a : Follows (PDone pl) (Ret a)
| F_done_raise pl e : Follows (PDone pl) (Raise e).

Definition payload_of (ph : Phase) : bytes :=
  match ph with
  | PStart pl | PEnter pl | PScan pl | PAddr _ pl | POpen _ pl | PServ _ _ pl
  | PPoll _ _ pl | PChar _ _ pl | PFlag _ _ _ pl | PLeave pl | PSend pl | PGuard pl
  | PWrite _ _ pl | PWritten pl | PDone pl => pl
  end.

(** Phases in which the coroutine holds the lock. *)
Definition inside_phase (ph : Phase) : bool :=
  match ph with
  | PStart _ | PSend _ | PDone _ => false
  | _ => true
  end.

(** Phases of the coroutine that is establishing the connection. *)
Definition connecting (ph : Phase) : bool :=
  match ph with
  | PScan _ | PAddr _ _ | POpen _ _ | PServ _ _ _ | PPoll _ _ _ | PChar _ _ _
  | PFlag _ _ _ _ => true
  | _ => false
  end.

(** The write a coroutine has issued, once it has. *)
Definition written (c : Client) (u : string) (ph : Phase) : list Event :=
  match ph with
  | PWritten pl | PDone pl => [EWrite c u pl true]
  | _ => []
  end.

(** The calls of one connect: the scan, the open and [n] polls. *)
Definition opening (c : Client) (n : nat) : list Event :=
  ([EDiscover 5.0%Q; EConnect c] ++ sleeps n)%list.

(** What the state looks like to a coroutine in a given phase; [h0] is the
    history before the sends were submitted. *)
Definition phase_ok (h0 : list Event) (s : Sys) (ph : Phase) : Prop :=
  match ph with
  | PStart _ | PEnter _ => True
  | PScan _ => connected (ble s) = false /\ history s = h0
  | PAddr _ _ | POpen _ _ =>
      connected (ble s) = false /\ history s = (h0 ++ [EDiscover 5.0%Q])%list
  | PServ c n _ | PPoll c n _ =>
      connected (ble s) = false /\ n <= 10 /\ history s = (h0 ++ opening c n)%list
  | PChar c n _ =>
      connected (ble s) = false /\ n <= 10 /\ history s = (h0 ++ opening c n)%list /\
      client (ble s) = Some c
  | PFlag c u n _ =>
      connected (ble s) = false /\ n <= 10 /\ history s = (h0 ++ opening c n)%list /\
      client (ble s) = Some c /\ char_uuid (ble s) = Some u /\ u <> ""
  | PWrite c u _ =>
      connected (ble s) = true /\ client (ble s) = Some c /\ char_uuid (ble s) = Some u
  | PLeave _ | PSend _ | PGuard _ | PWritten _ | PDone _ => connected (ble s) = true
  end.

(** The loop and the phases of its coroutines fit together. *)
Record coherent {rt : Runtime} (h0 : list Event) (L : Loop) (phs : list Phase) : Prop := mkCoherent {
  co_length : length phs = length (tasks L);
  co_follows : forall j ph t,
    nth_error phs j = Some ph -> nth_error (tasks L) j = Some t ->
    Follows ph (task_prog t);
  co_lock : forall j ph, nth_error phs j = Some ph -> inside_phase ph = holds L j;
  co_phase : forall j ph, nth_error phs j = Some ph -> phase_ok h0 (sys L) ph;
  co_idle :
    connected (ble (sys L)) = false ->
    (forall j ph, nth_error phs j = Some ph -> connecting ph = false) ->
    history (sys L) = h0;
  co_conn :
    connected (ble (sys L)) = true ->
    exists c u n W,
      client (ble (sys L)) = Some c /\ char_uuid (ble (sys L)) = Some u /\ u <> "" /\
      n <= 10 /\
      history (sys L) = (h0 ++ opening c n ++ W)%list /\
      Permutation W (flat_map (written c u) phs)
}.

(** The robot is in range and lets itself be connected: the library is
    installed, every scan finds the device, every open succeeds and reading
    the services never raises. *)
Definition cooperative {rt : Runtime} (ad : Adapter) : Prop :=
  bleak_installed ad = true /\
  (forall h t, exists devices target,
     ad_discover ad h t = inr devices /\ find_target DEVICE_NAME devices = Some target) /\
  (forall h c, ad_connect ad h c = inr tt) /\
  (forall h c, exists sv, ad_services ad h c = inr sv).

(** A schedule that interleaves two sends on [ad_late]: both read the flag
    as not connected, the first connects while the second waits for the
    lock, and the writes follow one after the other. *)
Definition sched_interleaved : list nat :=
  [0; 1; 0; 1; 0; 0; 0; 0; 0; 0; 0; 0; 0; 0; 0; 0; 0; 0; 0; 0; 0; 0; 1; 1; 1;
   0; 0; 0; 0; 0; 1; 0; 1; 1; 1; 1; 1].

(** ** Further sample transports *)


(** The connection drops while the services are polled. *)
Definition ad_drops : Adapter :=
  mkAdapter true
    (fun _ _ => inr [robot])
    (fun _ _ => inr tt)
    (fun h _ => if (length h <? 4)%nat then inr None else inl boom)
    (fun _ _ => inr tt)
    (fun _ _ _ _ _ => inr tt).

(** Only devices without a usable name in range. *)
Definition ad_unnamed : Adapter :=
  const_adapter [nameless; blank_name] (inr tt) None (inr tt).

(** The keys of [COMMANDS]. *)
Definition command_names : list string := map fst COMMANDS.

(** A byte of the ASCII range. *)
Definition is_ascii_byte (b : Byte.byte) : bool := (Byte.to_N b <=? 127)%N.

(** The stored address names the device the live handle is bound to. *)
Definition bound (b : BLEController) : Prop :=
  connected b = true ->
  exists a, client b = Some (BleakClient a) /\ address b = Some a.

(** ** What a coroutine lets reach the outside world *)

(** The events one operation appends to the history. *)
Definition op_events (o : Op) : list Event :=
  match o with
  | ShowError title msg => [EShowError title msg]
  | WriteLog text => [ELog text]
  | Discover timeout => [EDiscover timeout]
  | Connect c => [EConnect c]
  | Sleep secs => [ESleep secs]
  | Disconnect c => [EDisconnect c]
  | WriteGattChar c char payload response => [EWrite c char payload response]
  | _ => []
  end.

(** [Emits Q p]: whatever the answers it gets, every event [p] produces
    satisfies [Q]. *)
Inductive Emits {A : Type} (Q : Event -> Prop) : Prog A -> Prop :=
| E_ret a : Emits Q (Ret a)
| E_raise e : Emits Q (Raise e)
| E_vis o k : Forall Q (op_events o) -> (forall r, Emits Q (k r)) -> Emits Q (Vis o k).

(** The calls of one [scan_and_connect]: a scan with the given timeout,
    opening and tearing down a connection, sleeps of 0.1 s, and the log. *)
Definition connect_event (timeout : Q) (e : Event) : Prop :=
  match e with
  | EDiscover t => t = timeout
  | ESleep secs => secs = 0.1%Q
  | EConnect _ | EDisconnect _ | ELog _ => True
  | EWrite _ _ _ _ | EShowError _ _ => False
  end.

(** ** The buttons of [_build_ui] *)

Inductive Button :=
| btn_forward | btn_back | btn_left | btn_right | btn_switch
| btn_connect | btn_disconnect.

(** The [command=] callback of each button, as the coroutine a press runs. *)
Definition button_command {rt : Runtime} (b : Button) : Prog unit :=
  match b with
  | btn_forward => on_button "forward"
  | btn_back => on_button "back"
  | btn_left => on_button "left"
  | btn_right => on_button "right"
  | btn_switch => on_button "switch"
  | btn_connect => _schedule_coroutine _connect_and_update
  | btn_disconnect => _schedule_coroutine disconnect
  end.

(** [on_close], once the user has confirmed: the [disconnect] it schedules,
    whose failure it ignores. *)
Definition on_close : Prog unit :=
  try_except (_schedule_coroutine disconnect) (fun _ => Ret tt).

(** What the user can do to the running application: press a button, or
    close the window and confirm, which schedules a [disconnect] before the
    loop is stopped. *)
Inductive Action :=
| Press (b : Button)
| Close.

Definition action_coroutine {rt : Runtime} (a : Action) : Prog unit :=
  match a with
  | Press b => button_command b
  | Close => on_close
  end.

(** A session of the application: the automatic connect scheduled by
    [App.__init__], then one coroutine per action of the user. *)
Definition session {rt : Runtime} (actions : list Action) : list (Prog unit) :=
  _schedule_coroutine _connect_and_update :: map action_coroutine actions.

(** What a session may send to the outside world: scans of 5 s, sleeps of
    0.1 s, and writes that carry a command word and ask for the
    acknowledgement; never the error dialog. *)
Definition session_event (e : Event) : Prop :=
  match e with
  | EDiscover t => t = 5.0%Q
  | ESleep secs => secs = 0.1%Q
  | EWrite _ _ payload response =>
      response = true /\ exists name, In name command_names /\ payload = encode_utf8 name
  | EShowError _ _ => False
  | EConnect _ | EDisconnect _ | ELog _ => True
  end.

(** ** Sample schedules *)

(** A send and a disconnect taking turns whenever both can step. *)
Definition sched_send_disconnect : list nat :=
  [0; 1; 0; 1; 1; 1; 1; 1; 0; 0; 0; 0; 0; 0; 0; 0; 0; 0; 0; 0; 0; 0; 0; 0; 0; 0].

(** A session of four coroutines taking turns whenever they can step. *)
Definition sched_session : list nat :=
  [0; 1; 2; 3; 0; 1; 2; 3; 2; 2; 2; 2; 3; 3; 3; 3; 3; 3; 3; 3; 3; 3; 3; 3; 3; 3; 3; 3;
   3; 3; 0; 0; 0; 1; 0; 1; 1; 3; 3; 3; 3; 3; 1; 3; 1; 1; 1; 1; 1].

(** ** The controller as the lock holder sees it

    [Tracked None p]: [p] is outside the lock.  [Tracked (Some b) p]: [p]
    holds the lock and the controller is [b]; it changes only by [p]'s own
    assignments.  A write goes to the handle and the write target that [b]
    holds, with the connected flag set, and the lock is given back only
    with the connection invariant in place. *)

(** Operations that neither read nor assign the controller, nor write to
    the device, nor touch the lock. *)
Definition is_quiet (o : Op) : bool :=
  match o with
  | BleakAvailable | SetStatus _ | ShowError _ _ | WriteLog _ | Discover _ | Connect _
  | GetServices _ | Sleep _ | Disconnect _ => true
  | _ => false
  end.

Inductive Tracked {A : Type} : option BLEController -> Prog A -> Prop :=
| T_ret a : Tracked None (Ret a)
| T_raise e : Tracked None (Raise e)
| T_local o k :
    is_local o = true -> (forall r, Tracked None (k r)) -> Tracked None (Vis o k)
| T_acquire k :
    (forall b, Inv b -> Tracked (Some b) (k tt)) -> Tracked None (Vis LockAcquire k)
| T_get b k : Tracked (Some b) (k b) -> Tracked (Some b) (Vis GetBle k)
| T_modify b f k : Tracked (Some (f b)) (k tt) -> Tracked (Some b) (Vis (ModifyBle f) k)
| T_write b c u payload response k :
    connected b = true -> client b = Some c -> char_uuid b = Some u -> u <> "" ->
    (forall r, Tracked (Some b) (k r)) ->
    Tracked (Some b) (Vis (WriteGattChar c u payload response) k)
| T_quiet b o k :
    is_quiet o = true -> (forall r, Tracked (Some b) (k r)) -> Tracked (Some b) (Vis o k)
| T_release b k : Inv b -> Tracked None (k tt) -> Tracked (Some b) (Vis LockRelease k).

(** The loop and the controller fit together: the invariant holds while the
    lock is free, and the holder's view of the controller is the controller. *)
Definition tracked (L : Loop) : Prop :=
  (lock L = None -> Inv (ble (sys L))) /\
  forall i t, nth_error (tasks L) i = Some t ->
    Tracked (if holds L i then Some (ble (sys L)) else None) (task_prog t).

(** * Proofs

    Statements and proofs follow the order of the model: the sequential
    interpreter first, then the event loop. *)

Local Open Scope string_scope.
Local Open Scope nat_scope.
Local Open Scope list_scope.
Local Open Scope prog_scope.

(** * Laws of the sequential interpreter *)

Section RunLaws.
Context {rt : Runtime}.
Variable ad : Adapter.

Lemma run_bind A B (p : Prog A) (f : A -> Prog B) s :
  run ad (bind p f) s =
  match run ad p s with
  | (inl e, s') => (inl e, s')
  | (inr a, s') => run ad (f a) s'
  end.
Proof.
  revert s; induction p as [a|e|o k IH]; intros s; simpl; auto.
  destruct (exec_op ad o s) as [r s']. apply IH.
Qed.

Lemma run_try_except A (p : Prog A) (h : Exn -> Prog A) s :
  run ad (try_except p h) s =
  match run ad p s with
  | (inl e, s') => run ad (h e) s'
  | (inr a, s') => (inr a, s')
  end.
Proof.
  revert s; induction p as [a|e|o k IH]; intros s; simpl; auto.
  destruct (exec_op ad o s) as [r s']. apply IH.
Qed.

Lemma run_perform_op o s :
  run ad (perform_op o) s = (inr (fst (exec_op ad o s)), snd (exec_op ad o s)).
Proof. unfold perform_op; simpl. destruct (exec_op ad o s); reflexivity. Qed.

Lemma run_with_lock A (body : Prog A) s :
  run ad (with_lock body) s = run ad body s.
Proof.
  unfold with_lock. rewrite run_bind, run_perform_op; simpl.
  rewrite run_bind, run_try_except.
  destruct (run ad body s) as [[e|a] s']; simpl; reflexivity.
Qed.
End RunLaws.

(** * The polling loop *)

Ltac run_cbn :=
  cbn [run exec_op fst snd emit lift_result perform_op bind try_except
       get_ble modify_ble bleak_available set_status showerror write_log sleep
       BleakScanner_discover client_connect client_services client_disconnect
       client_write_gatt_char negb andb orb
       ble status_var history client char_uuid address connected
       set_client set_char_uuid set_address set_connected].

Ltac run_simpl :=
  repeat (rewrite ?run_bind, ?run_try_except, ?run_with_lock, ?run_perform_op; run_cbn).

Section Poll.
Context {rt : Runtime}.
Variable ad : Adapter.

Lemma sleeps_snoc n : sleeps n ++ [ESleep 0.1%Q] = sleeps (S n).
Proof.
  unfold sleeps. induction n; simpl; auto. now rewrite IHn.
Qed.

Lemma sleeps_shift (h : list Event) n :
  (h ++ [ESleep 0.1%Q]) ++ sleeps n = h ++ sleeps (S n).
Proof. now rewrite <- app_assoc. Qed.

(** What one run of the loop does: it only sleeps, at most [10 - retries]
    times, and touches neither the controller nor the status; it stops with
    a truthy service list or with the retries used up.  When the value it
    starts with is the one the adapter reports at that moment, every value
    it tests is the adapter's answer after that many sleeps: all the
    answers before the last were falsy, and the last one is handed back. *)
Lemma poll_loop_run c k :
  forall r variant sv s,
    10 - r = k ->
    exists n res,
      run ad (poll_loop c sv r variant) s
        = (res, mkSys (ble s) (status_var s) (history s ++ sleeps n)) /\
      (r <= 10 -> n + r <= 10) /\
      match res with
      | inl _ => True
      | inr (sv', r') => r' = r + n /\ (truthy_services sv' = true \/ 10 <= r')
      end /\
      (ad_services ad (history s) c = inr sv ->
       (forall j, j < n ->
          exists v, ad_services ad (history s ++ sleeps j) c = inr v /\
                    truthy_services v = false) /\
       match res with
       | inl e => ad_services ad (history s ++ sleeps n) c = inl e
       | inr (sv', _) => ad_services ad (history s ++ sleeps n) c = inr sv'
       end).
Proof.
  assert (Hstop : forall sv r (s : Sys),
            truthy_services sv = true \/ 10 <= r ->
            exists n res,
              (inr (sv, r) : Exn + _, s)
                = (res, mkSys (ble s) (status_var s) (history s ++ sleeps n)) /\
              (r <= 10 -> n + r <= 10) /\
              match res with
              | inl _ => True
              | inr (sv', r') => r' = r + n /\ (truthy_services sv' = true \/ 10 <= r')
              end /\
              (ad_services ad (history s) c = inr sv ->
               (forall j, j < n ->
                  exists v, ad_services ad (history s ++ sleeps j) c = inr v /\
                            truthy_services v = false) /\
               match res with
               | inl e => ad_services ad (history s ++ sleeps n) c = inl e
               | inr (sv', _) => ad_services ad (history s ++ sleeps n) c = inr sv'
               end)).
  { intros sv r s Hexit. exists 0, (inr (sv, r)). cbn [sleeps repeat].
    rewrite app_nil_r. split; [destruct s; reflexivity|].
    split; [lia|]. split; [split; [lia|exact Hexit]|].
    intros Hsv. split; [intros j Hj; lia|exact Hsv]. }
  induction k as [|k IH]; intros r variant sv s Hk;
    destruct variant as [h]; cbn [poll_loop];
    destruct (truthy_services sv) eqn:Ht; cbn [negb run];
    try (apply Hstop; now left);
    destruct (lt_dec r 10) as [Hlt|Hge]; cbn [run];
    try (apply Hstop; right; lia); try lia.
  run_simpl.
  destruct (ad_services ad (history s ++ [ESleep 0.1%Q]) c) as [e|sv1] eqn:Es; run_cbn.
  - exists 1, (inl e). split; [reflexivity|]. split; [lia|]. split; [exact I|].
    intros Hsv. split; [|exact Es].
    intros j Hj. assert (j = 0) as -> by lia. cbn [sleeps repeat]. rewrite app_nil_r. eauto.
  - match goal with
    | |- context [run ad (poll_loop c sv1 (r + 1) ?v) ?s1] =>
        destruct (IH (r + 1) v sv1 s1 ltac:(lia)) as (n & res & Hrun & Hr & Hres & Hreads)
    end.
    exists (S n), res. rewrite Hrun. cbn [ble status_var history emit].
    rewrite sleeps_shift. split; [reflexivity|]. split; [lia|]. split.
    + destruct res as [e|[sv' r']]; [exact I|]. destruct Hres as [-> Hexit].
      split; [lia|exact Hexit].
    + intros Hsv. destruct (Hreads Es) as [Hfalsy Hlast].
      cbn [history emit] in Hfalsy, Hlast. split.
      * intros [|j] Hj.
        -- cbn [sleeps repeat]. rewrite app_nil_r. eauto.
        -- destruct (Hfalsy j ltac:(lia)) as (v & Hv & Hf).
           rewrite sleeps_shift in Hv. eauto.
      * rewrite sleeps_shift in Hlast. exact Hlast.
Qed.

Lemma poll_services_run c sv r s :
  exists n res,
    run ad (poll_services c sv r) s
      = (res, mkSys (ble s) (status_var s) (history s ++ sleeps n)) /\
    (r <= 10 -> n + r <= 10) /\
    match res with
    | inl _ => True
    | inr (sv', r') => r' = r + n /\ (truthy_services sv' = true \/ 10 <= r')
    end /\
    (ad_services ad (history s) c = inr sv ->
     (forall j, j < n ->
        exists v, ad_services ad (history s ++ sleeps j) c = inr v /\
                  truthy_services v = false) /\
     match res with
     | inl e => ad_services ad (history s ++ sleeps n) c = inl e
     | inr (sv', _) => ad_services ad (history s ++ sleeps n) c = inr sv'
     end).
Proof. unfold poll_services. now apply (poll_loop_run c (10 - r)). Qed.

(** With an adapter that never reports services the loop uses up all its
    retries. *)
Lemma poll_loop_never c :
  (forall h, exists v, ad_services ad h c = inr v /\ truthy_services v = false) ->
  forall k r variant sv s,
    truthy_services sv = false -> r + k = 10 ->
    exists sv',
      run ad (poll_loop c sv r variant) s
        = (inr (sv', 10), mkSys (ble s) (status_var s) (history s ++ sleeps k)) /\
      truthy_services sv' = false.
Proof.
  intros Hnever. induction k as [|k IH]; intros r variant sv s Hsv Hr;
    destruct variant as [h]; cbn [poll_loop]; rewrite Hsv; cbn [negb];
    destruct (lt_dec r 10) as [Hlt|Hge]; try lia.
  - exists sv. cbn [run sleeps repeat]. rewrite app_nil_r.
    replace r with 10 by lia. destruct s; auto.
  - run_simpl.
    destruct (Hnever (history s ++ [ESleep 0.1%Q])) as (v & Hv & Hf). rewrite Hv. run_cbn.
    match goal with
    | |- context [run ad (poll_loop c v (r + 1) ?w) ?s1] =>
        destruct (IH (r + 1) w v s1 Hf ltac:(lia)) as (sv' & Hrun & Hf')
    end.
    exists sv'. rewrite Hrun. cbn [ble status_var history emit].
    rewrite sleeps_shift. auto.
Qed.

Lemma poll_services_never c :
  (forall h, exists v, ad_services ad h c = inr v /\ truthy_services v = false) ->
  forall sv s,
    truthy_services sv = false ->
    exists sv',
      run ad (poll_services c sv 0) s
        = (inr (sv', 10), mkSys (ble s) (status_var s) (history s ++ sleeps 10)) /\
      truthy_services sv' = false.
Proof.
  intros Hnever sv s Hsv. unfold poll_services.
  now apply (poll_loop_never c Hnever 10 0).
Qed.
End Poll.

(** * Closed forms of the controller coroutines *)

Section Controller.
Context {rt : Runtime}.
Variable ad : Adapter.

(** The state at the end of a successful connect. *)
Lemma scan_and_connect_run name timeout s :
  run ad (scan_and_connect name timeout) s =
  if negb (bleak_installed ad) then (inl (runtime_error "bleak is not installed"), s)
  else if connected (ble s) then (inr true, s)
  else
    let s1 := emit (EDiscover timeout) s in
    match ad_discover ad (history s) timeout with
    | inl e => (inl e, s1)
    | inr devices =>
        match find_target name devices with
        | None => (inr false, s1)
        | Some target =>
            let c := BleakClient (d_address target) in
            let s2 := emit (EConnect c)
                        (mkSys (set_address (Some (d_address target)) (ble s1))
                               (status_var s1) (history s1)) in
            match ad_connect ad (history s1) c with
            | inl e =>
                (inl e,
                 emit (EDisconnect c)
                   (if is_RecursionError e then emit (ELog recursion_log_header) s2 else s2))
            | inr _ =>
                match ad_services ad (history s2) c with
                | inl e => (inl e, emit (EDisconnect c) s2)
                | inr sv =>
                    match run ad (poll_services c sv 0) s2 with
                    | (inl e, s3) => (inl e, emit (EDisconnect c) s3)
                    | (inr polled, s3) =>
                        (inr true,
                         mkSys (set_connected true
                                  (set_char_uuid
                                     (Some (or_default (choose_char (fst polled))
                                                       COMMAND_CHAR_UUID))
                                     (set_client (Some c) (ble s3))))
                               (status_var s3) (history s3))
                    end
                end
            end
        end
    end.
Proof.
  unfold scan_and_connect. run_simpl.
  destruct (bleak_installed ad); run_cbn; [|reflexivity].
  run_simpl. destruct (connected (ble s)); run_cbn; [reflexivity|].
  run_simpl. destruct (ad_discover ad (history s) timeout) as [e|devices]; run_cbn;
    [reflexivity|].
  destruct (find_target name devices) as [target|]; run_cbn; [|reflexivity].
  run_simpl.
  destruct (ad_connect ad _ _) as [e|[]]; run_cbn.
  - destruct (is_RecursionError e); run_cbn; run_simpl;
      destruct (ad_disconnect ad _ _); reflexivity.
  - run_simpl. destruct (ad_services ad _ _) as [e|sv]; run_cbn.
    + run_simpl. destruct (ad_disconnect ad _ _); reflexivity.
    + run_simpl.
      match goal with
      | |- context [run ad (poll_services ?c ?v ?r) ?s0] =>
          destruct (run ad (poll_services c v r) s0) as [[e|polled] s3]; run_cbn
      end.
      * run_simpl. destruct (ad_disconnect ad _ _); reflexivity.
      * reflexivity.
Qed.

Lemma disconnect_run s :
  run ad disconnect s =
  (inr tt,
   mkSys (mkBLE None None (address (ble s)) false) (status_var s)
         (history s ++
          match client (ble s) with
          | Some c => if connected (ble s) then [EDisconnect c] else []
          | None => []
          end)).
Proof.
  unfold disconnect. run_simpl.
  destruct s as [[cl cu a co] st h]; run_cbn.
  destruct cl as [c|]; run_cbn; [destruct co; run_cbn|]; run_simpl;
    rewrite ?app_nil_r; try reflexivity.
  destruct (ad_disconnect ad h c); reflexivity.
Qed.

Lemma send_run payload rr s :
  run ad (send payload rr) s =
  match client (ble s), char_uuid (ble s) with
  | Some c, Some u =>
      if connected (ble s) && truthy_str u
      then (match ad_write ad (history s) c u payload rr with
            | inl e => inl e
            | inr _ => inr tt
            end, emit (EWrite c u payload rr) s)
      else (inl (runtime_error "Not connected"), s)
  | _, _ => (inl (runtime_error "Not connected"), s)
  end.
Proof.
  unfold send, send_guard. run_simpl.
  destruct (client (ble s)) as [c|]; run_cbn; [|reflexivity].
  destruct (char_uuid (ble s)) as [u|]; run_cbn; cbn [truthy_ostr].
  - destruct (connected (ble s) && truthy_str u); run_cbn; [|reflexivity].
    run_simpl. destruct (ad_write ad _ _ _ _ _) as [e|[]]; reflexivity.
  - rewrite andb_false_r; reflexivity.
Qed.
End Controller.

(** * Characteristic selection *)

Section Selection.
Context {rt : Runtime}.

Lemma truthy_str_true s : truthy_str s = true <-> s <> "".
Proof.
  unfold truthy_str. rewrite negb_true_iff. apply String.eqb_neq.
Qed.

Lemma find_app_first A (f : A -> bool) l1 l2 :
  find f (l1 ++ l2) =
  match find f l1 with
  | Some x => Some x
  | None => find f l2
  end.
Proof. induction l1 as [|a l1 IH]; simpl; auto. destruct (f a); auto. Qed.

Lemma exact_inner_find chs chosen :
  exact_inner (lower COMMAND_CHAR_UUID) chs chosen =
  match find is_command_char chs with
  | Some ch => Some (uuid ch)
  | None => chosen
  end.
Proof.
  induction chs as [|ch chs IH]; cbn [exact_inner find]; auto.
  unfold is_command_char at 1. destruct (String.eqb (lower (uuid ch)) _); auto.
Qed.

Lemma gatt_uuids_cons svc svcs :
  gatt_uuids (svc :: svcs) ->
  Forall (fun ch => uuid ch <> "") (characteristics svc) /\ gatt_uuids svcs.
Proof.
  unfold gatt_uuids. cbn [all_characteristics flat_map]. apply Forall_app.
Qed.

Lemma find_uuid (f : Characteristic -> bool) chs ch :
  Forall (fun ch => uuid ch <> "") chs -> find f chs = Some ch ->
  truthy_str (uuid ch) = true.
Proof.
  intros Hall Hf. apply find_some in Hf as [Hin _].
  rewrite Forall_forall in Hall. now apply truthy_str_true, Hall.
Qed.

Lemma exact_outer_find svcs :
  gatt_uuids svcs ->
  exact_outer (lower COMMAND_CHAR_UUID) svcs None =
  match find is_command_char (all_characteristics svcs) with
  | Some ch => Some (uuid ch)
  | None => None
  end.
Proof.
  induction svcs as [|svc svcs IH]; cbn [exact_outer all_characteristics flat_map]; auto.
  intros Hall. apply gatt_uuids_cons in Hall as [Hsvc Hall].
  rewrite exact_inner_find, find_app_first. fold (all_characteristics svcs).
  destruct (find is_command_char (characteristics svc)) as [ch|] eqn:E; cbn [truthy_ostr].
  - now rewrite (find_uuid _ _ _ Hsvc E).
  - now apply IH.
Qed.

Lemma writable_inner_find chs chosen :
  writable_inner chs chosen =
  match find is_writable chs with
  | Some ch => Some (uuid ch)
  | None => chosen
  end.
Proof.
  induction chs as [|ch chs IH]; simpl; auto. destruct (is_writable ch); auto.
Qed.

(** The fallback search yields the first writable characteristic. *)
Lemma writable_outer_first svcs chosen ch :
  gatt_uuids svcs ->
  truthy_ostr chosen = false ->
  find is_writable (all_characteristics svcs) = Some ch ->
  writable_outer svcs chosen = Some (uuid ch).
Proof.
  revert chosen. induction svcs as [|svc svcs IH]; intros chosen Hall Hc Hf;
    cbn [writable_outer all_characteristics flat_map] in *.
  - discriminate.
  - apply gatt_uuids_cons in Hall as [Hsvc Hall].
    rewrite writable_inner_find. rewrite find_app_first in Hf.
    destruct (find is_writable (characteristics svc)) as [ch1|] eqn:E; cbn [truthy_ostr].
    + injection Hf as <-. now rewrite (find_uuid _ _ _ Hsvc E).
    + rewrite Hc. now apply IH.
Qed.

(** With no writable characteristic the fallback search finds nothing. *)
Lemma writable_outer_none svcs chosen :
  truthy_ostr chosen = false ->
  find is_writable (all_characteristics svcs) = None ->
  writable_outer svcs chosen = chosen.
Proof.
  revert chosen. induction svcs as [|svc svcs IH]; intros chosen Hc Hf; simpl in *; auto.
  rewrite writable_inner_find. rewrite find_app_first in Hf.
  destruct (find is_writable (characteristics svc)); [discriminate|].
  rewrite Hc. now apply IH.
Qed.

Lemma or_default_nonempty chosen : or_default chosen COMMAND_CHAR_UUID <> "".
Proof.
  unfold or_default. destruct chosen as [u|]; [|discriminate].
  destruct (truthy_str u) eqn:E; [|discriminate]. now apply truthy_str_true.
Qed.

Lemma resolve_falsy sv :
  truthy_services sv = false ->
  or_default (choose_char sv) COMMAND_CHAR_UUID = COMMAND_CHAR_UUID.
Proof. intros H. unfold choose_char. now rewrite H. Qed.

(** The three tiers, on a non-empty service list. *)
Lemma resolve_three_tier svcs :
  svcs <> [] ->
  gatt_uuids svcs ->
  let u := or_default (choose_char (Some svcs)) COMMAND_CHAR_UUID in
  match find is_command_char (all_characteristics svcs) with
  | Some ch => u = uuid ch
  | None =>
      match find is_writable (all_characteristics svcs) with
      | Some ch => u = uuid ch
      | None => u = COMMAND_CHAR_UUID
      end
  end.
Proof.
  intros Hne Hall. unfold choose_char.
  replace (truthy_services (Some svcs)) with true by (destruct svcs; [contradiction|reflexivity]).
  cbv zeta. unfold services_list. rewrite (exact_outer_find svcs Hall).
  destruct (find is_command_char (all_characteristics svcs)) as [ch|] eqn:E1.
  - pose proof (find_uuid _ _ _ Hall E1) as Hu.
    cbn [truthy_ostr negb or_default]. rewrite Hu. cbn [negb or_default]. now rewrite Hu.
  - cbn [truthy_ostr negb].
    destruct (find is_writable (all_characteristics svcs)) as [ch|] eqn:E2.
    + rewrite (writable_outer_first svcs None ch Hall eq_refl E2).
      cbn [or_default]. now rewrite (find_uuid _ _ _ Hall E2).
    + now rewrite (writable_outer_none svcs None eq_refl E2).
Qed.

(** An empty service list leaves the well-known identifier. *)
Lemma resolve_empty : or_default (choose_char (Some [])) COMMAND_CHAR_UUID = COMMAND_CHAR_UUID.
Proof. reflexivity. Qed.
End Selection.

(** * Outcomes of [scan_and_connect] *)

Section Outcomes.
Context {rt : Runtime}.
Variable ad : Adapter.

(** A successful connect that had to run: what was found, what the polling
    loop read, and what is stored. *)
Lemma scan_and_connect_success name timeout s s' :
  connected (ble s) = false ->
  run ad (scan_and_connect name timeout) s = (inr true, s') ->
  exists devices target sv n,
    bleak_installed ad = true /\
    ad_discover ad (history s) timeout = inr devices /\
    find_target name devices = Some target /\
    ad_connect ad (history s ++ [EDiscover timeout]) (BleakClient (d_address target)) = inr tt /\
    ((forall j, j < n ->
        exists v,
          ad_services ad
            (history s ++ [EDiscover timeout; EConnect (BleakClient (d_address target))]
                       ++ sleeps j)
            (BleakClient (d_address target)) = inr v /\
          truthy_services v = false) /\
     ad_services ad
       (history s ++ [EDiscover timeout; EConnect (BleakClient (d_address target))]
                  ++ sleeps n)
       (BleakClient (d_address target)) = inr sv) /\
    n <= 10 /\ (truthy_services sv = true \/ n = 10) /\
    s' = mkSys (mkBLE (Some (BleakClient (d_address target)))
                      (Some (or_default (choose_char sv) COMMAND_CHAR_UUID))
                      (Some (d_address target)) true)
               (status_var s)
               (history s ++ [EDiscover timeout; EConnect (BleakClient (d_address target))]
                          ++ sleeps n).
Proof.
  intros Hc. rewrite scan_and_connect_run, Hc.
  destruct (bleak_installed ad); run_cbn; [|discriminate].
  destruct (ad_discover ad (history s) timeout) as [e|devices]; [discriminate|].
  destruct (find_target name devices) as [target|] eqn:Eft; [|discriminate].
  destruct (ad_connect ad _ _) as [e|[]] eqn:Econn; [discriminate|].
  destruct (ad_services ad _ _) as [e|sv] eqn:Esv; [discriminate|].
  match goal with
  | |- context [run ad (poll_services ?c ?v ?r) ?s0] =>
      destruct (poll_services_run ad c v r s0) as (n & res & Hrun & Hr & Hres & Hreads);
      rewrite Hrun
  end.
  destruct res as [e|[sv' r']]; [discriminate|].
  destruct Hres as (-> & Hexit). destruct (Hreads Esv) as [Hfalsy Hlast].
  cbn [history emit fst] in *.
  intros H; injection H as <-.
  assert (Happ : forall j,
            ((history s ++ [EDiscover timeout])
               ++ [EConnect (BleakClient (d_address target))]) ++ sleeps j
            = history s ++ [EDiscover timeout; EConnect (BleakClient (d_address target))]
                        ++ sleeps j).
  { intros j. now rewrite <- !app_assoc. }
  exists devices, target, sv', n.
  split; [reflexivity|]. split; [reflexivity|]. split; [exact Eft|].
  split; [exact Econn|]. split; [split|].
  - intros j Hj. destruct (Hfalsy j Hj) as (v & Hv & Hf). rewrite Happ in Hv. eauto.
  - now rewrite Happ in Hlast.
  - split; [lia|]. split; [destruct Hexit as [Ht|Ht]; [now left|right; lia]|].
    unfold set_connected, set_char_uuid, set_client, set_address. cbn.
    now rewrite Happ.
Qed.

(** [scan_and_connect] never writes, never touches the status, and only
    appends to the history. *)
Lemma scan_and_connect_frame name timeout s :
  exists evs,
    history (snd (run ad (scan_and_connect name timeout) s)) = history s ++ evs /\
    status_var (snd (run ad (scan_and_connect name timeout) s)) = status_var s /\
    filter is_write evs = [] /\
    (forall e, In e evs -> is_sleep e = true -> e = ESleep 0.1%Q) /\
    length (filter is_sleep evs) <= 10.
Proof.
  assert (Hsl : forall n, filter is_write (sleeps n) = [] /\
                          filter is_sleep (sleeps n) = sleeps n /\
                          length (sleeps n) = n /\
                          forall e, In e (sleeps n) -> e = ESleep 0.1%Q).
  { intros n. unfold sleeps. repeat split.
    - induction n; simpl; auto.
    - induction n; simpl; auto. now f_equal.
    - apply repeat_length.
    - intros e. apply repeat_spec. }
  assert (Hdone : forall evs : list Event,
            forallb (fun e => negb (is_write e) && negb (is_sleep e)) evs = true ->
            filter is_write evs = [] /\
            (forall e, In e evs -> is_sleep e = true -> e = ESleep 0.1%Q) /\
            length (filter is_sleep evs) <= 10).
  { induction evs as [|e evs IH]; simpl; intros H.
    - repeat split; auto; try lia; try (intros ? []).
    - apply andb_prop in H as [He H]. apply andb_prop in He as [He1 He2].
      apply negb_true_iff in He1, He2. destruct (IH H) as (H1 & H2 & H3).
      rewrite He1, He2. repeat split; auto.
      intros e0 [<-|Hin] Hs; [congruence|auto]. }
  rewrite scan_and_connect_run.
  destruct (bleak_installed ad); run_cbn;
    [|exists []; rewrite app_nil_r; split; [reflexivity|];
      split; [reflexivity|]; now apply Hdone].
  destruct (connected (ble s));
    [exists []; rewrite app_nil_r; split; [reflexivity|];
     split; [reflexivity|]; now apply Hdone|].
  destruct (ad_discover ad (history s) timeout) as [e|devices];
    [exists [EDiscover timeout]; split; [reflexivity|];
     split; [reflexivity|]; now apply Hdone|].
  destruct (find_target name devices) as [target|];
    [|exists [EDiscover timeout]; split; [reflexivity|];
      split; [reflexivity|]; now apply Hdone].
  set (c := BleakClient (d_address target)).
  destruct (ad_connect ad _ _) as [e|[]].
  { destruct (is_RecursionError e); run_cbn; rewrite <- !app_assoc; simpl;
      eexists; (split; [reflexivity|]); (split; [reflexivity|]); now apply Hdone. }
  destruct (ad_services ad _ _) as [e|sv].
  { run_cbn; rewrite <- !app_assoc; simpl;
      eexists; (split; [reflexivity|]); (split; [reflexivity|]); now apply Hdone. }
  match goal with
  | |- context [run ad (poll_services ?c ?v ?r) ?s0] =>
      destruct (poll_services_run ad c v r s0) as (n & res & Hrun & Hr & Hres & _);
      rewrite Hrun
  end.
  specialize (Hr ltac:(lia)).
  destruct (Hsl n) as (Hw & Hs & Hl & Hin).
  destruct res as [e|polled]; simpl; rewrite <- !app_assoc; simpl.
  - exists (EDiscover timeout :: EConnect c :: sleeps n ++ [EDisconnect c]).
    split; [reflexivity|]. split; [reflexivity|].
    simpl. rewrite !filter_app, Hw, Hs. simpl.
    rewrite length_app, Hl. simpl. repeat split; auto; try lia.
    intros e0 [<-|[<-|H]]; try discriminate.
    apply in_app_or in H as [H|[<-|[]]]; auto; discriminate.
  - exists (EDiscover timeout :: EConnect c :: sleeps n).
    split; [reflexivity|]. split; [reflexivity|].
    simpl. rewrite Hw, Hs, Hl. repeat split; auto; try lia.
    intros e0 [<-|[<-|H]]; try discriminate; auto.
Qed.
End Outcomes.

(** * Characteristic resolution *)

(** C1.  After a successful connect the write target is never absent or
    empty, and it follows the three tiers.  The polling loop re-reads the
    services after every sleep: [sv] is the transport's answer after the
    [n] sleeps it made, every earlier answer was falsy, and it stopped on a
    truthy answer or after the ten retries.  On a non-empty service list
    (each characteristic carrying its UUID, as a GATT stack reports them)
    the first characteristic whose UUID equals the well-known one
    case-insensitively is selected; failing that, the first characteristic
    advertising 'write' or 'write-without-response', in service order, then
    characteristic order; failing that, and also when the list is still
    empty or absent after the ten retries, the well-known identifier
    itself. *)
Theorem resolution_three_tier {rt : Runtime} ad name timeout s s' :
  connected (ble s) = false ->
  run ad (scan_and_connect name timeout) s = (inr true, s') ->
  exists c sv u n,
    client (ble s') = Some c /\
    char_uuid (ble s') = Some u /\ u <> "" /\
    n <= 10 /\
    history s' = history s ++ [EDiscover timeout; EConnect c] ++ sleeps n /\
    ad_services ad (history s') c = inr sv /\
    (forall j, j < n ->
       exists v,
         ad_services ad (history s ++ [EDiscover timeout; EConnect c] ++ sleeps j) c = inr v /\
         truthy_services v = false) /\
    (truthy_services sv = true \/ n = 10) /\
    (truthy_services sv = false -> u = COMMAND_CHAR_UUID) /\
    (forall svcs, sv = Some svcs -> svcs <> [] -> gatt_uuids svcs ->
       match find is_command_char (all_characteristics svcs) with
       | Some ch => u = uuid ch
       | None =>
           match find is_writable (all_characteristics svcs) with
           | Some ch => u = uuid ch
           | None => u = COMMAND_CHAR_UUID
           end
       end).
Proof.
  intros Hc Hrun.
  destruct (scan_and_connect_success ad name timeout s s' Hc Hrun)
    as (devices & target & sv & n & _ & _ & _ & _ & (Hfalsy & Hlast) & Hn & Hexit & ->).
  exists (BleakClient (d_address target)), sv,
    (or_default (choose_char sv) COMMAND_CHAR_UUID), n.
  cbn [ble client char_uuid history].
  split; [reflexivity|]. split; [reflexivity|]. split; [apply or_default_nonempty|].
  split; [exact Hn|]. split; [reflexivity|]. split; [exact Hlast|].
  split; [exact Hfalsy|]. split; [exact Hexit|]. split.
  - now apply resolve_falsy.
  - intros svcs -> Hne Hall. now apply resolve_three_tier.
Qed.

(** * Disconnect *)

(** C3 (amended).  From every starting state [disconnect] returns normally
    whatever the teardown does, attempts the teardown exactly when a handle
    is held and the connected flag is set, clears the handle and the write
    target, leaves the flag cleared, and is idempotent.  The stored address
    is left as it was. *)
Theorem disconnect_clears ad s :
  let r := run ad disconnect s in
  fst r = inr tt /\
  client (ble (snd r)) = None /\
  char_uuid (ble (snd r)) = None /\
  connected (ble (snd r)) = false /\
  address (ble (snd r)) = address (ble s) /\
  status_var (snd r) = status_var s /\
  history (snd r) =
    history s ++
    match client (ble s) with
    | Some c => if connected (ble s) then [EDisconnect c] else []
    | None => []
    end /\
  run ad disconnect (snd r) = (inr tt, snd r).
Proof.
  cbv zeta. rewrite !disconnect_run. simpl. rewrite app_nil_r.
  repeat split; reflexivity.
Qed.

(** * Closed forms of the [App] coroutines *)

Section AppRuns.
Context {rt : Runtime}.
Variable ad : Adapter.

Lemma connect_and_update_run s :
  run ad _connect_and_update s =
  match run ad (scan_and_connect DEVICE_NAME 5.0%Q)
            (mkSys (ble s) ("Scanning for " ++ DEVICE_NAME ++ "...")%string (history s)) with
  | (inl e, s1) =>
      (inr tt, mkSys (ble s1) ("Connection error: " ++ exn_msg e)%string (history s1))
  | (inr true, s1) =>
      (inr tt, mkSys (ble s1) ("Connected to " ++ DEVICE_NAME)%string (history s1))
  | (inr false, s1) =>
      (inr tt, mkSys (ble s1)
                     ("Device '" ++ DEVICE_NAME ++ "' not found or no writable char")%string
                     (history s1))
  end.
Proof.
  unfold _connect_and_update. run_simpl.
  match goal with
  | |- context [run ad (scan_and_connect ?n ?t) ?s0] =>
      destruct (run ad (scan_and_connect n t) s0) as [[e|[|]] s1]; run_cbn;
      run_simpl; reflexivity
  end.
Qed.

Lemma send_command_run payload s :
  run ad (_send_command payload) s =
  let report (x : (Exn + unit) * Sys) :=
    match x with
    | (inl e, s') =>
        (inl e, mkSys (ble s') ("Send failed: " ++ exn_msg e)%string (history s'))
    | (inr _, s') =>
        (inr tt, mkSys (ble s') ("Sent: " ++ decode_utf8_replace payload)%string
                       (history s'))
    end in
  if connected (ble s) then report (run ad (send payload REQUIRE_RESPONSE_ON_WRITE) s)
  else
    match run ad (scan_and_connect DEVICE_NAME 5.0%Q) s with
    | (inl e, s1) =>
        (inl e, mkSys (ble s1) ("Connection error: " ++ exn_msg e)%string (history s1))
    | (inr false, s1) =>
        (inl (runtime_error "Device not connected"),
         mkSys (ble s1) ("Device '" ++ DEVICE_NAME ++ "' not found")%string (history s1))
    | (inr true, s1) => report (run ad (send payload REQUIRE_RESPONSE_ON_WRITE) s1)
    end.
Proof.
  unfold _send_command. cbv zeta. run_simpl.
  destruct (connected (ble s)); run_cbn.
  - run_simpl. destruct (run ad (send payload REQUIRE_RESPONSE_ON_WRITE) s) as [[e|[]] s'];
      run_cbn; run_simpl; reflexivity.
  - run_simpl.
    destruct (run ad (scan_and_connect DEVICE_NAME 5.0%Q) s) as [[e|[|]] s1]; run_cbn;
      run_simpl; try reflexivity.
    destruct (run ad (send payload REQUIRE_RESPONSE_ON_WRITE) s1) as [[e|[]] s'];
      run_cbn; run_simpl; reflexivity.
Qed.

Lemma on_button_run name s :
  run ad (on_button name) s =
  match dict_get COMMANDS name with
  | Some b =>
      if truthy_str b then
        match run ad (_send_command (encode_utf8 b)) s with
        | (inl e, s') =>
            (inr tt, mkSys (ble s') ("Send error: " ++ exn_msg e)%string
                           (history s' ++ [ELog task_log_header]))
        | (inr _, s') => (inr tt, s')
        end
      else (inr tt, emit (EShowError "Error" ("Unknown command: " ++ name)%string) s)
  | None => (inr tt, emit (EShowError "Error" ("Unknown command: " ++ name)%string) s)
  end.
Proof.
  unfold on_button, _schedule_coroutine.
  destruct (dict_get COMMANDS name) as [b|]; run_cbn.
  - destruct (truthy_str b); run_cbn.
    + cbv zeta. run_simpl.
      destruct (run ad (_send_command (encode_utf8 b)) s) as [[e|[]] s'];
        run_cbn; run_simpl; reflexivity.
    + run_simpl. reflexivity.
  - run_simpl. reflexivity.
Qed.
End AppRuns.

(** * The connection invariant *)

Section Invariant.
Context {rt : Runtime}.
Variable ad : Adapter.

(** The controller after [scan_and_connect]: untouched, or with only the
    address changed (a failed attempt), or freshly connected. *)
Lemma scan_and_connect_ble name timeout s :
  let r := run ad (scan_and_connect name timeout) s in
  ble (snd r) = ble s \/
  (connected (ble s) = false /\ fst r <> inr true /\
   exists a, ble (snd r) = set_address (Some a) (ble s)) \/
  (bleak_installed ad = true /\ fst r = inr true /\
   exists c u a, ble (snd r) = mkBLE (Some c) (Some u) (Some a) true /\ u <> "").
Proof.
  cbv zeta. rewrite scan_and_connect_run.
  destruct (bleak_installed ad); run_cbn; auto.
  destruct (connected (ble s)) eqn:Hc; auto.
  destruct (ad_discover ad (history s) timeout) as [e|devices]; auto.
  destruct (find_target name devices) as [target|]; auto.
  destruct (ad_connect ad _ _) as [e|[]].
  { right; left. repeat split; [discriminate|].
    exists (d_address target). destruct (is_RecursionError e); reflexivity. }
  destruct (ad_services ad _ _) as [e|sv].
  { right; left. repeat split; [discriminate|]. now exists (d_address target). }
  match goal with
  | |- context [run ad (poll_services ?c ?v ?r) ?s0] =>
      destruct (poll_services_run ad c v r s0) as (n & res & Hrun & _);
      rewrite Hrun
  end.
  destruct res as [e|polled]; run_cbn.
  - right; left. repeat split; [discriminate|]. now exists (d_address target).
  - right; right. repeat split.
    eexists _, _, _. split; [reflexivity|apply or_default_nonempty].
Qed.

Lemma send_ble payload rr s : ble (snd (run ad (send payload rr) s)) = ble s.
Proof.
  rewrite send_run. destruct (client (ble s)); auto.
  destruct (char_uuid (ble s)); auto.
  destruct (connected (ble s) && truthy_str _); auto.
Qed.

Lemma send_command_ble payload s :
  ble (snd (run ad (_send_command payload) s)) = ble s \/
  ble (snd (run ad (_send_command payload) s))
    = ble (snd (run ad (scan_and_connect DEVICE_NAME 5.0%Q) s)).
Proof.
  rewrite send_command_run. cbv zeta.
  destruct (connected (ble s)).
  - left. pose proof (send_ble payload REQUIRE_RESPONSE_ON_WRITE s) as H.
    destruct (run ad (send payload REQUIRE_RESPONSE_ON_WRITE) s) as [[e|u] s']; exact H.
  - right. destruct (run ad (scan_and_connect DEVICE_NAME 5.0%Q) s) as [[e|[|]] s1];
      cbn [snd ble]; auto.
    pose proof (send_ble payload REQUIRE_RESPONSE_ON_WRITE s1) as H.
    destruct (run ad (send payload REQUIRE_RESPONSE_ON_WRITE) s1) as [[e|u] s']; exact H.
Qed.

Lemma scan_and_connect_shape name timeout s :
  shape_after ad (ble s) (ble (snd (run ad (scan_and_connect name timeout) s))).
Proof.
  destruct (scan_and_connect_ble name timeout s)
    as [H|[(_ & _ & a & H)|(Hb & _ & H)]]; unfold shape_after; eauto.
Qed.

Lemma program_shape op s :
  shape_after ad (ble s) (ble (snd (run ad (program op) s))).
Proof.
  destruct op as [name timeout| |payload rr| |payload|name]; cbn [program].
  - rewrite run_bind.
    pose proof (scan_and_connect_shape name timeout s) as H'.
    destruct (run ad (scan_and_connect name timeout) s) as [[e|b] s']; exact H'.
  - rewrite disconnect_run; simpl. unfold shape_after; auto.
  - rewrite send_ble. now left.
  - rewrite connect_and_update_run.
    pose proof (scan_and_connect_shape DEVICE_NAME 5.0%Q
                  (mkSys (ble s) ("Scanning for " ++ DEVICE_NAME ++ "...")%string
                         (history s))) as H'.
    match goal with
    | |- context [run ad (scan_and_connect ?n ?t) ?s0] =>
        destruct (run ad (scan_and_connect n t) s0) as [[e|[|]] s']; exact H'
    end.
  - destruct (send_command_ble payload s) as [->| ->]; [now left|].
    apply scan_and_connect_shape.
  - rewrite on_button_run. destruct (dict_get COMMANDS name) as [b|]; [|now left].
    destruct (truthy_str b); [|now left].
    assert (H' : shape_after ad (ble s) (ble (snd (run ad (_send_command (encode_utf8 b)) s)))).
    { destruct (send_command_ble (encode_utf8 b) s) as [->| ->]; [now left|].
      apply scan_and_connect_shape. }
    destruct (run ad (_send_command (encode_utf8 b)) s) as [[e|u] s']; exact H'.
Qed.

Lemma shape_Inv b b' : shape_after ad b b' -> Inv b -> Inv b'.
Proof.
  intros [->|[(a & ->)|[(_ & c & u & a & -> & Hu)| ->]]] H; auto.
  - split; simpl.
    + split; [reflexivity|discriminate].
    + intros _. now apply truthy_str_true.
  - split; simpl.
    + split; [congruence|discriminate].
    + discriminate.
Qed.

Lemma shape_bleak b b' :
  shape_after ad b b' ->
  (connected b = true -> bleak_installed ad = true) ->
  connected b' = true -> bleak_installed ad = true.
Proof.
  intros [->|[(a & ->)|[(Hb & _)| ->]]] H; auto. discriminate.
Qed.

Lemma Inv_init : Inv BLEController_init.
Proof.
  unfold Inv. simpl. repeat split; try discriminate; congruence.
Qed.

Lemma reachable_Inv s :
  reachable ad s ->
  Inv (ble s) /\ (connected (ble s) = true -> bleak_installed ad = true).
Proof.
  intros [ops ->]. unfold run_all.
  rewrite <- fold_left_rev_right.
  induction (rev ops) as [|op l [IH1 IH2]]; simpl.
  - split; [apply Inv_init|discriminate].
  - split.
    + eapply shape_Inv; [apply program_shape|exact IH1].
    + eapply shape_bleak; [apply program_shape|exact IH2].
Qed.

Lemma Inv_guard b : Inv b -> send_guard b = connected b.
Proof.
  intros [[H1 H2] H3]. unfold send_guard.
  destruct (client b) as [c|].
  - rewrite H1 by discriminate. run_cbn. now apply H3, H1.
  - destruct (connected b); auto. now specialize (H2 eq_refl).
Qed.
End Invariant.

(** * Invariant and idempotence *)

(** C5.  The connection invariant holds after initialization and is
    preserved by every operation on every transport, whether the operation
    succeeds or raises: a handle is held exactly when the connected flag is
    set, and then a non-empty write target is held too, so the guard of
    [send] is decided by the connected flag alone. *)
Theorem invariant_preserved {rt : Runtime} :
  Inv BLEController_init /\
  (forall ad op s, Inv (ble s) -> Inv (ble (snd (run ad (program op) s)))) /\
  (forall ad name timeout s,
     Inv (ble s) -> Inv (ble (snd (run ad (scan_and_connect name timeout) s)))) /\
  (forall b, Inv b -> send_guard b = connected b).
Proof.
  split; [apply Inv_init|]. split; [|split].
  - intros ad op s H. eapply shape_Inv; [apply program_shape|exact H].
  - intros ad name timeout s H. eapply shape_Inv; [apply scan_and_connect_shape|exact H].
  - apply Inv_guard.
Qed.

(** C6.  When the controller is already connected, [scan_and_connect]
    returns [True] at once: no discovery, no open, nothing else reaches the
    transport, and the state is unchanged.  (A connected controller can only
    arise with the transport library installed; either fact suffices.) *)
Theorem connect_idempotent {rt : Runtime} ad s name timeout :
  connected (ble s) = true ->
  bleak_installed ad = true \/ reachable ad s ->
  run ad (scan_and_connect name timeout) s = (inr true, s).
Proof.
  intros Hc Hb.
  assert (Hi : bleak_installed ad = true).
  { destruct Hb as [Hb|Hr]; [exact Hb|]. now apply (reachable_Inv ad s Hr). }
  rewrite scan_and_connect_run, Hi, Hc. reflexivity.
Qed.

(** * Discovery *)

Lemma find_target_none {rt : Runtime} name devices :
  existsb (same_name name) devices = false -> find_target name devices = None.
Proof.
  induction devices as [|d devices IH]; simpl; auto.
  intros H. apply orb_false_iff in H as [H1 H2].
  unfold name_matches. unfold same_name in H1.
  destruct (d_name d) as [n|]; auto. rewrite H1, andb_false_r. auto.
Qed.

(** A device with a name (the scan loop's [d.name and ...] takes the empty
    string for no name) passes the test of the loop exactly when its name
    equals the target name case-insensitively. *)
Lemma name_matches_same {rt : Runtime} name d :
  d_name d <> Some "" -> name_matches name d = same_name name d.
Proof.
  intros Hd. unfold name_matches, same_name.
  destruct (d_name d) as [n|]; auto.
  replace (truthy_str n) with true; [reflexivity|].
  symmetry. apply truthy_str_true. intros ->. now apply Hd.
Qed.

Lemma name_matches_differs {rt : Runtime} name d :
  same_name name d = false -> name_matches name d = false.
Proof.
  unfold name_matches, same_name. destruct (d_name d) as [n|]; auto.
  intros ->. apply andb_false_r.
Qed.

(** The loop passes over a device whose name does not equal the target
    name, and over one whose name is the empty string. *)
Lemma name_matches_skips {rt : Runtime} name d :
  (same_name name d = true -> d_name d = Some "") -> name_matches name d = false.
Proof.
  intros H. destruct (same_name name d) eqn:E.
  - unfold name_matches. now rewrite (H eq_refl).
  - now apply name_matches_differs.
Qed.

Lemma find_target_first {rt : Runtime} name pre d post :
  (forall x, In x pre -> same_name name x = true -> d_name x = Some "") ->
  same_name name d = true ->
  d_name d <> Some "" ->
  find_target name (pre ++ d :: post) = Some d.
Proof.
  intros Hpre Hd Hname.
  induction pre as [|d' pre IH]; cbn [app find_target].
  - now rewrite name_matches_same, Hd.
  - rewrite (name_matches_skips name d'); [|apply Hpre; now left].
    apply IH. intros x Hx. apply Hpre. now right.
Qed.

Lemma find_target_blank {rt : Runtime} name devices :
  (forall x, In x devices -> same_name name x = true -> d_name x = Some "") ->
  find_target name devices = None.
Proof.
  intros Hall. induction devices as [|d devices IH]; cbn [find_target]; [reflexivity|].
  rewrite (name_matches_skips name d); [|apply Hall; now left].
  apply IH. intros x Hx. apply Hall. now right.
Qed.

Section ConnectHistory.
Context {rt : Runtime}.
Variable ad : Adapter.

(** A connect that finds its target opens the connection to that device
    right after the scan, and stores the device's address. *)
Lemma scan_and_connect_opens name timeout s devices target :
  bleak_installed ad = true ->
  connected (ble s) = false ->
  ad_discover ad (history s) timeout = inr devices ->
  find_target name devices = Some target ->
  exists rest,
    history (snd (run ad (scan_and_connect name timeout) s))
      = history s ++ EDiscover timeout :: EConnect (BleakClient (d_address target)) :: rest /\
    address (ble (snd (run ad (scan_and_connect name timeout) s)))
      = Some (d_address target) /\
    forall c, ~ In (EConnect c) rest.
Proof.
  intros Hb Hc Hd Hf. rewrite scan_and_connect_run, Hb, Hc, Hd, Hf. run_cbn.
  assert (Hsl : forall n c, ~ In (EConnect c) (sleeps n)).
  { intros n c H. apply repeat_spec in H. discriminate. }
  destruct (ad_connect ad _ _) as [e|[]].
  { destruct (is_RecursionError e); run_cbn; rewrite <- !app_assoc; simpl;
      eexists; (split; [reflexivity|]); (split; [reflexivity|]);
      intros c H; simpl in H; intuition discriminate. }
  destruct (ad_services ad _ _) as [e|sv].
  { run_cbn; rewrite <- !app_assoc; simpl.
    eexists; (split; [reflexivity|]); (split; [reflexivity|]);
      intros c H; simpl in H; intuition discriminate. }
  match goal with
  | |- context [run ad (poll_services ?c ?v ?r) ?s0] =>
      destruct (poll_services_run ad c v r s0) as (n & res & Hrun & _);
      rewrite Hrun
  end.
  destruct res as [e|polled]; run_cbn; rewrite <- !app_assoc; simpl.
  - exists (sleeps n ++ [EDisconnect (BleakClient (d_address target))]).
    split; [reflexivity|]. split; [reflexivity|].
    intros c H. apply in_app_or in H as [H|[H|[]]]; [now apply Hsl in H|discriminate].
  - exists (sleeps n). split; [reflexivity|]. split; [reflexivity|]. apply Hsl.
Qed.

(** With the library installed and the controller not connected, the
    first thing [scan_and_connect] does is the scan. *)
Lemma scan_and_connect_scans_first name timeout s :
  bleak_installed ad = true ->
  connected (ble s) = false ->
  exists rest,
    history (snd (run ad (scan_and_connect name timeout) s))
      = history s ++ EDiscover timeout :: rest.
Proof.
  intros Hb Hc.
  destruct (ad_discover ad (history s) timeout) as [e|devices] eqn:Hd.
  { rewrite scan_and_connect_run, Hb, Hc, Hd. now exists []. }
  destruct (find_target name devices) as [target|] eqn:Hf.
  - destruct (scan_and_connect_opens name timeout s devices target Hb Hc Hd Hf)
      as (rest & H & _). eauto.
  - rewrite scan_and_connect_run, Hb, Hc, Hd, Hf. now exists [].
Qed.
End ConnectHistory.

(** C7 (amended).  When the scan reports no device whose name equals the
    target name case-insensitively, [scan_and_connect] returns [False], the
    scan is the only call made (no open), and the controller is unchanged;
    the automatic connect then reports the device as not found.  When
    devices do match, the connection is opened to the first of them whose
    name is not the empty string, and to no other.  A device whose name is
    the empty string is passed over by the scan loop, which tests
    [d.name and ...]: when the devices that match all have the empty name,
    the connect reports not found just the same. *)
Theorem discovery_first_match {rt : Runtime} ad s name timeout devices :
  bleak_installed ad = true ->
  connected (ble s) = false ->
  ad_discover ad (history s) timeout = inr devices ->
  (existsb (same_name name) devices = false ->
   run ad (scan_and_connect name timeout) s = (inr false, emit (EDiscover timeout) s) /\
   ble (emit (EDiscover timeout) s) = ble s /\
   connected (ble (emit (EDiscover timeout) s)) = false /\
   (name = DEVICE_NAME -> timeout = 5.0%Q ->
    run ad _connect_and_update s
      = (inr tt, mkSys (ble s) "Device 'ardubotr4' not found or no writable char"
                       (history s ++ [EDiscover 5.0%Q])))) /\
  (forall pre d post,
     devices = pre ++ d :: post ->
     (forall x, In x pre -> same_name name x = true -> d_name x = Some "") ->
     same_name name d = true ->
     d_name d <> Some "" ->
     exists rest,
       history (snd (run ad (scan_and_connect name timeout) s))
         = history s ++ EDiscover timeout :: EConnect (BleakClient (d_address d)) :: rest /\
       address (ble (snd (run ad (scan_and_connect name timeout) s))) = Some (d_address d) /\
       forall c, ~ In (EConnect c) rest) /\
  ((forall x, In x devices -> same_name name x = true -> d_name x = Some "") ->
   run ad (scan_and_connect name timeout) s = (inr false, emit (EDiscover timeout) s)).
Proof.
  intros Hb Hc Hd. split; [|split].
  - intros Hnone. pose proof (find_target_none name devices Hnone) as Hf.
    split; [|split; [reflexivity|split; [exact Hc|]]].
    + rewrite scan_and_connect_run, Hb, Hc, Hd, Hf. reflexivity.
    + intros -> ->. rewrite connect_and_update_run.
      rewrite scan_and_connect_run, Hb. run_cbn. rewrite Hc, Hd, Hf. reflexivity.
  - intros pre d post -> Hpre Hsame Hname.
    apply (scan_and_connect_opens ad name timeout s (pre ++ d :: post) d Hb Hc Hd).
    now apply find_target_first.
  - intros Hall. rewrite scan_and_connect_run, Hb, Hc, Hd.
    now rewrite (find_target_blank name devices Hall).
Qed.

(** C8.  The polling loop is bounded: whatever the transport does, one
    connect sleeps at most ten times, each time for 0.1 s; and with a
    transport that never reports services the connect makes exactly those
    ten retries and then completes with the well-known identifier as the
    write target. *)
Theorem polling_bounded {rt : Runtime} ad s name timeout :
  (exists evs,
     history (snd (run ad (scan_and_connect name timeout) s)) = history s ++ evs /\
     length (filter is_sleep evs) <= 10 /\
     forall e, In e evs -> is_sleep e = true -> e = ESleep 0.1%Q) /\
  (forall devices target,
     bleak_installed ad = true ->
     connected (ble s) = false ->
     ad_discover ad (history s) timeout = inr devices ->
     find_target name devices = Some target ->
     ad_connect ad (history s ++ [EDiscover timeout]) (BleakClient (d_address target)) = inr tt ->
     (forall h, exists v,
        ad_services ad h (BleakClient (d_address target)) = inr v /\
        truthy_services v = false) ->
     run ad (scan_and_connect name timeout) s
       = (inr true,
          mkSys (mkBLE (Some (BleakClient (d_address target))) (Some COMMAND_CHAR_UUID)
                       (Some (d_address target)) true)
                (status_var s)
                (history s
                   ++ [EDiscover timeout; EConnect (BleakClient (d_address target))]
                   ++ sleeps 10))).
Proof.
  split.
  - destruct (scan_and_connect_frame ad name timeout s) as (evs & H1 & _ & _ & H2 & H3).
    exists evs. auto.
  - intros devices target Hb Hc Hd Hf Hconn Hnever.
    rewrite scan_and_connect_run, Hb, Hc, Hd, Hf. run_cbn. rewrite Hconn.
    destruct (Hnever ((history s ++ [EDiscover timeout])
                        ++ [EConnect (BleakClient (d_address target))]))
      as (v & Hv & Hfalsy).
    rewrite Hv.
    match goal with
    | |- context [run ad (poll_services ?c v 0) ?s0] =>
        destruct (poll_services_never ad c Hnever v s0 Hfalsy)
          as (sv' & Hrun & Hf'); rewrite Hrun
    end.
    run_cbn. rewrite (resolve_falsy sv' Hf'). rewrite <- !app_assoc. reflexivity.
Qed.

(** * Sending *)

Lemma send_connected_run ad s c u payload rr :
  connected (ble s) = true ->
  client (ble s) = Some c ->
  char_uuid (ble s) = Some u ->
  u <> "" ->
  run ad (send payload rr) s =
  (match ad_write ad (history s) c u payload rr with
   | inl e => inl e
   | inr _ => inr tt
   end, emit (EWrite c u payload rr) s).
Proof.
  intros Hc Hcl Hu Hne. rewrite send_run, Hcl, Hu, Hc.
  apply truthy_str_true in Hne. now rewrite Hne.
Qed.

Lemma Inv_connected b :
  Inv b -> connected b = true ->
  exists c u, client b = Some c /\ char_uuid b = Some u /\ u <> "".
Proof.
  intros [[_ H1] H2] Hc. specialize (H1 Hc). specialize (H2 Hc).
  destruct (client b) as [c|]; [|contradiction].
  destruct (char_uuid b) as [u|]; [|discriminate].
  exists c, u. repeat split; auto. now apply truthy_str_true.
Qed.

Lemma commands_roundtrip name :
  In name ["forward"; "back"; "left"; "right"; "switch"] ->
  dict_get COMMANDS name = Some name /\
  truthy_str name = true /\
  decode_utf8_replace (encode_utf8 name) = name.
Proof.
  intros H. simpl in H.
  repeat (destruct H as [<-|H]; [vm_compute; auto|]). destruct H.
Qed.

(** C9.  While connected, pressing the button of a command in the fixed set
    issues exactly one transport write, to the held handle and write target,
    whose payload is the UTF-8 encoding of the command's own name and whose
    acknowledge flag is set; nothing else reaches the transport and the
    controller is unchanged.  When the write completes, the status reads
    "Sent: " followed by the name (for "forward" the payload is b"forward"
    and the status "Sent: forward"); when it raises, the scheduling callback
    adds an entry to the log file and the status reads "Send error: "
    followed by the message. *)
Theorem button_writes_own_name {rt : Runtime} ad s name :
  In name ["forward"; "back"; "left"; "right"; "switch"] ->
  Inv (ble s) ->
  connected (ble s) = true ->
  exists c u,
    client (ble s) = Some c /\ char_uuid (ble s) = Some u /\
    fst (run ad (on_button name) s) = inr tt /\
    history (snd (run ad (on_button name) s))
      = history s ++
        EWrite c u (encode_utf8 name) true ::
        match ad_write ad (history s) c u (encode_utf8 name) true with
        | inr _ => []
        | inl _ => [ELog task_log_header]
        end /\
    filter is_write (history (snd (run ad (on_button name) s)))
      = filter is_write (history s) ++ [EWrite c u (encode_utf8 name) true] /\
    ble (snd (run ad (on_button name) s)) = ble s /\
    status_var (snd (run ad (on_button name) s))
      = match ad_write ad (history s) c u (encode_utf8 name) true with
        | inr _ => ("Sent: " ++ name)%string
        | inl e => ("Send error: " ++ exn_msg e)%string
        end /\
    (name = "forward" ->
     encode_utf8 name
       = [Byte.x66; Byte.x6f; Byte.x72; Byte.x77; Byte.x61; Byte.x72; Byte.x64] /\
     (ad_write ad (history s) c u (encode_utf8 name) true = inr tt ->
      status_var (snd (run ad (on_button name) s)) = "Sent: forward")).
Proof.
  intros Hname Hinv Hc.
  destruct (Inv_connected (ble s) Hinv Hc) as (c & u & Hcl & Hu & Hne).
  destruct (commands_roundtrip name Hname) as (Hget & Htr & Hdec).
  exists c, u. split; [exact Hcl|]. split; [exact Hu|].
  rewrite on_button_run, Hget, Htr, send_command_run, Hc. cbv zeta.
  rewrite (send_connected_run ad s c u (encode_utf8 name) REQUIRE_RESPONSE_ON_WRITE Hc Hcl Hu Hne).
  change REQUIRE_RESPONSE_ON_WRITE with true.
  destruct (ad_write ad (history s) c u (encode_utf8 name) true) as [e|[]];
    cbn [fst snd ble history status_var emit]; rewrite ?Hdec, <- ?app_assoc;
    cbn [app]; rewrite ?filter_app; cbn [filter is_write]; rewrite ?app_nil_r.
  - do 5 (split; [reflexivity|]). intros ->. split; [reflexivity|discriminate].
  - do 5 (split; [reflexivity|]). intros ->. split; reflexivity.
Qed.

(** C10.  A write that raises leaves the controller exactly as it was, still
    connected: [_send_command] re-raises the error after exactly one write
    call, and the next [_send_command] goes straight to its own write, with
    no scan and no open. *)
Theorem failed_write_keeps_connection {rt : Runtime} ad s payload e c u :
  connected (ble s) = true ->
  client (ble s) = Some c ->
  char_uuid (ble s) = Some u ->
  u <> "" ->
  ad_write ad (history s) c u payload true = inl e ->
  let r := run ad (_send_command payload) s in
  fst r = inl e /\
  ble (snd r) = ble s /\
  connected (ble (snd r)) = true /\
  history (snd r) = history s ++ [EWrite c u payload true] /\
  status_var (snd r) = ("Send failed: " ++ exn_msg e)%string /\
  forall payload',
    history (snd (run ad (_send_command payload') (snd r)))
      = history (snd r) ++ [EWrite c u payload' true] /\
    ble (snd (run ad (_send_command payload') (snd r))) = ble s.
Proof.
  intros Hc Hcl Hu Hne Hw. cbv zeta.
  rewrite send_command_run, Hc. cbv zeta.
  rewrite (send_connected_run ad s c u payload REQUIRE_RESPONSE_ON_WRITE Hc Hcl Hu Hne).
  change REQUIRE_RESPONSE_ON_WRITE with true. rewrite Hw.
  cbn [fst snd ble history status_var emit].
  repeat split; auto.
  - rewrite send_command_run. cbn [ble]. rewrite Hc. cbv zeta.
    match goal with
    | |- context [run ad (send payload' ?rr) ?s0] =>
        rewrite (send_connected_run ad s0 c u payload' rr Hc Hcl Hu Hne)
    end.
    match goal with
    | |- context [ad_write ad ?h c u payload' ?rr] =>
        destruct (ad_write ad h c u payload' rr) as [e'|[]]; reflexivity
    end.
  - rewrite send_command_run. cbn [ble]. rewrite Hc. cbv zeta.
    match goal with
    | |- context [run ad (send payload' ?rr) ?s0] =>
        rewrite (send_connected_run ad s0 c u payload' rr Hc Hcl Hu Hne)
    end.
    match goal with
    | |- context [ad_write ad ?h c u payload' ?rr] =>
        destruct (ad_write ad h c u payload' rr) as [e'|[]]; reflexivity
    end.
Qed.

(** C4 (amended).  A [_send_command] issued while not connected first runs
    the full connect for the well-known device name with the 5-second scan.
    If that connect reports the device as not found, the send fails with
    the not-connected error; if it raises, the send fails with that same
    exception; in both cases no write reaches the transport.  If it
    succeeds, the write follows on the new connection. *)
Theorem send_connects_first {rt : Runtime} ad s payload :
  connected (ble s) = false ->
  let rc := run ad (scan_and_connect DEVICE_NAME 5.0%Q) s in
  let r := run ad (_send_command payload) s in
  match fst rc with
  | inl e =>
      r = (inl e, mkSys (ble (snd rc)) ("Connection error: " ++ exn_msg e)%string
                        (history (snd rc)))
  | inr false =>
      r = (inl (runtime_error "Device not connected"),
           mkSys (ble (snd rc)) "Device 'ardubotr4' not found" (history (snd rc)))
  | inr true =>
      exists c u,
        client (ble (snd rc)) = Some c /\ char_uuid (ble (snd rc)) = Some u /\
        history (snd r) = history (snd rc) ++ [EWrite c u payload true]
  end /\
  (fst rc <> inr true ->
   filter is_write (history (snd r)) = filter is_write (history s)) /\
  (bleak_installed ad = true ->
   exists rest, history (snd r) = history s ++ EDiscover 5.0%Q :: rest).
Proof.
  intros Hc. cbv zeta. rewrite send_command_run, Hc. cbv zeta.
  destruct (scan_and_connect_frame ad DEVICE_NAME 5.0%Q s) as (evs & Hh & _ & Hw & _).
  pose proof (scan_and_connect_scans_first ad DEVICE_NAME 5.0%Q s) as Hfirst.
  pose proof (scan_and_connect_success ad DEVICE_NAME 5.0%Q s) as Hsucc.
  destruct (run ad (scan_and_connect DEVICE_NAME 5.0%Q) s) as [[e|[|]] s1];
    cbn [fst snd] in *.
  - (* the connect raised *)
    split; [reflexivity|]. split.
    + intros _. cbn [history]. rewrite Hh, filter_app, Hw. apply app_nil_r.
    + intros Hb. exact (Hfirst Hb Hc).
  - (* the connect succeeded *)
    destruct (Hsucc s1 Hc eq_refl)
      as (devices & target & sv & n & _ & _ & _ & _ & _ & _ & _ & ->).
    set (c := BleakClient (d_address target)).
    set (u := or_default (choose_char sv) COMMAND_CHAR_UUID).
    match goal with
    | |- context [run ad (send payload ?rr) ?s0] =>
        rewrite (send_connected_run ad s0 c u payload rr eq_refl eq_refl eq_refl
                   (or_default_nonempty _))
    end.
    change REQUIRE_RESPONSE_ON_WRITE with true.
    split; [|split].
    + exists c, u. repeat split.
      destruct (ad_write ad _ _ _ _ _) as [e|[]]; reflexivity.
    + intros H; now contradiction H.
    + intros Hb. exists ([EConnect c] ++ sleeps n ++ [EWrite c u payload true]).
      destruct (ad_write ad _ _ _ _ _) as [e|[]]; cbn [snd history emit];
        rewrite <- !app_assoc; reflexivity.
  - (* not found *)
    split; [reflexivity|]. split.
    + intros _. cbn [history]. rewrite Hh, filter_app, Hw. apply app_nil_r.
    + intros Hb. exact (Hfirst Hb Hc).
Qed.

(** * Lock discipline *)

Section Discipline.
Context {rt : Runtime}.

Lemma Locking_bind A B (p : Prog A) (f : A -> Prog B) held :
  Locking held p -> (forall a, Outside (f a)) -> Locking held (bind p f).
Proof.
  intros Hp Hf. induction Hp; cbn [bind].
  - apply Hf.
  - constructor.
  - now apply L_local.
  - now apply L_acquire.
  - now apply L_op.
  - now apply L_release.
Qed.

Lemma Locking_try_except A (p : Prog A) (h : Exn -> Prog A) held :
  Locking held p -> (forall e, Outside (h e)) -> Locking held (try_except p h).
Proof.
  intros Hp Hh. induction Hp; cbn [try_except].
  - constructor.
  - apply Hh.
  - now apply L_local.
  - now apply L_acquire.
  - now apply L_op.
  - now apply L_release.
Qed.

Lemma LockFree_bind A B (p : Prog A) (f : A -> Prog B) :
  LockFree p -> (forall a, LockFree (f a)) -> LockFree (bind p f).
Proof.
  intros Hp Hf. induction Hp; cbn [bind].
  - apply Hf.
  - constructor.
  - now apply LF_op.
Qed.

Lemma LockFree_try_except A (p : Prog A) (h : Exn -> Prog A) :
  LockFree p -> (forall e, LockFree (h e)) -> LockFree (try_except p h).
Proof.
  intros Hp Hh. induction Hp; cbn [try_except].
  - constructor.
  - apply Hh.
  - now apply LF_op.
Qed.

Lemma LockFree_perform_op o : lock_effect o = NoLock -> LockFree (perform_op o).
Proof. intros H. apply LF_op; auto. intros r. constructor. Qed.

Lemma LockFree_lift_result A (r : Exn + A) : LockFree (lift_result r).
Proof. destruct r; constructor. Qed.

(** Inside the lock, a lock-free block followed by the release. *)
Lemma Inside_block A B (body : Prog A) (f : A -> Prog B) :
  LockFree body ->
  (forall a, Inside (f a)) ->
  Inside (bind (try_except body (fun e => bind (perform_op LockRelease) (fun _ => Raise e))) f).
Proof.
  intros Hb Hf. induction Hb; cbn [bind try_except perform_op].
  - apply Hf.
  - apply L_release. constructor.
  - now apply L_op.
Qed.

Lemma Outside_with_lock A (body : Prog A) : LockFree body -> Outside (with_lock body).
Proof.
  intros Hb. unfold with_lock. cbn [bind perform_op]. apply L_acquire.
  apply Inside_block; auto.
  intros a. cbn [bind perform_op]. apply L_release. constructor.
Qed.

Lemma Outside_local_op o : is_local o = true -> Outside (perform_op o).
Proof. intros H. apply L_local; auto. intros r. constructor. Qed.

Lemma LockFree_poll_loop c k :
  forall r variant sv, 10 - r = k -> LockFree (poll_loop c sv r variant).
Proof.
  induction k as [|k IH]; intros r variant sv Hk; destruct variant as [h];
    cbn [poll_loop]; destruct (negb (truthy_services sv)); try constructor;
    destruct (lt_dec r 10) as [Hlt|Hge]; try constructor; try lia.
  - reflexivity.
  - intros []. cbn [bind]. apply LockFree_bind.
    + apply LockFree_bind; [now apply (LockFree_perform_op (GetServices c))|
                            intros ?; apply LockFree_lift_result].
    + intros sv'. apply IH. lia.
Qed.

Lemma LockFree_poll_services c sv r : LockFree (poll_services c sv r).
Proof. unfold poll_services. now apply (LockFree_poll_loop c (10 - r)). Qed.

Ltac lock_free :=
  repeat first
    [ apply LockFree_poll_services
    | apply LockFree_lift_result
    | match goal with
      | |- LockFree (perform_op ?o) => apply (LockFree_perform_op o); reflexivity
      end
    | apply LockFree_bind; [|intros ?]
    | apply LockFree_try_except; [|intros ?]
    | apply LF_ret
    | apply LF_raise
    | match goal with
      | |- LockFree (if ?b then _ else _) => destruct b
      | |- LockFree (match ?x with _ => _ end) => destruct x
      end ].

Lemma Outside_scan_and_connect name timeout : Outside (scan_and_connect name timeout).
Proof.
  unfold scan_and_connect, bleak_available.
  apply Locking_bind; [now apply (Outside_local_op BleakAvailable)|]. intros ok.
  destruct (negb ok); [constructor|].
  apply Outside_with_lock.
  unfold get_ble, modify_ble, BleakScanner_discover, client_connect, client_services,
    client_disconnect, write_log.
  lock_free.
Qed.

Lemma Outside_disconnect : Outside disconnect.
Proof.
  unfold disconnect. apply Outside_with_lock.
  unfold get_ble, modify_ble, client_disconnect. lock_free.
Qed.

Lemma Outside_send payload rr : Outside (send payload rr).
Proof.
  unfold send. apply Outside_with_lock.
  unfold get_ble, client_write_gatt_char. lock_free.
Qed.

Ltac outside :=
  repeat first
    [ apply Outside_scan_and_connect
    | apply Outside_disconnect
    | apply Outside_send
    | match goal with
      | |- Outside (perform_op ?o) => apply (Outside_local_op o); reflexivity
      | |- Locking false (perform_op ?o) => apply (Outside_local_op o); reflexivity
      end
    | apply Locking_bind; [|intros ?]
    | apply Locking_try_except; [|intros ?]
    | apply L_ret
    | apply L_raise
    | match goal with
      | |- Outside (if ?b then _ else _) => destruct b
      | |- Locking false (if ?b then _ else _) => destruct b
      | |- Outside (match ?x with _ => _ end) => destruct x
      | |- Locking false (match ?x with _ => _ end) => destruct x
      end ].

Lemma Outside_connect_and_update : Outside _connect_and_update.
Proof. unfold _connect_and_update, set_status. outside. Qed.

Lemma Outside_send_command payload : Outside (_send_command payload).
Proof. unfold _send_command, set_status, get_ble. outside. Qed.

Lemma Outside_schedule_coroutine A (coro : Prog A) :
  Outside coro -> Outside (_schedule_coroutine coro).
Proof.
  intros H. unfold _schedule_coroutine. apply Locking_try_except; [exact H|].
  intros e. unfold write_log. apply Locking_bind; [|intros; constructor].
  now apply (Outside_local_op (WriteLog _)).
Qed.

Lemma Outside_on_button name : Outside (on_button name).
Proof.
  unfold on_button, set_status, showerror.
  destruct (dict_get COMMANDS name) as [b|]; [destruct (negb (truthy_str b))|].
  - now apply (Outside_local_op (ShowError _ _)).
  - cbv zeta. apply Locking_try_except;
      [apply Outside_schedule_coroutine, Outside_send_command|].
    intros e. now apply (Outside_local_op (SetStatus _)).
  - now apply (Outside_local_op (ShowError _ _)).
Qed.

Lemma Outside_program op : Outside (program op).
Proof.
  destruct op; cbn [program].
  - apply Locking_bind; [apply Outside_scan_and_connect|intros; constructor].
  - apply Outside_disconnect.
  - apply Outside_send.
  - apply Outside_connect_and_update.
  - apply Outside_send_command.
  - apply Outside_on_button.
Qed.

End Discipline.

(** * Mutual exclusion on the event loop *)

Section Exclusion.
Context {rt : Runtime}.
Variable ad : Adapter.

Lemma nth_error_update A i (x : A) l j :
  nth_error (update i x l) j =
  if Nat.eqb i j
  then match nth_error l i with Some _ => Some x | None => None end
  else nth_error l j.
Proof.
  revert i j. induction l as [|y l IH]; intros i j.
  - destruct (Nat.eqb i j); destruct i, j; reflexivity.
  - destruct i as [|i], j as [|j]; cbn [update nth_error Nat.eqb]; auto.
Qed.

Lemma nth_error_set_task i t ts j :
  nth_error (set_task i t ts) j =
  if Nat.eqb i j
  then match nth_error ts i with Some _ => Some t | None => None end
  else nth_error ts j.
Proof. apply nth_error_update. Qed.

Lemma is_local_no_lock o : is_local o = true -> lock_effect o = NoLock /\ is_await o = false.
Proof. destruct o; cbn; intros H; try discriminate; auto. Qed.

Lemma holder_other lk i j : holder lk i = true -> j <> i -> holder lk j = false.
Proof.
  unfold holder. destruct lk as [h|]; [|discriminate].
  intros H Hj. apply Nat.eqb_eq in H. subst h. apply Nat.eqb_neq. congruence.
Qed.

Lemma holder_self i : holder (Some i) i = true.
Proof. apply Nat.eqb_refl. Qed.

Lemma holder_some_other i j : j <> i -> holder (Some i) j = false.
Proof. intros H. apply Nat.eqb_neq. congruence. Qed.

(** Replacing task [i] and the lock keeps the discipline when the other
    tasks see the same lock as before. *)
Lemma disciplined_update L i t s' lk' t' :
  disciplined L ->
  nth_error (tasks L) i = Some t ->
  (forall j, j <> i -> holder lk' j = holds L j) ->
  (if holder lk' i then Inside (task_prog t')
   else Outside (task_prog t') /\ in_flight t' = false) ->
  disciplined (mkLoop s' lk' (set_task i t' (tasks L))).
Proof.
  intros HL Hi Hlk Hnew j tj Hj. unfold holds. cbn [tasks lock] in *.
  rewrite nth_error_set_task in Hj. destruct (Nat.eqb i j) eqn:Eij.
  - apply Nat.eqb_eq in Eij. subst j. rewrite Hi in Hj. injection Hj as <-. exact Hnew.
  - apply Nat.eqb_neq in Eij. rewrite Hlk by auto. exact (HL j tj Hj).
Qed.

Lemma step_disciplined i L L' :
  disciplined L -> step ad i L = Some L' -> disciplined L'.
Proof.
  intros HL Hstep. unfold step in Hstep.
  destruct (nth_error (tasks L) i) as [t|] eqn:Hi; [|discriminate].
  pose proof (HL i t Hi) as Hti.
  destruct t as [p|p]; cbn [task_prog in_flight] in Hti.
  - (* a ready task *)
    destruct (holds L i) eqn:Hh.
    + (* the holder *)
      inversion Hti as [| | | |o k Ho Hk Hp|k Hk Hp]; subst p.
      * destruct (exec_op ad o (sys L)) as [r s']. rewrite Ho in Hstep.
        injection Hstep as <-. eapply disciplined_update; eauto.
        fold (holds L i). rewrite Hh. destruct (is_await o); apply Hk.
      * cbn in Hstep. injection Hstep as <-. eapply disciplined_update; eauto.
        -- intros j Hj. cbn [holder]. symmetry. eapply holder_other; eauto.
        -- cbn [holder task_prog in_flight]. split; [exact Hk|reflexivity].
    + (* a task that does not hold the lock *)
      destruct Hti as [Hout _].
      inversion Hout as [a Hp|e Hp|o k Ho Hk Hp|k Hk Hp| |]; subst p; try discriminate.
      * destruct (exec_op ad o (sys L)) as [r s'].
        destruct (is_local_no_lock o Ho) as [Hno Haw]. rewrite Hno, Haw in Hstep.
        injection Hstep as <-. eapply disciplined_update; eauto.
        fold (holds L i). rewrite Hh. split; [apply Hk|reflexivity].
      * cbn in Hstep. destruct (lock L) as [h|] eqn:Elk; [discriminate|].
        injection Hstep as <-. eapply disciplined_update; eauto.
        -- intros j Hj. unfold holds. rewrite Elk. now apply holder_some_other.
        -- rewrite holder_self. exact Hk.
  - (* a call in flight completes *)
    injection Hstep as <-. eapply disciplined_update; eauto.
    fold (holds L i). destruct (holds L i); [exact Hti|].
    destruct Hti as [_ Hfl]. discriminate.
Qed.

Lemma exec_disciplined sched L L' :
  disciplined L -> exec ad sched L = Some L' -> disciplined L'.
Proof.
  revert L. induction sched as [|i sched IH]; intros L HL Hexec; cbn [exec] in Hexec.
  - now injection Hexec as <-.
  - destruct (step ad i L) as [L1|] eqn:Hstep; [|discriminate].
    eapply IH; [|exact Hexec]. eapply step_disciplined; eauto.
Qed.

Lemma submit_disciplined s ps : Forall Outside ps -> disciplined (submit s ps).
Proof.
  intros Hps i t Hi. cbn [submit tasks lock] in *.
  apply nth_error_In, in_map_iff in Hi as (p & <- & Hp).
  rewrite Forall_forall in Hps. split; [now apply Hps|reflexivity].
Qed.

(** In a disciplined loop only the lock holder has a call in flight. *)
Lemma disciplined_in_flight L i t :
  disciplined L -> nth_error (tasks L) i = Some t -> in_flight t = true ->
  lock L = Some i.
Proof.
  intros HL Hi Hfl. specialize (HL i t Hi). unfold holds, holder in HL.
  destruct (lock L) as [h|]; [|destruct HL; congruence].
  destruct (Nat.eqb h i) eqn:E; [apply Nat.eqb_eq in E; now subst|].
  destruct HL; congruence.
Qed.

(** A step taken by a task that does not hold the lock leaves the
    controller alone and makes no transport call. *)
Lemma disciplined_outside_step L i L' :
  disciplined L -> step ad i L = Some L' -> lock L <> Some i ->
  lock_free_step L L'.
Proof.
  intros HL Hstep Hlk. unfold step in Hstep. unfold lock_free_step.
  destruct (nth_error (tasks L) i) as [t|] eqn:Hi; [|discriminate].
  pose proof (HL i t Hi) as Hti.
  assert (Hh : holds L i = false).
  { unfold holds, holder. destruct (lock L) as [h|]; auto. apply Nat.eqb_neq. congruence. }
  rewrite Hh in Hti. destruct Hti as [Hout Hfl].
  destruct t as [p|p]; [|discriminate]. cbn [task_prog] in Hout.
  inversion Hout as [a Hp|e Hp|o k Ho Hk Hp|k Hk Hp| |]; subst p; try discriminate.
  - destruct o; try discriminate; cbn in Hstep; injection Hstep as <-;
      cbn [sys ble history emit]; rewrite ?filter_app, ?app_nil_r; auto.
  - cbn in Hstep. destruct (lock L); [discriminate|]. injection Hstep as <-. auto.
Qed.
End Exclusion.

(** * Concurrent sends *)

Section SendProtocol.
Context {rt : Runtime}.

(** The polling loop, in any context that passes operations through. *)
Lemma Follows_poll_loop (E : Prog (option (list Service) * nat) -> Prog unit) c pl :
  (forall o k, E (Vis o k) = Vis o (fun r => E (k r))) ->
  (forall n polled, n <= 10 -> Follows (PPoll c n pl) (E (Ret polled))) ->
  forall k n variant sv,
    10 - n = k -> n <= 10 -> Follows (PPoll c n pl) (E (poll_loop c sv n variant)).
Proof.
  intros HE Hret. induction k as [|k IH]; intros n variant sv Hk Hn;
    destruct variant as [h]; cbn [poll_loop];
    destruct (negb (truthy_services sv)); try (now apply Hret);
    destruct (lt_dec n 10) as [Hlt|Hge]; try (now apply Hret); try lia.
  unfold sleep, client_services. cbn [bind perform_op].
  rewrite HE. apply F_poll_sleep; [exact Hlt|].
  rewrite HE. apply F_serv. intros sv'. cbn [bind lift_result].
  replace (S n) with (n + 1) by lia. apply IH; lia.
Qed.

Lemma Follows_poll (E : Prog (option (list Service) * nat) -> Prog unit) c pl :
  (forall o k, E (Vis o k) = Vis o (fun r => E (k r))) ->
  (forall n polled, n <= 10 -> Follows (PPoll c n pl) (E (Ret polled))) ->
  forall sv n, n <= 10 -> Follows (PPoll c n pl) (E (poll_services c sv n)).
Proof.
  intros HE Hret sv n Hn. unfold poll_services.
  now apply (Follows_poll_loop E c pl HE Hret (10 - n)).
Qed.

Ltac prog_cbn :=
  cbn [bind try_except perform_op lift_result negb get_ble modify_ble set_status
       bleak_available BleakScanner_discover client_connect client_services
       client_write_gatt_char].

(** From the entry of [send] to the end of the coroutine. *)
Lemma Follows_send_tail pl :
  Follows (PSend pl)
    (try_except
       (bind (send pl REQUIRE_RESPONSE_ON_WRITE)
             (fun _ => set_status ("Sent: " ++ decode_utf8_replace pl)%string))
       (fun e => bind (set_status ("Send failed: " ++ exn_msg e)%string) (fun _ => Raise e))).
Proof.
  unfold send, with_lock. prog_cbn.
  apply F_send, F_guard. intros self c u Hc Hcl Hu Hne.
  assert (Hg : send_guard self = true).
  { unfold send_guard. rewrite Hcl, Hc, Hu. now apply truthy_str_true. }
  rewrite Hg, Hcl, Hu. prog_cbn.
  apply F_write. intros [e|[]]; prog_cbn.
  - apply F_written, F_done_status, F_done_raise.
  - apply F_written, F_done_status, F_done_ret.
Qed.

Lemma Follows_send_command pl : Follows (PStart pl) (_send_command pl).
Proof.
  unfold _send_command. prog_cbn.
  apply F_start_read. intros self. destruct (connected self); prog_cbn.
  - apply Follows_send_tail.
  - unfold scan_and_connect, with_lock. prog_cbn.
    apply F_start_bleak. prog_cbn. apply F_start_acquire, F_enter.
    intros self'. destruct (connected self'); prog_cbn.
    + apply F_leave. prog_cbn. apply Follows_send_tail.
    + apply F_scan. intros devices target Hf. prog_cbn. rewrite Hf. prog_cbn.
      apply F_addr, F_open. prog_cbn. apply F_serv. intros sv. prog_cbn.
      match goal with
      | |- Follows _ ?P =>
          match P with
          | context [poll_services ?c ?v ?n] => pattern (poll_services c v n)
          end
      end.
      match goal with
      | |- (fun p => Follows _ (@?E p)) _ =>
          apply (Follows_poll E (BleakClient (d_address target)) pl)
      end.
      * reflexivity.
      * intros n polled Hn. prog_cbn.
        apply F_poll_done. apply F_char; [apply or_default_nonempty|].
        apply F_flag, F_leave. prog_cbn. apply Follows_send_tail.
      * lia.
Qed.
End SendProtocol.

(** * Coherence of concurrent sends *)

Section ListUpdate.
Context {rt : Runtime}.
Context {A : Type}.

Lemma update_split i (x y : A) l :
  nth_error l i = Some x ->
  exists pre post, l = pre ++ x :: post /\ update i y l = pre ++ y :: post.
Proof.
  revert i. induction l as [|z l IH]; intros i H.
  - destruct i; discriminate.
  - destruct i as [|i]; cbn [nth_error update] in *.
    + injection H as ->. now exists [], l.
    + destruct (IH i H) as (pre & post & -> & ->). now exists (z :: pre), post.
Qed.

Lemma length_update i (y : A) l : length (update i y l) = length l.
Proof.
  revert i. induction l as [|z l IH]; intros [|i]; cbn [update length]; auto.
Qed.

Lemma flat_map_update_same B (f : A -> list B) i x y l :
  nth_error l i = Some x -> f y = f x ->
  flat_map f (update i y l) = flat_map f l.
Proof.
  intros H Hf. destruct (update_split i x y l H) as (pre & post & -> & ->).
  rewrite !flat_map_app. cbn [flat_map]. now rewrite Hf.
Qed.

Lemma flat_map_update_new B (f : A -> list B) i x y l :
  nth_error l i = Some x -> f x = [] ->
  Permutation (flat_map f l ++ f y) (flat_map f (update i y l)).
Proof.
  intros H Hf. destruct (update_split i x y l H) as (pre & post & -> & ->).
  rewrite !flat_map_app. cbn [flat_map]. rewrite Hf. cbn [app].
  rewrite <- app_assoc. apply Permutation_app_head, Permutation_app_comm.
Qed.

Lemma map_update_same B (f : A -> B) i x y l :
  nth_error l i = Some x -> f y = f x -> map f (update i y l) = map f l.
Proof.
  intros H Hf. destruct (update_split i x y l H) as (pre & post & -> & ->).
  rewrite !map_app. cbn [map]. now rewrite Hf.
Qed.
End ListUpdate.

Section Coherence.
Context {rt : Runtime}.
Variable ad : Adapter.
Variable h0 : list Event.
Hypothesis Hcoop : cooperative ad.

(** Replacing task [i], its phase, the lock and the state. *)
Lemma coherent_update L phs i ph t s' lk' ph' t' :
  coherent h0 L phs ->
  nth_error phs i = Some ph ->
  nth_error (tasks L) i = Some t ->
  Follows ph' (task_prog t') ->
  inside_phase ph' = holder lk' i ->
  (forall j, j <> i -> holder lk' j = holds L j) ->
  phase_ok h0 s' ph' ->
  (forall j phj, j <> i -> nth_error phs j = Some phj ->
     phase_ok h0 (sys L) phj -> phase_ok h0 s' phj) ->
  (connected (ble s') = false -> connecting ph' = false ->
   (forall j phj, j <> i -> nth_error phs j = Some phj -> connecting phj = false) ->
   history s' = h0) ->
  (connected (ble s') = true ->
   exists c u n W,
     client (ble s') = Some c /\ char_uuid (ble s') = Some u /\ u <> "" /\ n <= 10 /\
     history s' = h0 ++ opening c n ++ W /\
     Permutation W (flat_map (written c u) (update i ph' phs))) ->
  coherent h0 (mkLoop s' lk' (set_task i t' (tasks L))) (update i ph' phs).
Proof.
  intros HL Hph Ht Hf Hin Hlk Hok Hoth Hidle Hconn.
  destruct HL as [Hlen Hfol Hlock Hphase _ _].
  split; cbn [tasks sys lock]; unfold holds; cbn [lock].
  - unfold set_task. now rewrite !length_update.
  - intros j phj tj. rewrite nth_error_update, nth_error_set_task.
    destruct (Nat.eqb i j) eqn:E.
    + rewrite Hph, Ht. intros H1 H2. injection H1 as <-. injection H2 as <-. exact Hf.
    + apply Hfol.
  - intros j phj. rewrite nth_error_update. destruct (Nat.eqb i j) eqn:E.
    + apply Nat.eqb_eq in E. subst j. rewrite Hph. intros H; injection H as <-. exact Hin.
    + apply Nat.eqb_neq in E. intros H. rewrite Hlk by congruence. now apply Hlock.
  - intros j phj. rewrite nth_error_update. destruct (Nat.eqb i j) eqn:E.
    + rewrite Hph. intros H; injection H as <-. exact Hok.
    + apply Nat.eqb_neq in E. intros H. apply (Hoth j); auto. now apply (Hphase j).
  - intros Hc Hall. apply Hidle; auto.
    + apply (Hall i). rewrite nth_error_update, Nat.eqb_refl, Hph. reflexivity.
    + intros j phj Hj H. apply (Hall j). rewrite nth_error_update.
      replace (Nat.eqb i j) with false by (symmetry; apply Nat.eqb_neq; congruence).
      exact H.
  - exact Hconn.
Qed.

Lemma phase_ok_same s s' ph :
  ble s' = ble s -> history s' = history s -> phase_ok h0 s ph -> phase_ok h0 s' ph.
Proof. unfold phase_ok. intros -> ->. auto. Qed.

(** A step that changes neither the controller nor the history, nor what
    the task has contributed so far. *)
Lemma coherent_quiet L phs i ph t s' lk' ph' t' :
  coherent h0 L phs ->
  nth_error phs i = Some ph ->
  nth_error (tasks L) i = Some t ->
  ble s' = ble (sys L) -> history s' = history (sys L) ->
  Follows ph' (task_prog t') ->
  inside_phase ph' = holder lk' i ->
  (forall j, j <> i -> holder lk' j = holds L j) ->
  phase_ok h0 s' ph' ->
  (connecting ph = true -> connecting ph' = true) ->
  (forall c u, written c u ph' = written c u ph) ->
  coherent h0 (mkLoop s' lk' (set_task i t' (tasks L))) (update i ph' phs).
Proof.
  intros HL Hph Ht Hb Hh Hf Hin Hlk Hok Hcon Hw.
  eapply coherent_update; eauto.
  - intros j phj _ _. now apply phase_ok_same.
  - intros Hc Hc' Hall. rewrite Hh. apply (co_idle _ _ _ HL); [congruence|].
    intros j phj Hj. destruct (Nat.eq_dec j i) as [->|Hji]; [|eauto].
    rewrite Hph in Hj. injection Hj as <-.
    destruct (connecting ph); auto. rewrite Hcon in Hc'; auto.
  - intros Hc. rewrite Hb in Hc. destruct (co_conn _ _ _ HL Hc) as (c & u & n & W & H1 & H2 & H3 & H4 & H5 & H6).
    exists c, u, n, W. rewrite Hb, Hh. repeat split; auto.
    now rewrite (@flat_map_update_same _ _ (written c u) i ph ph' phs Hph (Hw c u)).
Qed.

(** While task [i] holds the lock the other tasks are in phases that only
    depend on the connected flag staying set. *)
Lemma others_outside L phs i ph j phj s' :
  coherent h0 L phs ->
  nth_error phs i = Some ph -> inside_phase ph = true ->
  j <> i -> nth_error phs j = Some phj ->
  (connected (ble (sys L)) = true -> connected (ble s') = true) ->
  phase_ok h0 (sys L) phj ->
  phase_ok h0 s' phj /\ connecting phj = false /\
  (connected (ble (sys L)) = false -> forall c u, written c u phj = []).
Proof.
  intros HL Hph Hin Hji Hj Hc Hok.
  assert (Hout : inside_phase phj = false).
  { rewrite (co_lock _ _ _ HL j phj Hj). apply (holder_other (lock L) i); auto.
    fold (holds L i). now rewrite <- (co_lock _ _ _ HL i ph Hph). }
  destruct phj; try discriminate; cbn in *; repeat split; auto; congruence.
Qed.

Lemma update_same A i (x : A) l : nth_error l i = Some x -> update i x l = l.
Proof.
  revert i. induction l as [|y l IH]; intros [|i] H; cbn [update nth_error] in *;
    try discriminate; auto.
  - now injection H as ->.
  - now rewrite IH.
Qed.

Lemma coherent_phase L phs i t :
  coherent h0 L phs -> nth_error (tasks L) i = Some t ->
  exists ph, nth_error phs i = Some ph /\ Follows ph (task_prog t) /\
             inside_phase ph = holds L i /\ phase_ok h0 (sys L) ph.
Proof.
  intros HL Ht.
  destruct (nth_error phs i) as [ph|] eqn:Hph.
  - exists ph. split; auto. split; [|split].
    + eapply co_follows; eauto.
    + eapply co_lock; eauto.
    + eapply co_phase; eauto.
  - apply nth_error_None in Hph. rewrite (co_length _ _ _ HL) in Hph.
    apply nth_error_None in Hph. congruence.
Qed.

(** A step of the lock holder that stays within the connect sequence. *)
Lemma coherent_connecting L phs i ph t s' ph' t' :
  coherent h0 L phs ->
  nth_error phs i = Some ph ->
  nth_error (tasks L) i = Some t ->
  inside_phase ph = true ->
  connected (ble (sys L)) = false ->
  connecting ph' = true ->
  phase_ok h0 s' ph' ->
  Follows ph' (task_prog t') ->
  coherent h0 (mkLoop s' (lock L) (set_task i t' (tasks L))) (update i ph' phs).
Proof.
  intros HL Hph Ht Hin Hc Hcon Hok Hf.
  assert (Hc' : connected (ble s') = false).
  { destruct ph'; try discriminate; cbn in Hok; tauto. }
  eapply coherent_update; eauto.
  - change (holder (lock L) i) with (holds L i).
    rewrite <- (co_lock _ _ _ HL i ph Hph), Hin. destruct ph'; try discriminate; reflexivity.
  - intros j phj Hji Hj Hokj.
    apply (others_outside L phs i ph j phj s' HL Hph Hin Hji Hj); auto. congruence.
  - congruence.
  - congruence.
Qed.

Lemma flat_map_nil A B (f : A -> list B) l :
  (forall j x, nth_error l j = Some x -> f x = []) -> flat_map f l = [].
Proof.
  induction l as [|x l IH]; intros H; cbn [flat_map]; auto.
  rewrite (H 0 x eq_refl), IH; auto. intros j y Hj. apply (H (S j)). exact Hj.
Qed.

Lemma step_coherent i L L' phs :
  coherent h0 L phs -> step ad i L = Some L' ->
  exists phs', coherent h0 L' phs' /\ map payload_of phs' = map payload_of phs.
Proof.
  intros HL Hstep. unfold step in Hstep.
  destruct (nth_error (tasks L) i) as [t|] eqn:Ht; [|discriminate].
  destruct (coherent_phase L phs i t HL Ht) as (ph & Hph & Hf & Hin & Hok).
  destruct Hcoop as (Hbleak & Hdisc & Hopen & Hserv).
  destruct t as [p|p]; cbn [task_prog] in Hf.
  2: { injection Hstep as <-. exists phs. split; [|reflexivity].
       rewrite <- (update_same _ i ph phs Hph).
       eapply coherent_quiet; eauto. }
  assert (Hothers : inside_phase ph = true ->
            forall j phj, j <> i -> nth_error phs j = Some phj ->
            inside_phase phj = false).
  { intros Hi j phj Hji Hj. rewrite (co_lock _ _ _ HL j phj Hj).
    apply (holder_other (lock L) i); auto. fold (holds L i). congruence. }
  inversion Hf as
    [ pl k Hk | pl k Hk | pl k Hk | pl k Hk | pl k Hk | c a pl k Hk | c pl k Hk
    | c n pl k Hk | c n pl k Hn Hk | c n pl k Hk | c u n pl k Hu Hk | c u n pl k Hk
    | pl k Hk | pl k Hk | pl k Hk | c u pl k Hk | pl k Hk | pl txt k Hk | pl a | pl e ];
    subst; cbn in Hstep; try discriminate; cbn [phase_ok inside_phase] in Hok, Hin.
  - (* PStart: reads the connected flag *)
    injection Hstep as <-.
    exists (update i (if connected (ble (sys L)) then PSend pl else PStart pl) phs).
    split; [|eapply map_update_same; [exact Hph|destruct (connected (ble (sys L))); reflexivity]].
    eapply coherent_quiet; eauto; try discriminate.
    all: first [ destruct (connected (ble (sys L))); exact Hin
               | destruct (connected (ble (sys L))) eqn:E; cbn; auto; fail
               | intros c u; destruct (connected (ble (sys L))); reflexivity
               | destruct (connected (ble (sys L))); discriminate ].
  - (* PStart: checks that the library is there *)
    rewrite Hbleak in Hstep. injection Hstep as <-.
    exists (update i (PStart pl) phs).
    split; [|eapply map_update_same; [exact Hph|reflexivity]].
    eapply coherent_quiet; eauto.
  - (* PStart: takes the lock *)
    destruct (lock L) as [h|] eqn:Elk; [discriminate|]. injection Hstep as <-.
    exists (update i (PEnter pl) phs).
    split; [|eapply map_update_same; [exact Hph|reflexivity]].
    eapply coherent_quiet; eauto; try discriminate.
    all: first [ symmetry; apply holder_self
               | intros j Hj; unfold holds; rewrite Elk; now apply holder_some_other
               | exact I ].
  - (* PEnter: reads the connected flag under the lock *)
    injection Hstep as <-.
    destruct (connected (ble (sys L))) eqn:Ec.
    + exists (update i (PLeave pl) phs).
      split; [|eapply map_update_same; [exact Hph|reflexivity]].
      specialize (Hk (ble (sys L))). rewrite Ec in Hk.
      eapply coherent_quiet; eauto; try discriminate.
    + exists (update i (PScan pl) phs).
      split; [|eapply map_update_same; [exact Hph|reflexivity]].
      specialize (Hk (ble (sys L))). rewrite Ec in Hk.
      eapply coherent_connecting; eauto. cbn. split; [exact Ec|].
      apply (co_idle _ _ _ HL Ec). intros j phj Hj.
      destruct (Nat.eq_dec j i) as [->|Hji].
      * rewrite Hph in Hj. now injection Hj as <-.
      * pose proof (Hothers eq_refl j phj Hji Hj) as Ho.
        destruct phj; try discriminate; reflexivity.
  - (* PScan: the scan *)
    destruct Hok as [Hc Hh].
    destruct (Hdisc (history (sys L)) 5.0%Q) as (devices & target & Hd & Hft).
    rewrite Hd in Hstep. injection Hstep as <-.
    exists (update i (PAddr (BleakClient (d_address target)) pl) phs).
    split; [|eapply map_update_same; [exact Hph|reflexivity]].
    eapply coherent_connecting; eauto. cbn. split; [exact Hc|]. now rewrite Hh.
  - (* PAddr: stores the address *)
    destruct Hok as [Hc Hh]. injection Hstep as <-.
    exists (update i (POpen c pl) phs).
    split; [|eapply map_update_same; [exact Hph|reflexivity]].
    eapply coherent_connecting; eauto. cbn. auto.
  - (* POpen: the open *)
    destruct Hok as [Hc Hh]. rewrite Hopen in Hstep. injection Hstep as <-.
    exists (update i (PServ c 0 pl) phs).
    split; [|eapply map_update_same; [exact Hph|reflexivity]].
    eapply coherent_connecting; eauto. cbn. split; [exact Hc|]. split; [lia|].
    rewrite Hh, <- app_assoc. reflexivity.
  - (* PServ: reads the services *)
    destruct Hok as (Hc & Hn & Hh).
    destruct (Hserv (history (sys L)) c) as [sv Hsv]. rewrite Hsv in Hstep.
    injection Hstep as <-.
    exists (update i (PPoll c n pl) phs).
    split; [|eapply map_update_same; [exact Hph|reflexivity]].
    eapply coherent_connecting; eauto. cbn. auto.
  - (* PPoll: sleeps *)
    destruct Hok as (Hc & _ & Hh). injection Hstep as <-.
    exists (update i (PServ c (S n) pl) phs).
    split; [|eapply map_update_same; [exact Hph|reflexivity]].
    eapply coherent_connecting; eauto. cbn. split; [exact Hc|]. split; [lia|].
    rewrite Hh. unfold opening. rewrite <- !app_assoc. cbn [app]. now rewrite sleeps_snoc.
  - (* PPoll: stores the handle *)
    destruct Hok as (Hc & Hn & Hh). injection Hstep as <-.
    exists (update i (PChar c n pl) phs).
    split; [|eapply map_update_same; [exact Hph|reflexivity]].
    eapply coherent_connecting; eauto. cbn. auto.
  - (* PChar: stores the write target *)
    destruct Hok as (Hc & Hn & Hh & Hcl). injection Hstep as <-.
    exists (update i (PFlag c u n pl) phs).
    split; [|eapply map_update_same; [exact Hph|reflexivity]].
    eapply coherent_connecting; eauto. cbn. auto 7.
  - (* PFlag: sets the connected flag *)
    destruct Hok as (Hc & Hn & Hh & Hcl & Hcu & Hne). injection Hstep as <-.
    exists (update i (PLeave pl) phs).
    split; [|eapply map_update_same; [exact Hph|reflexivity]].
    eapply coherent_update; eauto.
    + reflexivity.
    + intros j phj Hji Hj Hokj.
      apply (others_outside L phs i (PFlag c u n pl) j phj _ HL Hph eq_refl Hji Hj); auto;
        congruence.
    + discriminate.
    + intros _. exists c, u, n, []. cbn. rewrite app_nil_r.
      repeat split; auto.
      replace (flat_map (written c u) (update i (PLeave pl) phs)) with (@nil Event);
        [constructor|].
      symmetry. apply flat_map_nil. intros j phj. rewrite nth_error_update.
      destruct (Nat.eqb i j) eqn:E.
      * rewrite Hph. intros H; now injection H as <-.
      * apply Nat.eqb_neq in E. intros Hj.
        apply (others_outside L phs i (PFlag c u n pl) j phj (sys L) HL Hph eq_refl);
          auto. eapply co_phase; eauto.
  - (* PLeave: releases the lock *)
    injection Hstep as <-.
    exists (update i (PSend pl) phs).
    split; [|eapply map_update_same; [exact Hph|reflexivity]].
    eapply coherent_quiet; eauto; try discriminate.
    all: first [ intros j Hj; symmetry; apply (holder_other (lock L) i); auto; fail
               | exact Hok ].
  - (* PSend: takes the lock *)
    destruct (lock L) as [h|] eqn:Elk; [discriminate|]. injection Hstep as <-.
    exists (update i (PGuard pl) phs).
    split; [|eapply map_update_same; [exact Hph|reflexivity]].
    eapply coherent_quiet; eauto; try discriminate.
    all: first [ symmetry; apply holder_self
               | intros j Hj; unfold holds; rewrite Elk; now apply holder_some_other
               | exact Hok ].
  - (* PGuard: reads the handle and the write target *)
    injection Hstep as <-.
    destruct (co_conn _ _ _ HL Hok) as (c & u & n & W & Hcl & Hcu & Hne & _).
    exists (update i (PWrite c u pl) phs).
    split; [|eapply map_update_same; [exact Hph|reflexivity]].
    eapply coherent_quiet; eauto; try discriminate. cbn. auto.
  - (* PWrite: the write *)
    destruct Hok as (Hc & Hcl & Hcu).
    match type of Hstep with
    | Some (mkLoop _ _ (set_task _ (InFlight (k ?r)) _)) = _ => set (res := r) in *
    end.
    injection Hstep as <-.
    exists (update i (PWritten pl) phs).
    split; [|eapply map_update_same; [exact Hph|reflexivity]].
    eapply coherent_update; eauto.
    + intros j phj Hji Hj Hokj.
      apply (others_outside L phs i (PWrite c u pl) j phj _ HL Hph eq_refl Hji Hj); auto.
    + cbn. congruence.
    + intros _.
      destruct (co_conn _ _ _ HL Hc) as (c0 & u0 & n & W & Hcl0 & Hcu0 & Hne & Hn & Hh & HW).
      assert (c0 = c) by congruence. assert (u0 = u) by congruence. subst c0 u0.
      exists c, u, n, (W ++ [EWrite c u pl true]). cbn.
      repeat split; auto.
      * rewrite Hh, <- !app_assoc. reflexivity.
      * eapply Permutation_trans; [apply Permutation_app_tail; exact HW|].
        apply (@flat_map_update_new _ _ (written c u) i (PWrite c u pl) (PWritten pl) phs Hph).
        reflexivity.
  - (* PWritten: releases the lock *)
    injection Hstep as <-.
    exists (update i (PDone pl) phs).
    split; [|eapply map_update_same; [exact Hph|reflexivity]].
    eapply coherent_quiet; eauto; try discriminate.
    all: first [ intros j Hj; symmetry; apply (holder_other (lock L) i); auto; fail
               | exact Hok ].
  - (* PDone: reports *)
    injection Hstep as <-.
    exists (update i (PDone pl) phs).
    split; [|eapply map_update_same; [exact Hph|reflexivity]].
    eapply coherent_quiet; eauto.
Qed.
End Coherence.

Section ConcurrentSends.
Context {rt : Runtime}.
Variable ad : Adapter.
Hypothesis Hcoop : cooperative ad.

Lemma exec_coherent h0 sched L L' phs :
  coherent h0 L phs -> exec ad sched L = Some L' ->
  exists phs', coherent h0 L' phs' /\ map payload_of phs' = map payload_of phs.
Proof.
  revert L phs. induction sched as [|i sched IH]; intros L phs HL Hexec; cbn [exec] in Hexec.
  - injection Hexec as <-. eauto.
  - destruct (step ad i L) as [L1|] eqn:Hstep; [|discriminate].
    destruct (step_coherent ad h0 Hcoop i L L1 phs HL Hstep) as (phs1 & HL1 & Hp1).
    destruct (IH L1 phs1 HL1 Hexec) as (phs' & HL' & Hp'). exists phs'. split; congruence.
Qed.

Lemma submit_coherent s pls :
  connected (ble s) = false ->
  coherent (history s) (submit s (map _send_command pls)) (map PStart pls).
Proof.
  intros Hc. split; cbn [submit tasks sys lock].
  - now rewrite !length_map.
  - intros j ph t. rewrite !nth_error_map.
    destruct (nth_error pls j) as [pl|]; cbn; [|discriminate].
    intros H1 H2. injection H1 as <-. injection H2 as <-. apply Follows_send_command.
  - intros j ph. rewrite nth_error_map. destruct (nth_error pls j); cbn; [|discriminate].
    intros H; injection H as <-. reflexivity.
  - intros j ph. rewrite nth_error_map. destruct (nth_error pls j); cbn; [|discriminate].
    intros H; injection H as <-. exact I.
  - reflexivity.
  - congruence.
Qed.

(** When every coroutine has finished, each has written once. *)
Lemma finished_written h0 L phs c u :
  coherent h0 L phs ->
  forallb finished (tasks L) = true ->
  flat_map (written c u) phs = map (fun pl => EWrite c u pl true) (map payload_of phs) /\
  (forall j ph, nth_error phs j = Some ph -> connected (ble (sys L)) = true).
Proof.
  intros HL Hfin.
  assert (Hdone : forall j ph, nth_error phs j = Some ph -> ph = PDone (payload_of ph)).
  { intros j ph Hph.
    destruct (nth_error (tasks L) j) as [t|] eqn:Ht.
    - pose proof (co_follows _ _ _ HL j ph t Hph Ht) as Hf.
      rewrite forallb_forall in Hfin. specialize (Hfin t (nth_error_In _ _ Ht)).
      destruct t as [p|p]; [|discriminate]. cbn [task_prog] in Hf.
      destruct p; try discriminate; inversion Hf; reflexivity.
    - apply nth_error_None in Ht. rewrite <- (co_length _ _ _ HL) in Ht.
      apply nth_error_None in Ht. congruence. }
  split.
  - clear HL Hfin. induction phs as [|ph phs IH]; cbn [flat_map map]; auto.
    rewrite IH by (intros j; apply (Hdone (S j))).
    rewrite (Hdone 0 ph eq_refl). reflexivity.
  - intros j ph Hph. pose proof (co_phase _ _ _ HL j ph Hph) as Hok.
    rewrite (Hdone j ph Hph) in Hok. exact Hok.
Qed.

(** Every completed run of concurrent sends from a disconnected controller
    has made one scan, one open, the polls, and then one write per send. *)
Lemma concurrent_sends_history s pls sched L :
  connected (ble s) = false ->
  pls <> [] ->
  exec ad sched (submit s (map _send_command pls)) = Some L ->
  forallb finished (tasks L) = true ->
  exists c u n W,
    n <= 10 /\
    connected (ble (sys L)) = true /\
    client (ble (sys L)) = Some c /\ char_uuid (ble (sys L)) = Some u /\ u <> "" /\
    history (sys L) = history s ++ opening c n ++ W /\
    Permutation W (map (fun pl => EWrite c u pl true) pls).
Proof.
  intros Hc Hne Hexec Hfin.
  destruct (exec_coherent (history s) sched _ L _ (submit_coherent s pls Hc) Hexec)
    as (phs & HL & Hpl).
  rewrite map_map in Hpl. cbn [payload_of] in Hpl. rewrite map_id in Hpl.
  assert (Hconn : connected (ble (sys L)) = true).
  { destruct pls as [|pl pls]; [contradiction|].
    destruct phs as [|ph phs]; [discriminate|].
    apply (proj2 (finished_written _ L _ (BleakClient "") "" HL Hfin) 0 ph eq_refl). }
  destruct (co_conn _ _ _ HL Hconn) as (c & u & n & W & Hcl & Hcu & Hu & Hn & Hh & HW).
  exists c, u, n, W. repeat split; auto.
  rewrite (proj1 (finished_written _ L _ c u HL Hfin)), Hpl in HW. exact HW.
Qed.
End ConcurrentSends.

(** * Running to completion on the event loop *)

Section Completion.
Context {rt : Runtime}.
Variable ad : Adapter.

Lemma exec_app s1 s2 L :
  exec ad (s1 ++ s2) L =
  match exec ad s1 L with
  | Some L1 => exec ad s2 L1
  | None => None
  end.
Proof.
  revert L. induction s1 as [|i s1 IH]; intros L; cbn [exec app]; auto.
  destruct (step ad i L); auto.
Qed.

Lemma update_twice A i (x y : A) l : update i x (update i y l) = update i x l.
Proof.
  revert i. induction l as [|z l IH]; intros [|i]; cbn [update]; auto. now rewrite IH.
Qed.

Lemma nth_error_update_same A i (x y : A) l :
  nth_error l i = Some y -> nth_error (update i x l) i = Some x.
Proof. intros H. now rewrite nth_error_update, Nat.eqb_refl, H. Qed.

(** A coroutine that is the only one to step behaves as [run] says, and
    ends with the lock free. *)
Lemma solo_run held p :
  Locking held p ->
  forall L i,
    nth_error (tasks L) i = Some (Ready p) ->
    lock L = (if held then Some i else None) ->
    exists m,
      exec ad (repeat i m) L
        = Some (mkLoop (snd (run ad p (sys L))) None
                  (set_task i (Ready (outcome (fst (run ad p (sys L))))) (tasks L))).
Proof.
  intros Hp. induction Hp as [a|e|o k Ho Hk IH|k Hk IH|o k Ho Hk IH|k Hk IH];
    intros L i Ht Hlk.
  - exists 0. cbn. unfold set_task. rewrite (update_same _ _ _ _ Ht), <- Hlk.
    now destruct L.
  - exists 0. cbn. unfold set_task. rewrite (update_same _ _ _ _ Ht), <- Hlk.
    now destruct L.
  - destruct (is_local_no_lock o Ho) as [Hno Haw].
    cbn [run]. destruct (exec_op ad o (sys L)) as [r s'] eqn:Eo.
    destruct (IH r (mkLoop s' (lock L) (set_task i (Ready (k r)) (tasks L))) i) as [m Hm].
    { apply (nth_error_update_same _ i _ _ _ Ht). }
    { exact Hlk. }
    exists (S m). cbn [repeat exec]. unfold step. rewrite Ht, Eo, Hno, Haw.
    rewrite Hm. cbn [sys tasks]. unfold set_task. now rewrite update_twice.
  - cbn [run exec_op].
    destruct (IH (mkLoop (sys L) (Some i) (set_task i (Ready (k tt)) (tasks L))) i)
      as [m Hm].
    { apply (nth_error_update_same _ i _ _ _ Ht). }
    { reflexivity. }
    exists (S m). cbn [repeat exec]. unfold step. rewrite Ht.
    cbn [exec_op lock_effect]. rewrite Hlk.
    rewrite Hm. cbn [sys tasks]. unfold set_task. now rewrite update_twice.
  - cbn [run]. destruct (exec_op ad o (sys L)) as [r s'] eqn:Eo.
    destruct (IH r (mkLoop s' (lock L) (set_task i (Ready (k r)) (tasks L))) i) as [m Hm].
    { apply (nth_error_update_same _ i _ _ _ Ht). }
    { exact Hlk. }
    destruct (is_await o) eqn:Haw.
    + exists (S (S m)). cbn [repeat exec]. unfold step at 1. rewrite Ht, Eo, Ho, Haw.
      unfold step at 1. cbn [tasks sys lock]. unfold set_task in *.
      rewrite (nth_error_update_same _ i _ _ _ Ht), update_twice.
      rewrite Hm. cbn [sys tasks]. now rewrite update_twice.
    + exists (S m). cbn [repeat exec]. unfold step. rewrite Ht, Eo, Ho, Haw.
      rewrite Hm. cbn [sys tasks]. unfold set_task. now rewrite update_twice.
  - cbn [run exec_op].
    destruct (IH (mkLoop (sys L) None (set_task i (Ready (k tt)) (tasks L))) i) as [m Hm].
    { apply (nth_error_update_same _ i _ _ _ Ht). }
    { reflexivity. }
    exists (S m). cbn [repeat exec]. unfold step. rewrite Ht.
    cbn [exec_op lock_effect].
    rewrite Hm. cbn [sys tasks]. unfold set_task. now rewrite update_twice.
Qed.

Lemma update_middle A (x y : A) pre post :
  update (length pre) x (pre ++ y :: post) = pre ++ x :: post.
Proof. induction pre as [|z pre IH]; cbn [length app update]; auto. now rewrite IH. Qed.

(** Coroutines submitted together can always be run to completion, for
    instance one after the other. *)
Lemma run_in_turn done todo s :
  forallb finished done = true ->
  Forall Outside todo ->
  exists sched L,
    exec ad sched (mkLoop s None (done ++ map Ready todo)) = Some L /\
    lock L = None /\
    forallb finished (tasks L) = true /\
    sys L = run_each ad todo s.
Proof.
  intros Hdone Htodo. revert done s Hdone.
  induction Htodo as [|p todo Hp Htodo IH]; intros done s Hdone.
  - exists [], (mkLoop s None (done ++ [])). cbn. rewrite app_nil_r. auto.
  - assert (Ht : nth_error (done ++ map Ready (p :: todo)) (length done) = Some (Ready p)).
    { rewrite nth_error_app2, Nat.sub_diag by lia. reflexivity. }
    destruct (solo_run false p Hp (mkLoop s None (done ++ map Ready (p :: todo)))
                (length done) Ht eq_refl) as [m Hm].
    cbn [sys tasks map] in Hm. unfold set_task in Hm. rewrite update_middle in Hm.
    destruct (IH (done ++ [Ready (outcome (fst (run ad p s)))]) (snd (run ad p s)))
      as (sched & L & Hexec & Hlk & Hfin & Hsys).
    { rewrite forallb_app, Hdone. cbn. destruct (fst (run ad p s)); reflexivity. }
    rewrite <- app_assoc in Hexec. cbn [app] in Hexec.
    exists (repeat (length done) m ++ sched), L.
    rewrite exec_app. cbn [map]. rewrite Hm. auto.
Qed.

(** *** No deadlock *)

Lemma step_lock_valid i L L' :
  lock_valid L -> step ad i L = Some L' -> lock_valid L'.
Proof.
  unfold lock_valid, step. intros HL Hstep.
  destruct (nth_error (tasks L) i) as [t|] eqn:Ht; [|discriminate].
  assert (Hi : i < length (tasks L)) by (apply nth_error_Some; congruence).
  destruct t as [p|p].
  - destruct p as [a|e|o k]; try discriminate.
    destruct (exec_op ad o (sys L)) as [r s'].
    destruct (lock_effect o).
    + destruct (lock L); [discriminate|]. injection Hstep as <-. cbn.
      intros h H. injection H as <-. unfold set_task. now rewrite length_update.
    + injection Hstep as <-. cbn. discriminate.
    + injection Hstep as <-. cbn. unfold set_task. rewrite length_update. exact HL.
  - injection Hstep as <-. cbn. unfold set_task. rewrite length_update. exact HL.
Qed.

Lemma exec_lock_valid sched L L' :
  lock_valid L -> exec ad sched L = Some L' -> lock_valid L'.
Proof.
  revert L. induction sched as [|i sched IH]; intros L HL Hexec; cbn [exec] in Hexec.
  - now injection Hexec as <-.
  - destruct (step ad i L) as [L1|] eqn:Hstep; [|discriminate].
    eapply IH; [|exact Hexec]. eapply step_lock_valid; eauto.
Qed.

(** In a disciplined loop some task can step unless all have finished. *)
Lemma disciplined_progress L :
  disciplined L -> lock_valid L ->
  forallb finished (tasks L) = false ->
  exists i L', step ad i L = Some L'.
Proof.
  intros HL Hv Hfin. unfold step.
  destruct (lock L) as [h|] eqn:Elk.
  - (* the holder can step *)
    specialize (Hv h Elk). apply nth_error_Some in Hv.
    destruct (nth_error (tasks L) h) as [t|] eqn:Ht; [|congruence].
    pose proof (HL h t Ht) as Hti. unfold holds, holder in Hti.
    rewrite Elk, Nat.eqb_refl in Hti.
    exists h. rewrite Ht. destruct t as [p|p]; [|eauto]. cbn [task_prog] in Hti.
    inversion Hti as [| | | |o k Ho Hk Hp|k Hk Hp]; subst p.
    + destruct (exec_op ad o (sys L)) as [r s']. rewrite Ho. eauto.
    + cbn. eauto.
  - (* the lock is free: any unfinished task can step *)
    assert (Hex : exists i t, nth_error (tasks L) i = Some t /\ finished t = false).
    { clear HL Hv Elk. induction (tasks L) as [|t ts IH]; [discriminate|].
      cbn [forallb] in Hfin. apply andb_false_iff in Hfin as [Hf|Hf].
      - exists 0, t. auto.
      - destruct (IH Hf) as (i & t' & Hi & Ht'). exists (S i), t'. auto. }
    destruct Hex as (i & t & Ht & Hft). exists i. rewrite Ht.
    pose proof (HL i t Ht) as Hti. unfold holds, holder in Hti. rewrite Elk in Hti.
    destruct Hti as [Hout Hfl]. destruct t as [p|p]; [|discriminate].
    cbn [task_prog] in Hout.
    inversion Hout as [a Hp|e Hp|o k Ho Hk Hp|k Hk Hp| |]; subst p; try discriminate.
    + destruct (exec_op ad o (sys L)) as [r s'].
      destruct (is_local_no_lock o Ho) as [Hno Haw]. rewrite Hno. eauto.
    + cbn. eauto.
Qed.
End Completion.

(** * The exclusive section *)

(** C2.  On the event loop, whatever the operations submitted and however
    the loop interleaves them: only the coroutine inside the lock has a
    transport call in flight (so at most one call is in flight at a time), a
    step of any other coroutine neither touches the controller nor calls
    the transport, and the loop never deadlocks.  Two sends submitted
    together on a disconnected controller can always be run to completion;
    and when the robot is in range and accepts the connection, every
    completed interleaving has made exactly one scan and one open (plus the
    polls), followed by the two writes, one after the other, on that one
    connection. *)
Theorem exclusive_section {rt : Runtime} :
  (forall ad s ops sched L,
     exec ad sched (submit s (map program ops)) = Some L ->
     (forall i t, nth_error (tasks L) i = Some t -> in_flight t = true -> lock L = Some i) /\
     (forall i j ti tj,
        nth_error (tasks L) i = Some ti -> nth_error (tasks L) j = Some tj ->
        in_flight ti = true -> in_flight tj = true -> i = j) /\
     (forall i L', step ad i L = Some L' -> lock L <> Some i -> lock_free_step L L') /\
     (forallb finished (tasks L) = false -> exists i L', step ad i L = Some L')) /\
  (forall ad s pl1 pl2,
     connected (ble s) = false ->
     (exists sched L,
        exec ad sched (submit s [_send_command pl1; _send_command pl2]) = Some L /\
        forallb finished (tasks L) = true) /\
     (cooperative ad ->
      forall sched L,
        exec ad sched (submit s [_send_command pl1; _send_command pl2]) = Some L ->
        forallb finished (tasks L) = true ->
        exists c u n,
          n <= 10 /\
          connected (ble (sys L)) = true /\
          client (ble (sys L)) = Some c /\ char_uuid (ble (sys L)) = Some u /\
          (history (sys L)
             = history s ++ opening c n ++ [EWrite c u pl1 true; EWrite c u pl2 true] \/
           history (sys L)
             = history s ++ opening c n ++ [EWrite c u pl2 true; EWrite c u pl1 true]))).
Proof.
  split.
  - intros ad s ops sched L Hexec.
    assert (Hout : Forall Outside (map program ops)).
    { apply Forall_forall. intros p Hp. apply in_map_iff in Hp as (op & <- & _).
      apply Outside_program. }
    pose proof (exec_disciplined ad sched _ L (submit_disciplined s _ Hout) Hexec) as HL.
    assert (Hv : lock_valid L).
    { apply (exec_lock_valid ad sched (submit s (map program ops))); auto.
      intros h H. discriminate. }
    split; [|split; [|split]].
    + intros i t. now apply disciplined_in_flight.
    + intros i j ti tj Hi Hj Hfi Hfj.
      pose proof (disciplined_in_flight L i ti HL Hi Hfi) as H1.
      pose proof (disciplined_in_flight L j tj HL Hj Hfj) as H2. congruence.
    + intros i L'. now apply disciplined_outside_step.
    + now apply disciplined_progress.
  - intros ad s pl1 pl2 Hc. split.
    + destruct (run_in_turn ad [] [_send_command pl1; _send_command pl2] s eq_refl)
        as (sched & L & Hexec & _ & Hfin & _).
      { apply Forall_cons; [apply Outside_send_command|].
        apply Forall_cons; [apply Outside_send_command|apply Forall_nil]. }
      exists sched, L. auto.
    + intros Hcoop sched L Hexec Hfin.
      destruct (concurrent_sends_history ad Hcoop s [pl1; pl2] sched L Hc)
        as (c & u & n & W & Hn & Hconn & Hcl & Hcu & _ & Hh & HW); auto; [discriminate|].
      exists c, u, n. repeat split; auto.
      apply Permutation_sym, Permutation_length_2_inv in HW. cbn [map] in HW.
      destruct HW as [-> | ->]; auto.
Qed.

(** * Further properties of the program *)

(** * Errors of [scan_and_connect] *)

Section ConnectErrors.
Context {rt : Runtime}.
Variable ad : Adapter.

(** The result of a connect that returns is the flag it leaves. *)
Lemma scan_and_connect_flag name timeout s ok s' :
  run ad (scan_and_connect name timeout) s = (inr ok, s') -> connected (ble s') = ok.
Proof.
  rewrite scan_and_connect_run.
  destruct (bleak_installed ad); run_cbn; [|discriminate].
  destruct (connected (ble s)) eqn:Hc.
  { intros H. now injection H as <- <-. }
  destruct (ad_discover ad (history s) timeout) as [e|devices]; [discriminate|].
  destruct (find_target name devices) as [target|].
  - destruct (ad_connect ad _ _) as [e|[]]; [discriminate|].
    destruct (ad_services ad _ _) as [e|sv]; [discriminate|].
    match goal with
    | |- context [run ad (poll_services ?c ?v ?r) ?s0] =>
        destruct (run ad (poll_services c v r) s0) as [[e|polled] s3]
    end; [discriminate|].
    intros H. now injection H as <- <-.
  - intros H. now injection H as <- <-.
Qed.

(** A connect that raises leaves handle, write target and flag alone. *)
Lemma scan_and_connect_raise_frame name timeout s e s' :
  run ad (scan_and_connect name timeout) s = (inl e, s') ->
  client (ble s') = client (ble s) /\
  char_uuid (ble s') = char_uuid (ble s) /\
  connected (ble s') = connected (ble s) /\
  status_var s' = status_var s.
Proof.
  intros Hrun.
  pose proof (scan_and_connect_ble ad name timeout s) as Hshape.
  destruct (scan_and_connect_frame ad name timeout s) as (_ & _ & Hst & _).
  cbv zeta in Hshape. rewrite Hrun in *. cbn [fst snd] in *.
  destruct Hshape as [->|[(_ & _ & a & ->)|(_ & H & _)]]; auto; discriminate.
Qed.

End ConnectErrors.


(** X2.  The boolean [scan_and_connect] returns is the connected flag it
    leaves behind.  It returns [False] in one situation only: the scan
    completed and none of the devices it reported passes the name test; then
    the scan is the only call made and the controller is untouched. *)
Theorem connect_result_is_flag {rt : Runtime} ad s name timeout ok s' :
  run ad (scan_and_connect name timeout) s = (inr ok, s') ->
  connected (ble s') = ok /\
  (ok = false ->
   exists devices,
     ad_discover ad (history s) timeout = inr devices /\
     find_target name devices = None /\
     Forall (fun d => name_matches name d = false) devices /\
     s' = emit (EDiscover timeout) s).
Proof.
  assert (Hnone : forall devices, find_target name devices = None ->
                  Forall (fun d => name_matches name d = false) devices).
  { induction devices as [|d devices IH]; cbn [find_target]; [constructor|].
    destruct (name_matches name d) eqn:E; [discriminate|]. intros H. constructor; auto. }
  intros Hrun. split; [exact (scan_and_connect_flag ad name timeout s ok s' Hrun)|].
  intros ->. revert Hrun. rewrite scan_and_connect_run.
  destruct (bleak_installed ad); run_cbn; [|discriminate].
  destruct (connected (ble s)); [discriminate|].
  destruct (ad_discover ad (history s) timeout) as [e|devices]; [discriminate|].
  destruct (find_target name devices) as [target|] eqn:Hf.
  - destruct (ad_connect ad _ _) as [e|[]]; [discriminate|].
    destruct (ad_services ad _ _) as [e|sv]; [discriminate|].
    match goal with
    | |- context [run ad (poll_services ?c ?v ?r) ?s0] =>
        destruct (run ad (poll_services c v r) s0) as [[e|polled] s3]
    end; discriminate.
  - intros H. injection H as <-. exists devices. auto.
Qed.

(** X3.  Whenever [scan_and_connect] raises, the handle, the write target
    and the connected flag are as they were, and so is the status.  The
    exception is the missing-library error (nothing was called), or the one
    the scan raised (nothing else was called), or the one raised by opening
    the connection or by reading the services after some of the sleeps; in
    these last cases the address of the target stays stored, the new handle
    is torn down exactly once, as the last call, whether or not that
    teardown itself fails, and the log file is written exactly when the
    open raised a [RecursionError]. *)
Theorem connect_failure_cleanup {rt : Runtime} ad s name timeout e s' :
  run ad (scan_and_connect name timeout) s = (inl e, s') ->
  client (ble s') = client (ble s) /\
  char_uuid (ble s') = char_uuid (ble s) /\
  connected (ble s') = connected (ble s) /\
  status_var s' = status_var s /\
  ((bleak_installed ad = false /\ e = runtime_error "bleak is not installed" /\ s' = s) \/
   (ad_discover ad (history s) timeout = inl e /\ s' = emit (EDiscover timeout) s) \/
   (exists devices target mid,
      ad_discover ad (history s) timeout = inr devices /\
      find_target name devices = Some target /\
      address (ble s') = Some (d_address target) /\
      history s' = history s
                     ++ [EDiscover timeout; EConnect (BleakClient (d_address target))]
                     ++ mid ++ [EDisconnect (BleakClient (d_address target))] /\
      ((ad_connect ad (history s ++ [EDiscover timeout]) (BleakClient (d_address target))
          = inl e /\
        mid = if is_RecursionError e then [ELog recursion_log_header] else []) \/
       (exists n,
          n <= 10 /\ mid = sleeps n /\
          ad_services ad
            (history s ++ [EDiscover timeout; EConnect (BleakClient (d_address target))]
                       ++ sleeps n)
            (BleakClient (d_address target)) = inl e)))).
Proof.
  intros Hrun.
  destruct (scan_and_connect_raise_frame ad name timeout s e s' Hrun) as (F1 & F2 & F3 & F4).
  do 4 (split; [assumption|]). clear F1 F2 F3 F4. revert Hrun.
  rewrite scan_and_connect_run.
  destruct (bleak_installed ad); run_cbn.
  2:{ intros H. injection H as <- <-. left. auto. }
  destruct (connected (ble s)); [discriminate|].
  destruct (ad_discover ad (history s) timeout) as [e0|devices] eqn:Hd.
  { intros H. injection H as <- <-. right; left. auto. }
  destruct (find_target name devices) as [target|] eqn:Hf; [|discriminate].
  set (c := BleakClient (d_address target)).
  destruct (ad_connect ad _ _) as [e0|[]] eqn:Hconn.
  { intros H. injection H as <- <-.
    right; right. exists devices, target,
      (if is_RecursionError e0 then [ELog recursion_log_header] else []).
    split; [reflexivity|]. split; [exact Hf|].
    split; [destruct (is_RecursionError e0); reflexivity|].
    split; [destruct (is_RecursionError e0); run_cbn; rewrite <- !app_assoc; reflexivity|].
    left. auto. }
  destruct (ad_services ad _ _) as [e0|sv] eqn:Hsv.
  { intros H. injection H as <- <-.
    right; right. exists devices, target, (sleeps 0).
    split; [reflexivity|]. split; [exact Hf|]. split; [reflexivity|].
    split; [run_cbn; rewrite <- !app_assoc; reflexivity|].
    right. exists 0. split; [lia|]. split; [reflexivity|].
    cbn [sleeps repeat]. rewrite app_nil_r. rewrite <- app_assoc in Hsv. exact Hsv. }
  match goal with
  | |- context [run ad (poll_services ?c ?v ?r) ?s0] =>
      destruct (poll_services_run ad c v r s0) as (n & res & Hrun & Hn & _ & Hreads);
      rewrite Hrun
  end.
  destruct res as [e0|polled]; [|discriminate].
  destruct (Hreads Hsv) as [_ Hlast]. cbn [history emit] in Hlast.
  intros H. injection H as <- <-.
  right; right. exists devices, target, (sleeps n).
  split; [reflexivity|]. split; [exact Hf|]. split; [reflexivity|].
  split; [run_cbn; rewrite <- !app_assoc; reflexivity|].
  right. exists n. split; [lia|]. split; [reflexivity|].
  rewrite <- !app_assoc in Hlast. exact Hlast.
Qed.

(** * The contract of [send] *)

(** X4.  [send] never changes the controller or the status.  When its guard
    fails (no handle, flag cleared, or no write target) it raises "Not
    connected" and calls nothing; otherwise it makes exactly one write, to
    the held handle and write target, with the payload and acknowledge flag
    it was given, and its outcome is the outcome of that write.  In
    particular a [send] that follows [disconnect] always fails with "Not
    connected": [send] never reconnects by itself. *)
Theorem send_contract ad s payload rr :
  let r := run ad (send payload rr) s in
  ble (snd r) = ble s /\
  status_var (snd r) = status_var s /\
  (send_guard (ble s) = false -> r = (inl (runtime_error "Not connected"), s)) /\
  (send_guard (ble s) = true ->
   exists c u,
     client (ble s) = Some c /\ char_uuid (ble s) = Some u /\
     fst r = ad_write ad (history s) c u payload rr /\
     history (snd r) = history s ++ [EWrite c u payload rr]) /\
  run ad (send payload rr) (snd (run ad disconnect s))
    = (inl (runtime_error "Not connected"), snd (run ad disconnect s)).
Proof.
  cbv zeta. split; [apply send_ble|]. split; [|split; [|split]].
  - rewrite send_run. destruct (client (ble s)); auto.
    destruct (char_uuid (ble s)); auto.
    destruct (connected (ble s) && truthy_str _); auto.
  - rewrite send_run. unfold send_guard.
    destruct (client (ble s)) as [c|]; auto.
    destruct (char_uuid (ble s)) as [u|]; auto. cbn [truthy_ostr].
    intros ->. reflexivity.
  - rewrite send_run. unfold send_guard.
    destruct (client (ble s)) as [c|]; [|discriminate].
    destruct (char_uuid (ble s)) as [u|]; cbn [truthy_ostr];
      [|rewrite andb_false_r; discriminate].
    intros ->. exists c, u. split; [reflexivity|]. split; [reflexivity|].
    destruct (ad_write ad (history s) c u payload rr) as [e|[]]; split; reflexivity.
  - rewrite disconnect_run, send_run. reflexivity.
Qed.

(** * What the status line says after the automatic connect *)

(** X5.  The automatic connect never raises, and its status line tells the
    truth about the connection: it reads "Connected to ardubotr4" exactly
    when the controller is connected afterwards.  (On a state the program
    can reach, or with the transport library installed.) *)
Theorem connect_status_truthful {rt : Runtime} ad s :
  bleak_installed ad = true \/ reachable ad s ->
  let r := run ad _connect_and_update s in
  fst r = inr tt /\
  (status_var (snd r) = "Connected to ardubotr4" <-> connected (ble (snd r)) = true).
Proof.
  intros Hb.
  assert (Hi : connected (ble s) = true -> bleak_installed ad = true).
  { destruct Hb as [Hb|Hr]; [auto|]. now apply (reachable_Inv ad s Hr). }
  cbv zeta. rewrite connect_and_update_run.
  set (s0 := mkSys (ble s) ("Scanning for " ++ DEVICE_NAME ++ "...")%string (history s)).
  pose proof (scan_and_connect_flag ad DEVICE_NAME 5.0%Q s0) as Hflag.
  pose proof (scan_and_connect_raise_frame ad DEVICE_NAME 5.0%Q s0) as Hframe.
  assert (Hconn : connected (ble s0) = true ->
            run ad (scan_and_connect DEVICE_NAME 5.0%Q) s0 = (inr true, s0)).
  { intros Hc. rewrite scan_and_connect_run, (Hi Hc), Hc. reflexivity. }
  destruct (run ad (scan_and_connect DEVICE_NAME 5.0%Q) s0) as [[e|[|]] s1];
    cbn [fst snd ble status_var].
  - split; [reflexivity|].
    destruct (Hframe e s1 eq_refl) as (_ & _ & Hc & _).
    destruct (connected (ble s0)) eqn:Hc0; [specialize (Hconn eq_refl); discriminate|].
    rewrite Hc. split; [|discriminate].
    cbn [append]. intros H. discriminate H.
  - split; [reflexivity|]. rewrite (Hflag true s1 eq_refl). split; reflexivity.
  - split; [reflexivity|]. rewrite (Hflag false s1 eq_refl). split; discriminate.
Qed.


(** * Buttons *)

Lemma dict_get_commands name :
  match dict_get COMMANDS name with
  | Some b => In name command_names /\ b = name
  | None => ~ In name command_names
  end.
Proof.
  unfold command_names, COMMANDS. cbn [dict_get map fst In].
  repeat match goal with
  | |- context [String.eqb ?k name] =>
      destruct (String.eqb_spec k name) as [<-|?]; [intuition auto|]
  end.
  intuition auto.
Qed.

(** * Events of a coroutine *)

Section EmitsLaws.
Context {A : Type} (Q : Event -> Prop).

Lemma Emits_bind B (p : Prog A) (f : A -> Prog B) :
  Emits Q p -> (forall a, Emits Q (f a)) -> Emits Q (bind p f).
Proof.
  intros Hp Hf. induction Hp; cbn [bind]; [apply Hf|constructor|].
  now apply E_vis.
Qed.

Lemma Emits_try_except (p : Prog A) (h : Exn -> Prog A) :
  Emits Q p -> (forall e, Emits Q (h e)) -> Emits Q (try_except p h).
Proof.
  intros Hp Hh. induction Hp; cbn [try_except]; [constructor|apply Hh|].
  now apply E_vis.
Qed.

Lemma Emits_lift_result (r : Exn + A) : Emits Q (lift_result r).
Proof. destruct r; constructor. Qed.

Lemma Emits_weaken (Q' : Event -> Prop) (p : Prog A) :
  (forall e, Q e -> Q' e) -> Emits Q p -> Emits Q' p.
Proof.
  intros HQ Hp. induction Hp; constructor; auto.
  eapply Forall_impl; eauto.
Qed.
End EmitsLaws.

Lemma Emits_perform_op Q o : Forall Q (op_events o) -> Emits Q (perform_op o).
Proof. intros H. apply E_vis; auto. intros r. constructor. Qed.

Lemma Emits_silent_op Q o : op_events o = [] -> Emits Q (perform_op o).
Proof. intros H. apply Emits_perform_op. rewrite H. constructor. Qed.

Lemma Emits_with_lock A Q (body : Prog A) : Emits Q body -> Emits Q (with_lock body).
Proof.
  intros Hb. unfold with_lock.
  apply Emits_bind; [now apply (Emits_silent_op Q LockAcquire)|]. intros _.
  apply Emits_bind.
  - apply Emits_try_except; [exact Hb|]. intros e.
    apply Emits_bind; [now apply (Emits_silent_op Q LockRelease)|]. intros _. constructor.
  - intros r. apply Emits_bind; [now apply (Emits_silent_op Q LockRelease)|].
    intros _. constructor.
Qed.

Lemma Emits_poll_loop Q c k :
  Q (ESleep 0.1%Q) ->
  forall r variant sv, 10 - r = k -> Emits Q (poll_loop c sv r variant).
Proof.
  intros HQ. induction k as [|k IH]; intros r variant sv Hk;
    destruct variant as [h]; cbn [poll_loop];
    destruct (negb (truthy_services sv)); try constructor;
    destruct (lt_dec r 10) as [Hlt|Hge]; try constructor; try lia.
  - cbn [op_events]. auto.
  - intros []. cbn [bind]. apply Emits_bind.
    + apply Emits_bind; [now apply (Emits_silent_op Q (GetServices c))|].
      intros ?. apply Emits_lift_result.
    + intros sv'. apply IH. lia.
Qed.

Lemma Emits_poll_services Q c sv r :
  Q (ESleep 0.1%Q) -> Emits Q (poll_services c sv r).
Proof. intros HQ. unfold poll_services. now apply (Emits_poll_loop Q c (10 - r)). Qed.

Ltac emits :=
  repeat first
    [ apply Emits_lift_result
    | match goal with
      | |- Emits _ (perform_op ?o) =>
          apply (Emits_perform_op _ o); cbn [op_events]; repeat constructor
      end
    | apply Emits_with_lock
    | apply Emits_bind; [|intros ?]
    | apply Emits_try_except; [|intros ?]
    | apply E_ret
    | apply E_raise
    | match goal with
      | |- Emits _ (if ?b then _ else _) => destruct b
      | |- Emits _ (match ?x with _ => _ end) => destruct x
      end ].

Lemma Emits_scan_and_connect {rt : Runtime} name timeout :
  Emits (connect_event timeout) (scan_and_connect name timeout).
Proof.
  unfold scan_and_connect, bleak_available, get_ble, modify_ble, BleakScanner_discover,
    client_connect, client_services, client_disconnect, write_log.
  apply Emits_bind; [now apply (Emits_silent_op _ BleakAvailable)|]. intros ok.
  destruct (negb ok); [constructor|].
  apply Emits_with_lock.
  apply Emits_bind; [now apply (Emits_silent_op _ GetBle)|]. intros self.
  destruct (connected self); [constructor|].
  apply Emits_bind; [emits|]. intros devices.
  destruct (find_target name devices) as [target|]; [|constructor].
  apply Emits_bind; [emits|]. intros _.
  apply Emits_try_except; [|intros e; emits].
  apply Emits_bind; [emits|]. intros _.
  apply Emits_bind; [emits|]. intros services.
  apply Emits_bind; [now apply Emits_poll_services|]. intros polled.
  emits.
Qed.

Lemma Emits_disconnect : Emits (connect_event 5.0%Q) disconnect.
Proof.
  unfold disconnect, get_ble, modify_ble, client_disconnect. emits.
Qed.

Lemma Emits_send payload rr :
  Emits (fun e => exists c u, e = EWrite c u payload rr) (send payload rr).
Proof.
  unfold send, get_ble, client_write_gatt_char. emits; eauto.
Qed.

Section SessionEvents.
Context {rt : Runtime}.

Lemma connect_session_event e : connect_event 5.0%Q e -> session_event e.
Proof. destruct e; cbn; intros H; first [exact H|contradiction]. Qed.

Lemma Emits_connect_and_update : Emits session_event _connect_and_update.
Proof.
  unfold _connect_and_update, set_status.
  apply Emits_bind; [emits|]. intros _.
  apply Emits_try_except; [|intros e; emits].
  apply Emits_bind; [|intros ok; destruct ok; emits].
  eapply Emits_weaken; [exact connect_session_event|apply Emits_scan_and_connect].
Qed.

Lemma Emits_send_command name :
  In name command_names -> Emits session_event (_send_command (encode_utf8 name)).
Proof.
  intros Hin. unfold _send_command, set_status, get_ble.
  apply Emits_bind; [emits|]. intros self.
  apply Emits_bind.
  - destruct (negb (connected self)); [|constructor].
    apply Emits_bind; [|intros ok; destruct (negb ok); emits].
    apply Emits_try_except; [|intros e; emits].
    eapply Emits_weaken; [exact connect_session_event|apply Emits_scan_and_connect].
  - intros _. apply Emits_try_except; [|intros e; emits].
    apply Emits_bind; [|intros _; emits].
    eapply Emits_weaken; [|apply Emits_send].
    intros e (c & u & ->). cbn [session_event]. split; [reflexivity|]. exists name. auto.
Qed.

Lemma command_names_truthy name : In name command_names -> truthy_str name = true.
Proof.
  unfold command_names, COMMANDS. cbn [map fst In]. intros Hin.
  repeat (destruct Hin as [<-|Hin]; [reflexivity|]). destruct Hin.
Qed.

Lemma Emits_on_button name :
  In name command_names -> Emits session_event (on_button name).
Proof.
  intros Hin. unfold on_button.
  pose proof (dict_get_commands name) as Hget.
  destruct (dict_get COMMANDS name) as [v|]; [|contradiction].
  destruct Hget as [_ ->].
  rewrite (command_names_truthy name Hin). cbn [negb]. cbv zeta.
  apply Emits_try_except; [|intros e; unfold set_status; emits].
  unfold _schedule_coroutine, write_log.
  apply Emits_try_except; [now apply Emits_send_command|].
  intros e. emits.
Qed.

Lemma Emits_schedule_coroutine (coro : Prog unit) :
  Emits session_event coro -> Emits session_event (_schedule_coroutine coro).
Proof.
  intros H. unfold _schedule_coroutine, write_log.
  apply Emits_try_except; [exact H|]. intros e. emits.
Qed.

Lemma Emits_button b : Emits session_event (button_command b).
Proof.
  destruct b; cbn [button_command];
    try (apply Emits_on_button; unfold command_names, COMMANDS; cbn [map fst In]; auto 10).
  - apply Emits_schedule_coroutine, Emits_connect_and_update.
  - apply Emits_schedule_coroutine.
    eapply Emits_weaken; [exact connect_session_event|apply Emits_disconnect].
Qed.

Lemma Emits_action a : Emits session_event (action_coroutine a).
Proof.
  destruct a as [b|]; cbn [action_coroutine]; [apply Emits_button|].
  unfold on_close. apply Emits_try_except; [|intros e; constructor].
  apply Emits_schedule_coroutine.
  eapply Emits_weaken; [exact connect_session_event|apply Emits_disconnect].
Qed.
End SessionEvents.

(** * Events of a run *)

Section EmitsRun.
Variable ad : Adapter.

Lemma exec_op_history o s : history (snd (exec_op ad o s)) = history s ++ op_events o.
Proof. destruct o; cbn; rewrite ?app_nil_r; reflexivity. Qed.

Lemma run_emits A Q (p : Prog A) s :
  Emits Q p ->
  exists evs, history (snd (run ad p s)) = history s ++ evs /\ Forall Q evs.
Proof.
  intros Hp. revert s. induction Hp as [a|e|o k Ho Hk IH]; intros s; cbn [run].
  - exists []. rewrite app_nil_r. auto.
  - exists []. rewrite app_nil_r. auto.
  - pose proof (exec_op_history o s) as Hh.
    destruct (exec_op ad o s) as [r s1]. cbn [snd] in Hh.
    destruct (IH r s1) as (evs & Hevs & HQ).
    exists (op_events o ++ evs). rewrite Hevs, Hh, app_assoc. split; [reflexivity|].
    apply Forall_app. auto.
Qed.

Lemma step_emits Q i L L' :
  Forall (fun t => Emits Q (task_prog t)) (tasks L) ->
  step ad i L = Some L' ->
  Forall (fun t => Emits Q (task_prog t)) (tasks L') /\
  exists evs, history (sys L') = history (sys L) ++ evs /\ Forall Q evs.
Proof.
  intros HL Hstep. unfold step in Hstep.
  destruct (nth_error (tasks L) i) as [t|] eqn:Hi; [|discriminate].
  assert (Ht : Emits Q (task_prog t)).
  { rewrite Forall_forall in HL. apply HL. eapply nth_error_In; eauto. }
  assert (Hupd : forall t', Emits Q (task_prog t') ->
            Forall (fun t => Emits Q (task_prog t)) (set_task i t' (tasks L))).
  { intros t' Ht'. apply Forall_forall. intros x Hx.
    apply In_nth_error in Hx as [j Hj]. rewrite nth_error_set_task in Hj.
    destruct (Nat.eqb i j).
    - rewrite Hi in Hj. now injection Hj as <-.
    - rewrite Forall_forall in HL. apply HL. eapply nth_error_In; eauto. }
  destruct t as [p|p]; cbn [task_prog] in Ht.
  - inversion Ht as [a Hp|e Hp|o k Ho Hk Hp]; subst p; try discriminate.
    pose proof (exec_op_history o (sys L)) as Hh.
    destruct (exec_op ad o (sys L)) as [r s']. cbn [snd] in Hh.
    assert (Hev : exists evs, history s' = history (sys L) ++ evs /\ Forall Q evs) by eauto.
    destruct (lock_effect o).
    + destruct (lock L); [discriminate|]. injection Hstep as <-. cbn [tasks sys].
      split; [apply Hupd, Hk|exact Hev].
    + injection Hstep as <-. cbn [tasks sys]. split; [apply Hupd, Hk|exact Hev].
    + injection Hstep as <-. cbn [tasks sys].
      split; [apply Hupd; destruct (is_await o); apply Hk|exact Hev].
  - injection Hstep as <-. cbn [tasks sys]. split; [now apply Hupd|].
    exists []. rewrite app_nil_r. auto.
Qed.

Lemma exec_emits Q sched L L' :
  Forall (fun t => Emits Q (task_prog t)) (tasks L) ->
  exec ad sched L = Some L' ->
  exists evs, history (sys L') = history (sys L) ++ evs /\ Forall Q evs.
Proof.
  revert L. induction sched as [|i sched IH]; intros L HL Hexec; cbn [exec] in Hexec.
  - injection Hexec as <-. exists []. rewrite app_nil_r. auto.
  - destruct (step ad i L) as [L1|] eqn:Hstep; [|discriminate].
    destruct (step_emits Q i L L1 HL Hstep) as (HL1 & evs1 & H1 & HQ1).
    destruct (IH L1 HL1 Hexec) as (evs & H & HQ).
    exists (evs1 ++ evs). rewrite H, H1, app_assoc. split; [reflexivity|].
    apply Forall_app. auto.
Qed.
End EmitsRun.

(** X6.  A button name that is not a key of [COMMANDS] (the keys are
    case-sensitive) only opens the error dialog, with the name in the
    message: nothing is scanned or sent, and controller and status stay as
    they are.  A name that is a key never opens the dialog. *)
Theorem unknown_command_dialog {rt : Runtime} ad s name :
  (~ In name command_names ->
   run ad (on_button name) s
     = (inr tt, emit (EShowError "Error" ("Unknown command: " ++ name)) s)) /\
  (In name command_names ->
   exists evs,
     history (snd (run ad (on_button name) s)) = history s ++ evs /\
     forall title msg, ~ In (EShowError title msg) evs).
Proof.
  split.
  - intros Hn. pose proof (dict_get_commands name) as Hget.
    rewrite on_button_run.
    destruct (dict_get COMMANDS name) as [b|]; [|reflexivity].
    destruct Hget as [Hin _]. contradiction.
  - intros Hin.
    destruct (run_emits ad unit session_event (on_button name) s (Emits_on_button name Hin))
      as (evs & Hh & Hev).
    exists evs. split; [exact Hh|]. intros title msg H.
    rewrite Forall_forall in Hev. exact (Hev _ H).
Qed.

(** X7.  A button press never raises.  When the send it starts succeeds the
    press leaves what the send left.  When the send fails, the failure is
    entered in the log file and the error ends up in the status line as
    "Send error: " followed by the message, replacing what [_send_command]
    had put there.  So after a press made while the robot is out of range
    the status reads "Send error: Device not connected", and the scan is the
    only call made to the transport. *)
Theorem button_failure_status {rt : Runtime} ad s name :
  In name command_names ->
  fst (run ad (on_button name) s) = inr tt /\
  (forall e s',
     run ad (_send_command (encode_utf8 name)) s = (inl e, s') ->
     run ad (on_button name) s
       = (inr tt, mkSys (ble s') ("Send error: " ++ exn_msg e)
                        (history s' ++ [ELog task_log_header]))) /\
  (forall s',
     run ad (_send_command (encode_utf8 name)) s = (inr tt, s') ->
     run ad (on_button name) s = (inr tt, s')) /\
  (forall devices,
     bleak_installed ad = true ->
     connected (ble s) = false ->
     ad_discover ad (history s) 5.0%Q = inr devices ->
     find_target DEVICE_NAME devices = None ->
     run ad (on_button name) s
       = (inr tt, mkSys (ble s) "Send error: Device not connected"
                        (history s ++ [EDiscover 5.0%Q; ELog task_log_header]))).
Proof.
  intros Hin. pose proof (dict_get_commands name) as Hget.
  rewrite on_button_run.
  destruct (dict_get COMMANDS name) as [b|]; [|contradiction].
  destruct Hget as [_ ->]. rewrite (command_names_truthy name Hin).
  split; [|split; [|split]].
  - destruct (run ad (_send_command (encode_utf8 name)) s) as [[e|u] s']; reflexivity.
  - intros e s' ->. reflexivity.
  - intros s' ->. reflexivity.
  - intros devices Hb Hc Hd Hf.
    rewrite send_command_run, Hc, scan_and_connect_run, Hb, Hc, Hd, Hf.
    cbn [negb fst snd emit ble history status_var]. rewrite <- app_assoc. reflexivity.
Qed.

(** * The target name *)

(** X8.  Only a device with a non-empty name can be chosen: the chosen
    device is one of those scanned, its name is not empty and, lowered, is
    the lowered target name.  Devices without a name, or with an empty one,
    are skipped whatever the target name: when the scan reports no others
    the connect finds nothing and returns [False]. *)
Theorem unnamed_devices_never_chosen {rt : Runtime} ad s name timeout devices :
  (forall target,
     find_target name devices = Some target ->
     In target devices /\
     exists n, d_name target = Some n /\ n <> "" /\ lower n = lower name) /\
  (bleak_installed ad = true ->
   connected (ble s) = false ->
   ad_discover ad (history s) timeout = inr devices ->
   Forall (fun d => d_name d = None \/ d_name d = Some "") devices ->
   run ad (scan_and_connect name timeout) s = (inr false, emit (EDiscover timeout) s)).
Proof.
  assert (Hsome : forall target, find_target name devices = Some target ->
            In target devices /\
            exists n, d_name target = Some n /\ n <> "" /\ lower n = lower name).
  { intros target. induction devices as [|d ds IH]; cbn [find_target]; [discriminate|].
    destruct (name_matches name d) eqn:E.
    - intros H. injection H as <-. split; [now left|].
      unfold name_matches in E. destruct (d_name d) as [n|]; [|discriminate].
      apply andb_prop in E as [E1 E2]. exists n.
      split; [reflexivity|]. split; [now apply truthy_str_true|now apply String.eqb_eq].
    - intros H. destruct (IH H) as [Hin Hn]. split; [now right|exact Hn]. }
  split; [exact Hsome|].
  intros Hb Hc Hd Hall. rewrite scan_and_connect_run, Hb, Hc, Hd. run_cbn.
  destruct (find_target name devices) as [target|] eqn:Hf; [|reflexivity].
  destruct (Hsome target eq_refl) as (Hin & n & Hn & Hne & _).
  rewrite Forall_forall in Hall. destruct (Hall target Hin) as [H|H]; congruence.
Qed.

(** * The stored address *)

Section Address.
Context {rt : Runtime}.
Variable ad : Adapter.

Lemma scan_and_connect_bound name timeout s :
  bound (ble s) -> bound (ble (snd (run ad (scan_and_connect name timeout) s))).
Proof.
  intros Hs.
  destruct (connected (ble s)) eqn:Hc.
  { assert (H : snd (run ad (scan_and_connect name timeout) s) = s).
    { rewrite scan_and_connect_run, Hc. destruct (bleak_installed ad); reflexivity. }
    now rewrite H. }
  pose proof (scan_and_connect_success ad name timeout s) as Hok.
  pose proof (scan_and_connect_flag ad name timeout s) as Hflag.
  pose proof (scan_and_connect_raise_frame ad name timeout s) as Hraise.
  destruct (run ad (scan_and_connect name timeout) s) as [[e|[|]] s1]; cbn [snd].
  - destruct (Hraise e s1 eq_refl) as (_ & _ & H & _). intros H1. congruence.
  - destruct (Hok s1 Hc eq_refl) as (devices & target & sv & n & _ & _ & _ & _ & _ & _ & _ & ->).
    intros _. exists (d_address target). split; reflexivity.
  - specialize (Hflag false s1 eq_refl). intros H1. congruence.
Qed.

Lemma program_bound op s :
  bound (ble s) -> bound (ble (snd (run ad (program op) s))).
Proof.
  intros Hs.
  assert (Hcmd : forall payload, bound (ble (snd (run ad (_send_command payload) s)))).
  { intros payload. destruct (send_command_ble ad payload s) as [->| ->]; [exact Hs|].
    now apply scan_and_connect_bound. }
  destruct op as [name timeout| |payload rr| |payload|name]; cbn [program].
  - rewrite run_bind.
    pose proof (scan_and_connect_bound name timeout s Hs) as H.
    destruct (run ad (scan_and_connect name timeout) s) as [[e|b] s']; exact H.
  - rewrite disconnect_run. cbn [snd ble]. intros H. discriminate.
  - now rewrite send_ble.
  - rewrite connect_and_update_run.
    pose proof (scan_and_connect_bound DEVICE_NAME 5.0%Q
                  (mkSys (ble s) ("Scanning for " ++ DEVICE_NAME ++ "...")%string
                         (history s)) Hs) as H.
    match goal with
    | |- context [run ad (scan_and_connect ?n ?t) ?s0] =>
        destruct (run ad (scan_and_connect n t) s0) as [[e|[|]] s']; exact H
    end.
  - apply Hcmd.
  - rewrite on_button_run. destruct (dict_get COMMANDS name) as [b|]; [|exact Hs].
    destruct (truthy_str b); [|exact Hs].
    specialize (Hcmd (encode_utf8 b)).
    destruct (run ad (_send_command (encode_utf8 b)) s) as [[e|u] s']; exact Hcmd.
Qed.

Lemma program_address op s :
  address (ble s) <> None -> address (ble (snd (run ad (program op) s))) <> None.
Proof.
  intros Ha.
  destruct (program_shape ad op s) as [->|[(a & ->)|[(_ & c & u & a & -> & _)| ->]]];
    cbn; auto; discriminate.
Qed.
End Address.

(** X9.  In every state the program can reach, a connected controller
    holds a handle bound to the stored address: [self.address] names the
    device of the live connection.  And once an address is stored no
    operation ever clears it. *)
Theorem handle_bound_to_address {rt : Runtime} ad s :
  reachable ad s ->
  (connected (ble s) = true ->
   exists a, client (ble s) = Some (BleakClient a) /\ address (ble s) = Some a) /\
  (forall op,
     address (ble s) <> None -> address (ble (snd (run ad (program op) s))) <> None).
Proof.
  intros [ops ->]. split; [|intros op; apply program_address].
  change (bound (ble (run_all ad ops App_init))).
  unfold run_all. rewrite <- fold_left_rev_right.
  induction (rev ops) as [|op l IH]; cbn [fold_right].
  - intros H. discriminate.
  - now apply program_bound.
Qed.


(** * Text payloads *)

Lemma decode_ascii payload out :
  Forall (fun b => is_ascii_byte b = true) payload ->
  fold_left decode_feed payload (mkDecode out [] 0 (0, 0)%N)
    = mkDecode (rev payload ++ out) [] 0 (0, 0)%N.
Proof.
  intros H. revert out. induction H as [|b l Hb Hl IH]; intros out; cbn [fold_left rev app].
  - reflexivity.
  - unfold decode_feed at 2. cbn [dec_need dec_out]. unfold decode_start, lead_class.
    unfold is_ascii_byte in Hb. rewrite Hb. rewrite IH, <- app_assoc. reflexivity.
Qed.

Lemma decode_utf8_replace_ascii payload :
  Forall (fun b => is_ascii_byte b = true) payload ->
  decode_utf8_replace payload = string_of_list_byte payload.
Proof.
  intros H. unfold decode_utf8_replace. rewrite (decode_ascii payload [] H).
  unfold decode_finish. cbn [dec_need dec_out]. now rewrite app_nil_r, rev_involutive.
Qed.

(** X10.  ASCII text survives the round trip through the payload: encoding
    it and decoding the bytes with replacement gives the text back, so after
    a successful send of an ASCII text the status reads "Sent: " followed by
    that very text. *)
Theorem ascii_text_round_trip {rt : Runtime} text :
  Forall (fun b => is_ascii_byte b = true) (encode_utf8 text) ->
  decode_utf8_replace (encode_utf8 text) = text /\
  (forall ad s c u,
     connected (ble s) = true ->
     client (ble s) = Some c ->
     char_uuid (ble s) = Some u ->
     u <> "" ->
     ad_write ad (history s) c u (encode_utf8 text) true = inr tt ->
     run ad (_send_command (encode_utf8 text)) s
       = (inr tt, mkSys (ble s) ("Sent: " ++ text)
                        (history s ++ [EWrite c u (encode_utf8 text) true]))).
Proof.
  intros Hascii.
  assert (Hdec : decode_utf8_replace (encode_utf8 text) = text).
  { rewrite (decode_utf8_replace_ascii _ Hascii). unfold encode_utf8.
    apply string_of_list_byte_of_string. }
  split; [exact Hdec|].
  intros ad s c u Hc Hcl Hu Hne Hw.
  rewrite send_command_run, Hc. cbv zeta.
  rewrite (send_connected_run ad s c u (encode_utf8 text) REQUIRE_RESPONSE_ON_WRITE
             Hc Hcl Hu Hne).
  change REQUIRE_RESPONSE_ON_WRITE with true. rewrite Hw, Hdec. reflexivity.
Qed.


(** * Services that are there at once *)

(** X11.  When the services are already populated right after the open,
    the connect does not sleep at all: the scan and the open are the only
    calls, and the controller ends connected to the target with the write
    target resolved from those services. *)
Theorem no_poll_when_services_ready {rt : Runtime} ad s name timeout devices target svc svcs :
  bleak_installed ad = true ->
  connected (ble s) = false ->
  ad_discover ad (history s) timeout = inr devices ->
  find_target name devices = Some target ->
  ad_connect ad (history s ++ [EDiscover timeout]) (BleakClient (d_address target)) = inr tt ->
  ad_services ad (history s ++ [EDiscover timeout; EConnect (BleakClient (d_address target))])
              (BleakClient (d_address target)) = inr (Some (svc :: svcs)) ->
  run ad (scan_and_connect name timeout) s
    = (inr true,
       mkSys (mkBLE (Some (BleakClient (d_address target)))
                    (Some (or_default (choose_char (Some (svc :: svcs))) COMMAND_CHAR_UUID))
                    (Some (d_address target)) true)
             (status_var s)
             (history s ++ [EDiscover timeout; EConnect (BleakClient (d_address target))])).
Proof.
  intros Hb Hc Hd Hf Hconn Hsv.
  rewrite scan_and_connect_run, Hb, Hc, Hd, Hf. run_cbn. rewrite Hconn.
  rewrite <- app_assoc. cbn [app]. rewrite Hsv.
  unfold poll_services. destruct (lt_wf (10 - 0)) as [h].
  cbn [poll_loop truthy_services negb run fst]. run_cbn.
  rewrite <- ?app_assoc. reflexivity.
Qed.


(** * What "Sent" means *)

(** X12.  [_send_command] returns normally only when the payload has been
    written: the last call is then the write of that payload, with the
    acknowledgement asked for, to the handle and write target the connected
    controller holds, and the transport accepted it.  The status line reads
    "Sent: ..." in that case and in no other. *)
Theorem sent_means_written {rt : Runtime} ad s payload :
  let r := run ad (_send_command payload) s in
  (fst r = inr tt ->
   exists c u h,
     history (snd r) = h ++ [EWrite c u payload true] /\
     ad_write ad h c u payload true = inr tt /\
     client (ble (snd r)) = Some c /\
     char_uuid (ble (snd r)) = Some u /\
     connected (ble (snd r)) = true /\
     status_var (snd r) = ("Sent: " ++ decode_utf8_replace payload)%string) /\
  ((exists shown, status_var (snd r) = ("Sent: " ++ shown)%string) -> fst r = inr tt).
Proof.
  cbv zeta.
  assert (Hsend : forall s0,
            connected (ble s0) = true ->
            let r := run ad (send payload REQUIRE_RESPONSE_ON_WRITE) s0 in
            fst r = inr tt ->
            exists c u,
              history (snd r) = history s0 ++ [EWrite c u payload true] /\
              ad_write ad (history s0) c u payload true = inr tt /\
              client (ble (snd r)) = Some c /\
              char_uuid (ble (snd r)) = Some u /\
              connected (ble (snd r)) = true).
  { intros s0 Hc. cbv zeta. rewrite send_run.
    destruct (client (ble s0)) as [c|] eqn:Hcl; [|discriminate].
    destruct (char_uuid (ble s0)) as [u|] eqn:Hu; [|discriminate].
    destruct (connected (ble s0) && truthy_str u); [|discriminate].
    change REQUIRE_RESPONSE_ON_WRITE with true.
    destruct (ad_write ad (history s0) c u payload true) as [e|[]] eqn:Hw; [discriminate|].
    intros _. exists c, u. cbn [snd history ble emit]. auto. }
  assert (Hflag := scan_and_connect_flag ad DEVICE_NAME 5.0%Q s).
  rewrite send_command_run. cbv zeta.
  destruct (connected (ble s)) eqn:Hc.
  - specialize (Hsend s Hc). cbv zeta in Hsend.
    destruct (run ad (send payload REQUIRE_RESPONSE_ON_WRITE) s) as [[e|[]] s1];
      cbn [fst snd ble history status_var] in *.
    + split; [discriminate|]. intros [shown H]. cbn [append] in H. discriminate H.
    + split; [|reflexivity]. intros _.
      destruct (Hsend eq_refl) as (c & u & H1 & H2 & H3 & H4 & H5).
      exists c, u, (history s). auto 10.
  - destruct (run ad (scan_and_connect DEVICE_NAME 5.0%Q) s) as [[e|[|]] s1];
      cbn [fst snd ble history status_var].
    + split; [discriminate|]. intros [shown H]. cbn [append] in H. discriminate H.
    + specialize (Hsend s1 (Hflag true s1 eq_refl)). cbv zeta in Hsend.
      destruct (run ad (send payload REQUIRE_RESPONSE_ON_WRITE) s1) as [[e|[]] s2];
        cbn [fst snd ble history status_var] in *.
      * split; [discriminate|]. intros [shown H]. cbn [append] in H. discriminate H.
      * split; [|reflexivity]. intros _.
        destruct (Hsend eq_refl) as (c & u & H1 & H2 & H3 & H4 & H5).
        exists c, u, (history s1). auto 10.
    + split; [discriminate|]. intros [shown H]. cbn [append] in H. discriminate H.
Qed.


(** * The controller under interleaving *)

Section TrackedLaws.
Context {rt : Runtime}.

Lemma Tracked_bind A B (p : Prog A) (f : A -> Prog B) v :
  Tracked v p -> (forall a, Tracked None (f a)) -> Tracked v (bind p f).
Proof.
  intros Hp Hf. induction Hp; cbn [bind].
  - apply Hf.
  - constructor.
  - now apply T_local.
  - now apply T_acquire.
  - now apply T_get.
  - now apply T_modify.
  - now apply T_write.
  - now apply T_quiet.
  - now apply T_release.
Qed.

Lemma Tracked_try_except A (p : Prog A) (h : Exn -> Prog A) v :
  Tracked v p -> (forall e, Tracked None (h e)) -> Tracked v (try_except p h).
Proof.
  intros Hp Hh. induction Hp; cbn [try_except].
  - constructor.
  - apply Hh.
  - now apply T_local.
  - now apply T_acquire.
  - now apply T_get.
  - now apply T_modify.
  - now apply T_write.
  - now apply T_quiet.
  - now apply T_release.
Qed.

Lemma Tracked_local_op o : is_local o = true -> Tracked None (perform_op o).
Proof. intros H. apply T_local; auto. intros r. constructor. Qed.

(** The polling loop under the lock, in any context that passes operations
    through. *)
Lemma Tracked_poll_loop A (E : Prog (option (list Service) * nat) -> Prog A) b c :
  (forall o k, E (Vis o k) = Vis o (fun r => E (k r))) ->
  (forall polled, Tracked (Some b) (E (Ret polled))) ->
  (forall e, Tracked (Some b) (E (Raise e))) ->
  forall k n variant sv, 10 - n = k -> Tracked (Some b) (E (poll_loop c sv n variant)).
Proof.
  intros HE Hret Hraise. induction k as [|k IH]; intros n variant sv Hk;
    destruct variant as [h]; cbn [poll_loop];
    destruct (negb (truthy_services sv)); try apply Hret;
    destruct (lt_dec n 10) as [Hlt|Hge]; try apply Hret; try lia.
  unfold sleep, client_services. cbn [bind perform_op].
  rewrite HE. apply T_quiet; [reflexivity|]. intros _.
  rewrite HE. apply T_quiet; [reflexivity|]. intros [e|sv']; cbn [bind lift_result].
  - apply Hraise.
  - apply IH. lia.
Qed.

Lemma Tracked_poll A (E : Prog (option (list Service) * nat) -> Prog A) b c :
  (forall o k, E (Vis o k) = Vis o (fun r => E (k r))) ->
  (forall polled, Tracked (Some b) (E (Ret polled))) ->
  (forall e, Tracked (Some b) (E (Raise e))) ->
  forall sv n, Tracked (Some b) (E (poll_services c sv n)).
Proof.
  intros HE Hret Hraise sv n. unfold poll_services.
  now apply (Tracked_poll_loop A E b c HE Hret Hraise (10 - n)).
Qed.

Lemma Inv_connect b c u :
  u <> "" ->
  Inv (set_connected true (set_char_uuid (Some u) (set_client (Some c) b))).
Proof.
  intros Hu. split; cbn.
  - split; [reflexivity|discriminate].
  - intros _. now apply truthy_str_true.
Qed.

Lemma Inv_disconnect b :
  Inv (set_connected false (set_char_uuid None (set_client None b))).
Proof.
  split; cbn.
  - split; [congruence|discriminate].
  - discriminate.
Qed.

Ltac track_cbn :=
  cbn [bind try_except perform_op lift_result negb get_ble modify_ble set_status
       showerror write_log bleak_available BleakScanner_discover client_connect
       client_services client_disconnect client_write_gatt_char].

Lemma Tracked_scan_and_connect name timeout : Tracked None (scan_and_connect name timeout).
Proof.
  unfold scan_and_connect, with_lock. track_cbn.
  apply T_local; [reflexivity|]. intros ok. destruct ok; track_cbn; [|constructor].
  apply T_acquire. intros b Hb. apply T_get.
  destruct (connected b); track_cbn.
  { apply T_release; [exact Hb|constructor]. }
  apply T_quiet; [reflexivity|]. intros [e|devices]; track_cbn.
  { apply T_release; [exact Hb|constructor]. }
  destruct (find_target name devices) as [target|]; track_cbn.
  2:{ apply T_release; [exact Hb|constructor]. }
  apply T_modify.
  set (b1 := set_address (Some (d_address target)) b).
  assert (Hb1 : Inv b1) by exact Hb.
  assert (Hfail : forall e r,
            Tracked (Some b1)
              (bind (try_except
                       (bind (try_except (lift_result r) (fun _ => Ret tt))
                             (fun _ => @Raise bool e))
                       (fun e0 => bind (perform_op LockRelease) (fun _ => Raise e0)))
                    (fun r0 => bind (perform_op LockRelease) (fun _ => Ret r0)))).
  { intros e [e1|[]]; track_cbn; (apply T_release; [exact Hb1|constructor]). }
  apply T_quiet; [reflexivity|]. intros [re|[]]; track_cbn.
  { destruct (is_RecursionError re); track_cbn.
    - apply T_quiet; [reflexivity|]. intros _. track_cbn.
      apply T_quiet; [reflexivity|]. intros r. apply Hfail.
    - apply T_quiet; [reflexivity|]. intros r. apply Hfail. }
  apply T_quiet; [reflexivity|]. intros [e|sv]; track_cbn.
  { apply T_quiet; [reflexivity|]. intros r. apply Hfail. }
  match goal with
  | |- Tracked _ ?P =>
      match P with
      | context [poll_services ?c ?v ?n] => pattern (poll_services c v n)
      end
  end.
  match goal with
  | |- (fun p => Tracked _ (@?E p)) _ =>
      apply (Tracked_poll _ E b1 (BleakClient (d_address target)))
  end.
  - reflexivity.
  - intros polled. track_cbn.
    apply T_modify, T_modify, T_modify. track_cbn.
    apply T_release; [|constructor]. apply Inv_connect, or_default_nonempty.
  - intros e. track_cbn. apply T_quiet; [reflexivity|]. intros r. apply Hfail.
Qed.

Lemma Tracked_disconnect : Tracked None disconnect.
Proof.
  unfold disconnect, with_lock. track_cbn.
  apply T_acquire. intros b Hb. apply T_get.
  assert (Hend : Tracked (Some b)
            (Vis (ModifyBle (set_client None)) (fun _ =>
             Vis (ModifyBle (set_char_uuid None)) (fun _ =>
             Vis (ModifyBle (set_connected false)) (fun r =>
             Vis LockRelease (fun _ => Ret r)))))).
  { apply T_modify, T_modify, T_modify, T_release; [apply Inv_disconnect|constructor]. }
  destruct (client b) as [c|]; track_cbn; [destruct (connected b); track_cbn|];
    try exact Hend.
  apply T_quiet; [reflexivity|]. intros [e|[]]; track_cbn; exact Hend.
Qed.

Lemma Tracked_send payload rr : Tracked None (send payload rr).
Proof.
  unfold send, with_lock. track_cbn.
  apply T_acquire. intros b Hb. apply T_get.
  unfold send_guard.
  destruct (client b) as [c|] eqn:Hc; track_cbn.
  2:{ apply T_release; [exact Hb|constructor]. }
  destruct (connected b) eqn:Hco; track_cbn.
  2:{ apply T_release; [exact Hb|constructor]. }
  destruct (char_uuid b) as [u|] eqn:Hu; cbn [truthy_ostr andb negb]; track_cbn.
  2:{ apply T_release; [exact Hb|constructor]. }
  destruct (truthy_str u) eqn:Ht; track_cbn.
  2:{ apply T_release; [exact Hb|constructor]. }
  apply T_write; auto; [now apply truthy_str_true|].
  intros [e|[]]; track_cbn; (apply T_release; [exact Hb|constructor]).
Qed.

Ltac tracked :=
  repeat first
    [ apply Tracked_scan_and_connect
    | apply Tracked_disconnect
    | apply Tracked_send
    | match goal with
      | |- Tracked None (perform_op ?o) => apply (Tracked_local_op o); reflexivity
      end
    | apply Tracked_bind; [|intros ?]
    | apply Tracked_try_except; [|intros ?]
    | apply T_ret
    | apply T_raise
    | match goal with
      | |- Tracked None (if ?b then _ else _) => destruct b
      | |- Tracked None (match ?x with _ => _ end) => destruct x
      end ].

Lemma Tracked_connect_and_update : Tracked None _connect_and_update.
Proof. unfold _connect_and_update, set_status. tracked. Qed.

Lemma Tracked_send_command payload : Tracked None (_send_command payload).
Proof. unfold _send_command, set_status, get_ble. tracked. Qed.

Lemma Tracked_on_button name : Tracked None (on_button name).
Proof.
  unfold on_button, set_status, showerror.
  destruct (dict_get COMMANDS name) as [b|]; [destruct (negb (truthy_str b))|].
  - now apply (Tracked_local_op (ShowError _ _)).
  - cbv zeta. apply Tracked_try_except.
    + unfold _schedule_coroutine, write_log. apply Tracked_try_except;
        [apply Tracked_send_command|].
      intros e. apply Tracked_bind; [|intros; constructor].
      now apply (Tracked_local_op (WriteLog _)).
    + intros e. now apply (Tracked_local_op (SetStatus _)).
  - now apply (Tracked_local_op (ShowError _ _)).
Qed.

Lemma Tracked_program op : Tracked None (program op).
Proof.
  destruct op; cbn [program].
  - apply Tracked_bind; [apply Tracked_scan_and_connect|intros; constructor].
  - apply Tracked_disconnect.
  - apply Tracked_send.
  - apply Tracked_connect_and_update.
  - apply Tracked_send_command.
  - apply Tracked_on_button.
Qed.
End TrackedLaws.

Section TrackedLoop.
Variable ad : Adapter.

Lemma is_local_ble o s : is_local o = true -> ble (snd (exec_op ad o s)) = ble s.
Proof. destruct o; cbn; intros H; try discriminate; reflexivity. Qed.

Lemma is_quiet_ble o s :
  is_quiet o = true ->
  ble (snd (exec_op ad o s)) = ble s /\ lock_effect o = NoLock.
Proof. destruct o; cbn; intros H; try discriminate; auto. Qed.

(** Replacing task [i], the lock and the system keeps the loop tracked when
    the other tasks see the same lock, and the holder among them the same
    controller, as before. *)
Lemma tracked_update L i t s' lk' t' :
  tracked L ->
  nth_error (tasks L) i = Some t ->
  (forall j, j <> i -> holder lk' j = holds L j) ->
  ((exists j, j <> i /\ holds L j = true) -> ble s' = ble (sys L)) ->
  (lk' = None -> Inv (ble s')) ->
  Tracked (if holder lk' i then Some (ble s') else None) (task_prog t') ->
  tracked (mkLoop s' lk' (set_task i t' (tasks L))).
Proof.
  intros [_ HL] Hi Hlk Hble Hinv Hnew. split; [exact Hinv|].
  intros j tj Hj. unfold holds. cbn [tasks lock sys] in *.
  rewrite nth_error_set_task in Hj. destruct (Nat.eqb i j) eqn:Eij.
  - apply Nat.eqb_eq in Eij. subst j. rewrite Hi in Hj. injection Hj as <-. exact Hnew.
  - apply Nat.eqb_neq in Eij. rewrite Hlk by auto.
    specialize (HL j tj Hj). destruct (holds L j) eqn:Hh; [|exact HL].
    rewrite Hble; [exact HL|]. exists j. auto.
Qed.

Lemma step_tracked i L L' : tracked L -> step ad i L = Some L' -> tracked L'.
Proof.
  intros HL Hstep. unfold step in Hstep.
  destruct (nth_error (tasks L) i) as [t|] eqn:Hi; [|discriminate].
  pose proof (proj2 HL i t Hi) as Hti.
  assert (Hothers : holds L i = true -> forall j, j <> i -> holds L j = false).
  { intros Hh j Hj. unfold holds in *. eapply holder_other; eauto. }
  destruct t as [p|p]; cbn [task_prog] in Hti.
  - destruct (holds L i) eqn:Hh.
    + (* the holder *)
      assert (Hlk : lock L = Some i).
      { unfold holds, holder in Hh. destruct (lock L) as [h|]; [|discriminate].
        apply Nat.eqb_eq in Hh. now subst. }
      assert (Hnone : forall s', (exists j, j <> i /\ holds L j = true) -> ble s' = ble (sys L)).
      { intros s' (j & Hj & Hhj). rewrite (Hothers eq_refl j Hj) in Hhj. discriminate. }
      inversion Hti as [| | | |b k Hk Hv Hp|b f k Hk Hv Hp|b c u pl rr k H1 H2 H3 H4 Hk Hv Hp
                        |b o k Ho Hk Hv Hp|b k Hb Hk Hv Hp]; subst p; subst b.
      * (* reads the controller *)
        cbn in Hstep. injection Hstep as <-.
        eapply tracked_update; eauto; cbn [sys]; rewrite ?Hlk; try discriminate.
        unfold holds in Hh. rewrite Hlk in Hh. rewrite Hh. exact Hk.
      * (* assigns a field *)
        cbn in Hstep. injection Hstep as <-.
        eapply tracked_update; eauto; cbn [sys ble]; rewrite ?Hlk; try discriminate.
        unfold holds in Hh. rewrite Hlk in Hh. rewrite Hh. exact Hk.
      * (* writes *)
        cbn in Hstep. injection Hstep as <-.
        eapply tracked_update; eauto; cbn [sys ble emit]; rewrite ?Hlk; try discriminate.
        unfold holds in Hh. rewrite Hlk in Hh. rewrite Hh. apply Hk.
      * (* another call *)
        destruct (is_quiet_ble o (sys L) Ho) as [Hble Hno].
        destruct (exec_op ad o (sys L)) as [r s']. cbn [snd] in Hble.
        rewrite Hno in Hstep. injection Hstep as <-.
        eapply tracked_update; eauto; rewrite ?Hlk; try discriminate.
        unfold holds in Hh. rewrite Hlk in Hh. rewrite Hh, Hble.
        destruct (is_await o); apply Hk.
      * (* releases the lock *)
        cbn in Hstep. injection Hstep as <-.
        eapply tracked_update; eauto.
        intros j Hj. cbn [holder]. symmetry. now apply Hothers.
    + (* a task that does not hold the lock *)
      inversion Hti as [a Hp|e Hp|o k Ho Hk Hp|k Hk Hp| | | | |]; subst p;
        try discriminate.
      * pose proof (is_local_ble o (sys L) Ho) as Hble.
        destruct (is_local_no_lock o Ho) as [Hno Haw].
        destruct (exec_op ad o (sys L)) as [r s']. cbn [snd] in Hble.
        rewrite Hno, Haw in Hstep. injection Hstep as <-.
        eapply tracked_update; eauto.
        -- intros Hl. rewrite Hble. now apply (proj1 HL).
        -- fold (holds L i). rewrite Hh. apply Hk.
      * cbn in Hstep. destruct (lock L) as [h|] eqn:Elk; [discriminate|].
        injection Hstep as <-.
        eapply tracked_update; eauto.
        -- intros j Hj. unfold holds. rewrite Elk. now apply holder_some_other.
        -- discriminate.
        -- rewrite holder_self. apply Hk. now apply (proj1 HL).
  - (* a call in flight completes *)
    injection Hstep as <-. eapply tracked_update; eauto.
    all: first [apply (proj1 HL)|exact Hti].
Qed.

Lemma exec_tracked sched L L' : tracked L -> exec ad sched L = Some L' -> tracked L'.
Proof.
  revert L. induction sched as [|i sched IH]; intros L HL Hexec; cbn [exec] in Hexec.
  - now injection Hexec as <-.
  - destruct (step ad i L) as [L1|] eqn:Hstep; [|discriminate].
    eapply IH; [|exact Hexec]. eapply step_tracked; eauto.
Qed.

Lemma submit_tracked s ps :
  Inv (ble s) -> Forall (Tracked None) ps -> tracked (submit s ps).
Proof.
  intros Hs Hps. split; [intros _; exact Hs|].
  intros i t Hi. cbn [submit tasks lock holds holder] in *.
  apply nth_error_In, in_map_iff in Hi as (p & <- & Hp).
  rewrite Forall_forall in Hps. now apply Hps.
Qed.

End TrackedLoop.

(** * Properties of every interleaving *)

Section Interleavings.
Context {rt : Runtime}.
Variable ad : Adapter.

(** A finished coroutine is not the lock holder. *)
Lemma disciplined_finished L i t :
  disciplined L -> nth_error (tasks L) i = Some t -> finished t = true ->
  holds L i = false.
Proof.
  intros HL Hi Hf. specialize (HL i t Hi).
  destruct (holds L i); [|reflexivity].
  destruct t as [p|p]; [|discriminate]. cbn [task_prog] in HL.
  inversion HL as [| | | |o k Ho Hk Hp|k Hk Hp]; subst p; discriminate.
Qed.

Lemma finished_lock_free L :
  disciplined L -> lock_valid L -> forallb finished (tasks L) = true -> lock L = None.
Proof.
  intros HL Hv Hfin. destruct (lock L) as [h|] eqn:Elk; [|reflexivity].
  specialize (Hv h Elk). apply nth_error_Some in Hv.
  destruct (nth_error (tasks L) h) as [t|] eqn:Ht; [|congruence].
  rewrite forallb_forall in Hfin.
  pose proof (disciplined_finished L h t HL Ht (Hfin t (nth_error_In _ _ Ht))) as H.
  unfold holds, holder in H. rewrite Elk, Nat.eqb_refl in H. discriminate.
Qed.

Lemma submitted_disciplined s ops sched L :
  exec ad sched (submit s (map program ops)) = Some L ->
  disciplined L /\ lock_valid L.
Proof.
  intros Hexec. split.
  - apply (exec_disciplined ad sched (submit s (map program ops))); auto.
    apply submit_disciplined, Forall_forall. intros p Hp.
    apply in_map_iff in Hp as (op & <- & _). apply Outside_program.
  - apply (exec_lock_valid ad sched (submit s (map program ops))); auto.
    intros h H. discriminate.
Qed.

Lemma submitted_tracked s ops sched L :
  Inv (ble s) ->
  exec ad sched (submit s (map program ops)) = Some L ->
  tracked L.
Proof.
  intros Hs Hexec.
  apply (exec_tracked ad sched (submit s (map program ops))); auto.
  apply submit_tracked; [exact Hs|]. apply Forall_forall. intros p Hp.
  apply in_map_iff in Hp as (op & <- & _). apply Tracked_program.
Qed.
End Interleavings.

(** X13.  The lock is given back on every exit.  However the operations
    are interleaved, a coroutine that has finished, by returning or by
    raising, does not hold the lock; and once all have finished the lock is
    free. *)
Theorem lock_released_on_exit {rt : Runtime} ad s ops sched L :
  exec ad sched (submit s (map program ops)) = Some L ->
  (forall i t, nth_error (tasks L) i = Some t -> finished t = true -> lock L <> Some i) /\
  (forallb finished (tasks L) = true -> lock L = None).
Proof.
  intros Hexec. destruct (submitted_disciplined ad s ops sched L Hexec) as [HL Hv].
  split.
  - intros i t Hi Hf Hlk.
    pose proof (disciplined_finished L i t HL Hi Hf) as H.
    unfold holds, holder in H. rewrite Hlk, Nat.eqb_refl in H. discriminate.
  - now apply finished_lock_free.
Qed.




(** X15.  The connection invariant survives interleaving.  Whatever the
    operations and however they are interleaved, whenever the lock is free
    the controller holds a handle exactly when its connected flag is set,
    and then a non-empty write target too; in particular once all
    coroutines have finished. *)
Theorem invariant_under_interleaving {rt : Runtime} ad s ops sched L :
  Inv (ble s) ->
  exec ad sched (submit s (map program ops)) = Some L ->
  (lock L = None -> Inv (ble (sys L))) /\
  (forallb finished (tasks L) = true -> Inv (ble (sys L))).
Proof.
  intros Hs Hexec.
  pose proof (submitted_tracked ad s ops sched L Hs Hexec) as [HI _].
  destruct (submitted_disciplined ad s ops sched L Hexec) as [HL Hv].
  split; [exact HI|]. intros Hfin. apply HI. now apply finished_lock_free.
Qed.


(** X16.  What a session of the application can make reach the outside
    world.  Start the application, press any buttons in any number and
    order, close the window; however the coroutines they start are
    interleaved, every scan lasts 5 s, every sleep 0.1 s, every write
    carries the UTF-8 bytes of a key of [COMMANDS] and asks for the
    acknowledgement, and the error dialog never opens. *)
Theorem session_traffic {rt : Runtime} ad actions sched L :
  exec ad sched (submit App_init (session actions)) = Some L ->
  Forall session_event (history (sys L)).
Proof.
  intros Hexec.
  assert (Hts : Forall (fun t => Emits session_event (task_prog t))
                  (tasks (submit App_init (session actions)))).
  { cbn [submit tasks session map]. constructor;
      [apply Emits_schedule_coroutine, Emits_connect_and_update|].
    apply Forall_forall. intros t Ht. rewrite map_map in Ht.
    apply in_map_iff in Ht as (a & <- & _). apply Emits_action. }
  destruct (exec_emits ad session_event sched _ L Hts Hexec) as (evs & Hh & Hev).
  rewrite Hh. exact Hev.
Qed.


(** * The statements on sample runs

    Each statement is applied to a concrete transport, with the sample
    runtime [ascii_runtime] standing for the Python runtime. *)

#[local] Existing Instance ascii_runtime.

Lemma resolution_three_tier_witness :
  let s' := snd (run ad_late (scan_and_connect DEVICE_NAME 5.0%Q) App_init) in
  exists c sv u n,
    client (ble s') = Some c /\
    char_uuid (ble s') = Some u /\ u <> "" /\
    n <= 10 /\
    history s' = history App_init ++ [EDiscover 5.0%Q; EConnect c] ++ sleeps n /\
    ad_services ad_late (history s') c = inr sv /\
    (forall j, j < n ->
       exists v,
         ad_services ad_late (history App_init ++ [EDiscover 5.0%Q; EConnect c] ++ sleeps j) c
           = inr v /\
         truthy_services v = false) /\
    (truthy_services sv = true \/ n = 10) /\
    (truthy_services sv = false -> u = COMMAND_CHAR_UUID) /\
    (forall svcs, sv = Some svcs -> svcs <> [] -> gatt_uuids svcs ->
       match find is_command_char (all_characteristics svcs) with
       | Some ch => u = uuid ch
       | None =>
           match find is_writable (all_characteristics svcs) with
           | Some ch => u = uuid ch
           | None => u = COMMAND_CHAR_UUID
           end
       end).
Proof.
  apply (resolution_three_tier ad_late DEVICE_NAME 5.0%Q App_init).
  - reflexivity.
  - vm_compute. reflexivity.
Defined.

(** C3 as stated fails on the stored address: it is set by the connect
    attempt and is still there after [disconnect]. *)
Lemma disconnect_keeps_address_counterexample :
  let s1 := snd (run ad_robot (scan_and_connect DEVICE_NAME 5.0%Q) App_init) in
  let s2 := snd (run ad_robot disconnect s1) in
  address (ble App_init) = None /\
  address (ble s1) = Some "AA:BB:CC:DD:EE:FF" /\
  connected (ble s2) = false /\
  address (ble s2) = Some "AA:BB:CC:DD:EE:FF" /\
  address (ble s2) <> None.
Proof.
  vm_compute. repeat split; discriminate.
Qed.

Lemma send_connects_first_witness :
  run ad_absent (_send_command (encode_utf8 "forward")) App_init
    = (inl (runtime_error "Device not connected"),
       mkSys (ble App_init) "Device 'ardubotr4' not found" [EDiscover 5.0%Q]) /\
  run ad_refused (_send_command (encode_utf8 "forward")) App_init
    = (inl boom,
       mkSys (set_address (Some (d_address robot)) (ble App_init)) "Connection error: boom"
             [EDiscover 5.0%Q; EConnect (BleakClient (d_address robot));
              EDisconnect (BleakClient (d_address robot))]).
Proof.
  split.
  - exact (proj1 (send_connects_first ad_absent App_init (encode_utf8 "forward") eq_refl)).
  - exact (proj1 (send_connects_first ad_refused App_init (encode_utf8 "forward") eq_refl)).
Defined.

(** C4 as stated fails when the connect raises: the send then fails with the
    transport's own exception, which is not a not-connected error (no write
    is performed, as claimed). *)
Lemma send_transport_error_counterexample :
  let r := run ad_refused (_send_command (encode_utf8 "forward")) App_init in
  connected (ble App_init) = false /\
  fst (run ad_refused (scan_and_connect DEVICE_NAME 5.0%Q) App_init) = inl boom /\
  fst r = inl boom /\
  fst r <> inl (runtime_error "Device not connected") /\
  fst r <> inl (runtime_error "Not connected") /\
  filter is_write (history (snd r)) = [].
Proof.
  vm_compute. repeat split; discriminate.
Qed.

Lemma invariant_preserved_witness :
  Inv (ble (snd (run ad_write_fails (program (DoButton "forward")) App_init))) /\
  Inv (ble (snd (run ad_refused (scan_and_connect DEVICE_NAME 5.0%Q) App_init))) /\
  send_guard (ble sys_connected) = connected (ble sys_connected).
Proof.
  destruct invariant_preserved as (H0 & H1 & H2 & H3).
  split; [|split].
  - apply H1. exact H0.
  - apply H2. exact H0.
  - apply H3. unfold Inv. simpl. repeat split; try discriminate; reflexivity.
Defined.

Lemma connect_idempotent_witness :
  run ad_robot (scan_and_connect DEVICE_NAME 5.0%Q) sys_connected = (inr true, sys_connected).
Proof.
  apply connect_idempotent.
  - reflexivity.
  - left. reflexivity.
Defined.

Lemma discovery_first_match_witness :
  (run ad_absent (scan_and_connect DEVICE_NAME 5.0%Q) App_init
     = (inr false, emit (EDiscover 5.0%Q) App_init) /\
   run ad_absent _connect_and_update App_init
     = (inr tt, mkSys (ble App_init) "Device 'ardubotr4' not found or no writable char"
                      (history App_init ++ [EDiscover 5.0%Q]))) /\
  (exists rest,
     history (snd (run ad_robot (scan_and_connect DEVICE_NAME 5.0%Q) App_init))
       = history App_init ++ EDiscover 5.0%Q :: EConnect (BleakClient (d_address robot)) :: rest /\
     address (ble (snd (run ad_robot (scan_and_connect DEVICE_NAME 5.0%Q) App_init)))
       = Some (d_address robot) /\
     forall c, ~ In (EConnect c) rest) /\
  run ad_blank_names (scan_and_connect "" 5.0%Q) App_init
    = (inr false, emit (EDiscover 5.0%Q) App_init).
Proof.
  split; [|split].
  - destruct (discovery_first_match ad_absent App_init DEVICE_NAME 5.0%Q
                [nameless; thermostat] eq_refl eq_refl eq_refl) as [H _].
    destruct (H eq_refl) as (H1 & _ & _ & H2). split; [exact H1|].
    apply H2; reflexivity.
  - destruct (discovery_first_match ad_robot App_init DEVICE_NAME 5.0%Q
                [nameless; thermostat; robot; robot_twin] eq_refl eq_refl eq_refl)
      as (_ & H & _).
    apply (H [nameless; thermostat] robot [robot_twin]).
    + reflexivity.
    + intros x [<-|[<-|[]]]; discriminate.
    + reflexivity.
    + discriminate.
  - destruct (discovery_first_match ad_blank_names App_init "" 5.0%Q
                [blank_name; blank_twin] eq_refl eq_refl eq_refl) as (_ & _ & H).
    apply H. intros x [<-|[<-|[]]]; reflexivity.
Defined.

(** C7 as stated fails on devices with an empty name: both devices in
    range equal the empty target name, yet the scan loop passes over them,
    so no match wins: the connect reports not found and opens nothing. *)
Lemma discovery_empty_name_counterexample :
  let r := run ad_blank_names (scan_and_connect "" 5.0%Q) App_init in
  ad_discover ad_blank_names (history App_init) 5.0%Q = inr [blank_name; blank_twin] /\
  same_name "" blank_name = true /\
  same_name "" blank_twin = true /\
  fst r = inr false /\
  history (snd r) = [EDiscover 5.0%Q] /\
  history (snd r) <> [EDiscover 5.0%Q; EConnect (BleakClient (d_address blank_name))] /\
  address (ble (snd r)) = None /\
  address (ble (snd r)) <> Some (d_address blank_name).
Proof.
  vm_compute. repeat split; discriminate.
Qed.

Lemma polling_bounded_witness :
  run ad_silent (scan_and_connect DEVICE_NAME 5.0%Q) App_init
    = (inr true,
       mkSys (mkBLE (Some (BleakClient (d_address robot))) (Some COMMAND_CHAR_UUID)
                    (Some (d_address robot)) true)
             (status_var App_init)
             (history App_init
                ++ [EDiscover 5.0%Q; EConnect (BleakClient (d_address robot))]
                ++ sleeps 10)).
Proof.
  apply (proj2 (polling_bounded ad_silent App_init DEVICE_NAME 5.0%Q) [robot] robot).
  - reflexivity.
  - reflexivity.
  - reflexivity.
  - reflexivity.
  - reflexivity.
  - intros h. exists (Some []). split; reflexivity.
Defined.

Lemma button_writes_own_name_witness :
  let r := run ad_write_fails (on_button "forward") sys_connected in
  exists c u,
    client (ble sys_connected) = Some c /\ char_uuid (ble sys_connected) = Some u /\
    fst r = inr tt /\
    history (snd r)
      = history sys_connected ++
        EWrite c u (encode_utf8 "forward") true ::
        match ad_write ad_write_fails (history sys_connected) c u (encode_utf8 "forward") true with
        | inr _ => []
        | inl _ => [ELog task_log_header]
        end /\
    filter is_write (history (snd r))
      = filter is_write (history sys_connected) ++ [EWrite c u (encode_utf8 "forward") true] /\
    ble (snd r) = ble sys_connected /\
    status_var (snd r)
      = match ad_write ad_write_fails (history sys_connected) c u (encode_utf8 "forward") true with
        | inr _ => ("Sent: " ++ "forward")%string
        | inl e => ("Send error: " ++ exn_msg e)%string
        end /\
    ("forward" = "forward" ->
     encode_utf8 "forward"
       = [Byte.x66; Byte.x6f; Byte.x72; Byte.x77; Byte.x61; Byte.x72; Byte.x64] /\
     (ad_write ad_write_fails (history sys_connected) c u (encode_utf8 "forward") true = inr tt ->
      status_var (snd r) = "Sent: forward")).
Proof.
  apply (button_writes_own_name ad_write_fails sys_connected "forward").
  - simpl. left. reflexivity.
  - unfold Inv. simpl. repeat split; try discriminate; reflexivity.
  - reflexivity.
Defined.

Lemma failed_write_keeps_connection_witness :
  let r := run ad_write_fails (_send_command (encode_utf8 "left")) sys_connected in
  fst r = inl boom /\
  ble (snd r) = ble sys_connected /\
  connected (ble (snd r)) = true /\
  history (snd r)
    = history sys_connected
        ++ [EWrite (BleakClient "AA:BB:CC:DD:EE:FF") "19b10001-e8f2-537e-4f6c-d104768a1214"
                   (encode_utf8 "left") true] /\
  status_var (snd r) = ("Send failed: " ++ exn_msg boom)%string /\
  forall payload',
    history (snd (run ad_write_fails (_send_command payload') (snd r)))
      = history (snd r)
          ++ [EWrite (BleakClient "AA:BB:CC:DD:EE:FF") "19b10001-e8f2-537e-4f6c-d104768a1214"
                     payload' true] /\
    ble (snd (run ad_write_fails (_send_command payload') (snd r))) = ble sys_connected.
Proof.
  apply (failed_write_keeps_connection ad_write_fails sys_connected (encode_utf8 "left") boom).
  - reflexivity.
  - reflexivity.
  - reflexivity.
  - discriminate.
  - reflexivity.
Defined.

Lemma ad_late_cooperative : cooperative ad_late.
Proof.
  split; [reflexivity|]. split; [|split].
  - intros h t. exists [robot], robot. split; reflexivity.
  - reflexivity.
  - intros h c. eexists. reflexivity.
Qed.

Lemma exclusive_section_witness :
  match exec ad_late sched_interleaved
          (submit App_init [_send_command (encode_utf8 "forward");
                            _send_command (encode_utf8 "back")]) with
  | Some L =>
      exists c u n,
        n <= 10 /\
        connected (ble (sys L)) = true /\
        client (ble (sys L)) = Some c /\ char_uuid (ble (sys L)) = Some u /\
        (history (sys L)
           = history App_init ++ opening c n
               ++ [EWrite c u (encode_utf8 "forward") true;
                   EWrite c u (encode_utf8 "back") true] \/
         history (sys L)
           = history App_init ++ opening c n
               ++ [EWrite c u (encode_utf8 "back") true;
                   EWrite c u (encode_utf8 "forward") true])
  | None => False
  end.
Proof.
  destruct (exec ad_late sched_interleaved _) as [L|] eqn:E.
  - apply (proj2 (proj2 exclusive_section ad_late App_init (encode_utf8 "forward")
                    (encode_utf8 "back") eq_refl) ad_late_cooperative sched_interleaved L E).
    vm_compute in E. injection E as <-. reflexivity.
  - vm_compute in E. discriminate.
Defined.

(** ** Further properties *)


Lemma connect_result_is_flag_witness :
  (connected (ble (emit (EDiscover 5.0%Q) App_init)) = false /\
   (false = false ->
    exists devices,
      ad_discover ad_absent (history App_init) 5.0%Q = inr devices /\
      find_target DEVICE_NAME devices = None /\
      Forall (fun d => name_matches DEVICE_NAME d = false) devices /\
      emit (EDiscover 5.0%Q) App_init = emit (EDiscover 5.0%Q) App_init)) /\
  connected (ble (snd (run ad_robot (scan_and_connect DEVICE_NAME 5.0%Q) App_init))) = true.
Proof.
  split.
  - apply (connect_result_is_flag ad_absent App_init DEVICE_NAME 5.0%Q false). reflexivity.
  - apply (connect_result_is_flag ad_robot App_init DEVICE_NAME 5.0%Q true).
    vm_compute. reflexivity.
Defined.

Lemma connect_failure_cleanup_witness :
  let s := App_init in
  let s' := snd (run ad_drops (scan_and_connect DEVICE_NAME 5.0%Q) App_init) in
  client (ble s') = client (ble s) /\
  char_uuid (ble s') = char_uuid (ble s) /\
  connected (ble s') = connected (ble s) /\
  status_var s' = status_var s /\
  ((bleak_installed ad_drops = false /\
    boom = runtime_error "bleak is not installed" /\ s' = s) \/
   (ad_discover ad_drops (history s) 5.0%Q = inl boom /\ s' = emit (EDiscover 5.0%Q) s) \/
   (exists devices target mid,
      ad_discover ad_drops (history s) 5.0%Q = inr devices /\
      find_target DEVICE_NAME devices = Some target /\
      address (ble s') = Some (d_address target) /\
      history s' = history s
                     ++ [EDiscover 5.0%Q; EConnect (BleakClient (d_address target))]
                     ++ mid ++ [EDisconnect (BleakClient (d_address target))] /\
      ((ad_connect ad_drops (history s ++ [EDiscover 5.0%Q]) (BleakClient (d_address target))
          = inl boom /\
        mid = if is_RecursionError boom then [ELog recursion_log_header] else []) \/
       (exists n,
          n <= 10 /\ mid = sleeps n /\
          ad_services ad_drops
            (history s ++ [EDiscover 5.0%Q; EConnect (BleakClient (d_address target))]
                       ++ sleeps n)
            (BleakClient (d_address target)) = inl boom)))).
Proof.
  apply (connect_failure_cleanup ad_drops App_init DEVICE_NAME 5.0%Q boom).
  vm_compute. reflexivity.
Defined.

Lemma connect_status_truthful_witness :
  let r := run ad_refused _connect_and_update App_init in
  fst r = inr tt /\
  (status_var (snd r) = "Connected to ardubotr4" <-> connected (ble (snd r)) = true).
Proof.
  apply (connect_status_truthful ad_refused App_init). left. reflexivity.
Defined.

Lemma unknown_command_dialog_witness :
  run ad_robot (on_button "Forward") sys_connected
    = (inr tt, emit (EShowError "Error" "Unknown command: Forward") sys_connected) /\
  exists evs,
    history (snd (run ad_robot (on_button "forward") sys_connected))
      = history sys_connected ++ evs /\
    forall title msg, ~ In (EShowError title msg) evs.
Proof.
  split.
  - apply (proj1 (unknown_command_dialog ad_robot sys_connected "Forward")).
    vm_compute. intuition discriminate.
  - apply (proj2 (unknown_command_dialog ad_robot sys_connected "forward")).
    vm_compute. auto.
Defined.

Lemma button_failure_status_witness :
  fst (run ad_absent (on_button "switch") App_init) = inr tt /\
  run ad_absent (on_button "switch") App_init
    = (inr tt, mkSys (ble App_init) "Send error: Device not connected"
                     (history App_init ++ [EDiscover 5.0%Q; ELog task_log_header])).
Proof.
  assert (Hin : In "switch" command_names) by (vm_compute; auto 10).
  split.
  - exact (proj1 (button_failure_status ad_absent App_init "switch" Hin)).
  - apply (proj2 (proj2 (proj2 (button_failure_status ad_absent App_init "switch" Hin)))
             [nameless; thermostat]); reflexivity.
Defined.

Lemma unnamed_devices_never_chosen_witness :
  (In robot [nameless; thermostat; robot; robot_twin] /\
   exists n, d_name robot = Some n /\ n <> "" /\ lower n = lower DEVICE_NAME) /\
  run ad_unnamed (scan_and_connect "" 5.0%Q) App_init
    = (inr false, emit (EDiscover 5.0%Q) App_init).
Proof.
  split.
  - apply (proj1 (unnamed_devices_never_chosen ad_robot App_init DEVICE_NAME 5.0%Q
                    [nameless; thermostat; robot; robot_twin]) robot).
    reflexivity.
  - apply (proj2 (unnamed_devices_never_chosen ad_unnamed App_init "" 5.0%Q
                    [nameless; blank_name])); try reflexivity.
    constructor; [left; reflexivity|]. constructor; [right; reflexivity|]. constructor.
Defined.

Lemma handle_bound_to_address_witness :
  let s := run_all ad_robot [DoButton "forward"; DoConnectAndUpdate] App_init in
  (connected (ble s) = true ->
   exists a, client (ble s) = Some (BleakClient a) /\ address (ble s) = Some a) /\
  (forall op,
     address (ble s) <> None -> address (ble (snd (run ad_robot (program op) s))) <> None).
Proof.
  apply (handle_bound_to_address ad_robot).
  exists [DoButton "forward"; DoConnectAndUpdate]. reflexivity.
Defined.

Lemma ascii_text_round_trip_witness :
  decode_utf8_replace (encode_utf8 "stop now!") = "stop now!" /\
  run ad_robot (_send_command (encode_utf8 "stop now!")) sys_connected
    = (inr tt,
       mkSys (ble sys_connected) "Sent: stop now!"
             (history sys_connected
                ++ [EWrite (BleakClient "AA:BB:CC:DD:EE:FF")
                           "19b10001-e8f2-537e-4f6c-d104768a1214"
                           (encode_utf8 "stop now!") true])).
Proof.
  assert (H : Forall (fun b => is_ascii_byte b = true) (encode_utf8 "stop now!")).
  { vm_compute. repeat constructor. }
  split.
  - exact (proj1 (ascii_text_round_trip "stop now!" H)).
  - apply (proj2 (ascii_text_round_trip "stop now!" H)); try reflexivity. discriminate.
Defined.

Lemma no_poll_when_services_ready_witness :
  run ad_robot (scan_and_connect DEVICE_NAME 5.0%Q) App_init
    = (inr true,
       mkSys (mkBLE (Some (BleakClient (d_address robot)))
                    (Some (or_default
                             (choose_char
                                (Some [mkService [name_char];
                                       mkService [serial_char; command_char]]))
                             COMMAND_CHAR_UUID))
                    (Some (d_address robot)) true)
             (status_var App_init)
             (history App_init ++ [EDiscover 5.0%Q; EConnect (BleakClient (d_address robot))])).
Proof.
  apply (no_poll_when_services_ready ad_robot App_init DEVICE_NAME 5.0%Q
           [nameless; thermostat; robot; robot_twin] robot
           (mkService [name_char]) [mkService [serial_char; command_char]]);
    reflexivity.
Defined.

Lemma sent_means_written_witness :
  let r := run ad_robot (_send_command (encode_utf8 "back")) App_init in
  exists c u h,
    history (snd r) = h ++ [EWrite c u (encode_utf8 "back") true] /\
    ad_write ad_robot h c u (encode_utf8 "back") true = inr tt /\
    client (ble (snd r)) = Some c /\
    char_uuid (ble (snd r)) = Some u /\
    connected (ble (snd r)) = true /\
    status_var (snd r) = ("Sent: " ++ decode_utf8_replace (encode_utf8 "back"))%string.
Proof.
  apply (proj1 (sent_means_written ad_robot App_init (encode_utf8 "back"))).
  vm_compute. reflexivity.
Defined.

Lemma lock_released_on_exit_witness :
  match exec ad_write_fails sched_send_disconnect
          (submit App_init (map program [DoSendCommand (encode_utf8 "left"); DoDisconnect])) with
  | Some L =>
      (forall i t, nth_error (tasks L) i = Some t -> finished t = true -> lock L <> Some i) /\
      lock L = None
  | None => False
  end.
Proof.
  destruct (exec ad_write_fails sched_send_disconnect _) as [L|] eqn:E.
  - destruct (lock_released_on_exit ad_write_fails App_init
                [DoSendCommand (encode_utf8 "left"); DoDisconnect]
                sched_send_disconnect L E) as [H1 H2].
    split; [exact H1|]. apply H2. vm_compute in E. injection E as <-. reflexivity.
  - vm_compute in E. discriminate.
Defined.


Lemma invariant_under_interleaving_witness :
  match exec ad_write_fails sched_send_disconnect
          (submit App_init (map program [DoSendCommand (encode_utf8 "left"); DoDisconnect])) with
  | Some L => (lock L = None -> Inv (ble (sys L))) /\ Inv (ble (sys L))
  | None => False
  end.
Proof.
  assert (Hinv : Inv (ble App_init)).
  { split; cbn; [split; [congruence|discriminate]|discriminate]. }
  destruct (exec ad_write_fails sched_send_disconnect _) as [L|] eqn:E.
  - destruct (invariant_under_interleaving ad_write_fails App_init
                [DoSendCommand (encode_utf8 "left"); DoDisconnect]
                sched_send_disconnect L Hinv E) as [H1 H2].
    split; [exact H1|]. apply H2. vm_compute in E. injection E as <-. reflexivity.
  - vm_compute in E. discriminate.
Defined.

Lemma session_traffic_witness :
  match exec ad_late sched_session
          (submit App_init (session [Press btn_forward; Close; Press btn_switch])) with
  | Some L => Forall session_event (history (sys L))
  | None => False
  end.
Proof.
  destruct (exec ad_late sched_session _) as [L|] eqn:E.
  - exact (session_traffic ad_late [Press btn_forward; Close; Press btn_switch]
             sched_session L E).
  - vm_compute in E. discriminate.
Defined.
